(** * dsa-visualizer: matrix-chain tables, tree layout and the Red-Black engine

    A shallow embedding of the pure parts of the visualizer:
    - [MatrixChain]   : src/core/MatrixChain.ts
    - [MatrixChainMS] : the second matrix-chain module (the one returning
                        [MSResult] and numbering nodes with [_nodeCounter])
    - [LayoutNil], [LayoutPlain] : the two [computeTreeLayout] functions
    - [MatrixChainVisualizer] : [layoutTree], [buildPreviewSvg] and
                        [computeStepsForDims] of the matrix-chain view
    - [RBTree]        : the instrumented Red-Black tree engine
    - [NodeStore]     : the engine over a store of node objects, where a
                        step holds a reference to its snapshot
    - [Checked]       : the engine's operations with their fail-fast check
                        of the invariants, and the handlers that call them.

    The dimensions and the cost tables of the matrix-chain code are
    JavaScript numbers, that is IEEE 754 doubles: [spec_float] with 53 bits
    of precision, with its rounding, its overflow to [Infinity] and its
    [NaN].  Indices, split points and node ids are loop counters and are
    kept as [nat] or [Z]. *)

From stdpp Require Import base numbers list strings gmap pretty sorting.
From Stdlib Require Import QArith Lqa SpecFloat.
Local Open Scope nat_scope.
Set Warnings "-register-all".

(** ** Numbers and two-dimensional tables *)

(** A JavaScript number. *)
Definition num : Type := spec_float.

Global Instance num_eq_dec : EqDecision num.
Proof. solve_decision. Defined.

(** The literals [0], [Infinity] and [NaN]. *)
Definition zero : num := S754_zero false.
Definition Inf : num := S754_infinity false.
Definition NaN : num := S754_nan.

Global Instance num_inhabited : Inhabited num := populate zero.

(** An integer literal: the double nearest to [z]. *)
Definition ofZ (z : Z) : num := binary_normalize 53 1024 z 0 false.

(** [a + b], [a * b] and [a < b] on doubles. *)
Definition num_add (a b : num) : num := SFadd 53 1024 a b.
Definition num_mul (a b : num) : num := SFmul 53 1024 a b.
Definition num_ltb (a b : num) : bool := SFltb a b.

(** [p[i]] for an array of numbers; outside the array the read gives
    [undefined], which arithmetic turns into [NaN]. *)
Definition dim (p : list num) (i : nat) : num := default NaN (p !! i).

(** [t[i][j]]: every read of the programs below is in range; a read that
    is not yields the default element. *)
Definition get2 {A} `{!Inhabited A} (t : list (list A)) (i j : nat) : A :=
  (t !!! i) !!! j.

(** [t[i][j] = v] for an index inside the table (no row is ever extended by
    the programs below). *)
Definition set2 {A} (t : list (list A)) (i j : nat) (v : A) : list (list A) :=
  match t !! i with
  | Some row => <[i := <[j := v]> row]> t
  | None => t
  end.

(** [Array(r).fill(0).map(() => Array(c).fill(x))] *)
Definition filled {A} (r c : nat) (x : A) : list (list A) :=
  replicate r (replicate c x).

(** A table has [r] rows of [c] entries each. *)
Definition dims {A} (r c : nat) (t : list (list A)) : Prop :=
  length t = r ∧ ∀ i row, t !! i = Some row → length row = c.

(** The cost of splitting [A_i ... A_j] after [A_k], as the recurrence
    writes it: [m[i][k] + m[k+1][j] + p[i-1]*p[k]*p[j]], evaluated from
    left to right. *)
Definition splitCost (p : list num) (m : list (list num)) (i k j : nat) : num :=
  num_add (num_add (get2 m i k) (get2 m (k + 1) j))
          (num_mul (num_mul (dim p (i - 1)) (dim p k)) (dim p j)).

(** The matrix-chain recurrence at cell [(i, j)]: [s[i][j]] is a split
    [i <= k < j], [m[i][j]] is its cost, and no split costs less. *)
Definition optimal_split (p : list num) (m : list (list num))
    (s : list (list nat)) (i j : nat) : Prop :=
  i ≤ get2 s i j < j ∧
  get2 m i j = splitCost p m i (get2 s i j) j ∧
  ∀ k, i ≤ k < j → num_ltb (splitCost p m i k j) (get2 m i j) = false.

(** The recurrence over the whole table for [n] matrices. *)
Definition recurrence (p : list num) (n : nat) (m : list (list num))
    (s : list (list nat)) : Prop :=
  (∀ i, 1 ≤ i ≤ n → get2 m i i = zero) ∧
  (∀ i j, 1 ≤ i → i < j → j ≤ n → optimal_split p m s i j).

(** Cell [(i, j)] when no split has a cost below [Infinity] (every cost
    overflows or is [NaN]): the entry is the [Infinity] written before the
    inner loop, and the split is the 0 of the initial table. *)
Definition no_split (p : list num) (m : list (list num))
    (s : list (list nat)) (i j : nat) : Prop :=
  (∀ k, i ≤ k < j → num_ltb (splitCost p m i k j) Inf = false) ∧
  get2 m i j = Inf ∧ get2 s i j = 0.

(** The recurrence as the loops establish it: it holds at every cell where
    some split has a cost below [Infinity]. *)
Definition recurrence_below_Infinity (p : list num) (n : nat)
    (m : list (list num)) (s : list (list nat)) : Prop :=
  (∀ i, 1 ≤ i ≤ n → get2 m i i = zero) ∧
  (∀ i j, 1 ≤ i → i < j → j ≤ n →
     ((∃ k, i ≤ k < j ∧ num_ltb (splitCost p m i k j) Inf = true) ∧
      optimal_split p m s i j) ∨
     no_split p m s i j).

(** Checked read of a split table, shared by the tree builders: [s[i][j]]
    raises when row [i] is missing, and a missing column yields [undefined],
    on which the recursion below never reaches [i === j]; both are failures
    of the call, written [None]. *)
Definition read2 (s : list (list nat)) (i j : nat) : option nat :=
  row ← s !! i; row !! j.

(** ** src/core/MatrixChain.ts *)
Module MatrixChain.

Record MatrixChainResult : Type := {
  m : list (list num);
  s : list (list nat);
  minCost : num
}.

(** [m[i][k] + m[k + 1][j] + p[i - 1] * p[k] * p[j]] *)
Definition cost (p : list num) (m : list (list num)) (i k j : nat) : num :=
  num_add (num_add (get2 m i k) (get2 m (k + 1) j))
          (num_mul (num_mul (dim p (i - 1)) (dim p k)) (dim p j)).

(** Body of the [k] loop. *)
Definition step_k (p : list num) (i j : nat)
    (ms : list (list num) * list (list nat)) (k : nat) :=
  let c := cost p ms.1 i k j in
  if num_ltb c (get2 ms.1 i j)
  then (set2 ms.1 i j c, set2 ms.2 i j k)
  else ms.

(** Body of the [i] loop: [j = i + l - 1], [m[i][j] = Infinity], then
    [k] from [i] to [j - 1]. *)
Definition step_i (p : list num) (l : nat)
    (ms : list (list num) * list (list nat)) (i : nat) :=
  let j := i + l - 1 in
  foldl (step_k p i j) (set2 ms.1 i j Inf, ms.2) (seq i (j - i)).

(** Body of the [l] loop: [i] from [1] to [n - l + 1]. *)
Definition step_l (p : list num) (n : nat)
    (ms : list (list num) * list (list nat)) (l : nat) :=
  foldl (step_i p l) ms (seq 1 (n - l + 1)).

(** The two tables after the loops.  [n1] is [n + 1 = p.length] (so the
    tables are empty for an empty [p], where [n] is [-1]); [n] is
    [p.length - 1], and every loop is empty unless [n >= 2]. *)
Definition tables (p : list num) : list (list num) * list (list nat) :=
  let n1 := length p in
  let n := length p - 1 in
  foldl (step_l p n) (filled n1 n1 (zero), filled n1 n1 0) (seq 2 (n - 1)).

Definition matrixChainOrder (p : list num) : MatrixChainResult :=
  let n := length p - 1 in
  let ms := tables p in
  {| m := ms.1; s := ms.2;
     minCost := if bool_decide (0 < n) then get2 ms.1 1 n else zero |}.


(** [TreeNode] of src/core/MatrixChain.ts: numeric id, label, children
    ([null] for a leaf). *)
Inductive TreeNode : Type :=
  | mkTreeNode (id : nat) (label : string) (left right : option TreeNode).

Definition id (t : TreeNode) : nat := let 'mkTreeNode i _ _ _ := t in i.
Definition label (t : TreeNode) : string := let 'mkTreeNode _ l _ _ := t in l.

(** The recursion of [buildParenthesisTree], threading the value of
    [idCounter.val] (the counter object is shared by the recursive
    calls).  The object literal evaluates [id: idCounter.val++] before
    the two recursive calls, so a node is numbered before its subtrees.
    [fuel] bounds the depth of the recursion: a split table that does not
    shrink the interval makes the program recurse until the stack
    overflows. *)
Fixpoint build (fuel : nat) (s : list (list nat)) (i j : nat) (ctr : nat)
    : option (TreeNode * nat) :=
  match fuel with
  | 0 => None
  | S fuel =>
      if bool_decide (i = j)
      then Some (mkTreeNode ctr ("A" +:+ pretty i) None None, ctr + 1)
      else
        k ← read2 s i j;
        '(l, c1) ← build fuel s i k (ctr + 1);
        '(r, c2) ← build fuel s (k + 1) j c1;
        Some (mkTreeNode ctr ("(" +:+ pretty i +:+ "," +:+ pretty j +:+ ")")
                         (Some l) (Some r), c2)
  end.

(** [buildParenthesisTree(s, i, j, idCounter = { val: 0 })]: without a
    fourth argument every call creates its own counter, starting at 0. *)
Definition buildParenthesisTree (fuel : nat) (s : list (list nat))
    (i j : nat) (idCounter : option nat) : option (TreeNode * nat) :=
  build fuel s i j (default 0 idCounter).

(** Number of nodes, and the ids in the order the recursion visits the
    nodes (a node before its subtrees). *)
Fixpoint size (t : TreeNode) : nat :=
  let 'mkTreeNode _ _ l r := t in
  1 + match l with Some a => size a | None => 0 end
    + match r with Some b => size b | None => 0 end.

Fixpoint ids (t : TreeNode) : list nat :=
  let 'mkTreeNode i _ l r := t in
  i :: match l with Some a => ids a | None => [] end
    ++ match r with Some b => ids b | None => [] end.

(** [parenthesizationFromS]; [fuel] bounds the depth of the recursion as in
    [build]. *)
Fixpoint parenthesizationFromS (fuel : nat) (s : list (list nat)) (i j : nat)
    : option string :=
  match fuel with
  | 0 => None
  | S fuel =>
      if bool_decide (i = j)
      then Some ("A" +:+ pretty i)
      else
        k ← read2 s i j;
        left_ ← parenthesizationFromS fuel s i k;
        right_ ← parenthesizationFromS fuel s (k + 1) j;
        Some ("(" +:+ left_ +:+ " Ã— " +:+ right_ +:+ ")")
  end.

(** The text of a tree: the label of a leaf, and for a node with two
    children the texts of both, joined as [parenthesizationFromS] joins
    them. *)
Fixpoint treeText (t : TreeNode) : string :=
  match t with
  | mkTreeNode _ _ (Some l) (Some r) =>
      "(" +:+ treeText l +:+ " Ã— " +:+ treeText r +:+ ")"
  | mkTreeNode _ lbl _ _ => lbl
  end.

(** The labels of the leaves, from left to right. *)
Fixpoint leafLabels (t : TreeNode) : list string :=
  match t with
  | mkTreeNode _ lbl None None => [lbl]
  | mkTreeNode _ _ l r =>
      match l with Some a => leafLabels a | None => [] end
        ++ match r with Some b => leafLabels b | None => [] end
  end.

End MatrixChain.

(** ** The second matrix-chain module ([MSResult], string ids) *)
Module MatrixChainMS.

Record MSResult : Type := {
  m : list (list num);
  s : list (list nat)
}.

(** [q = m[i][k] + m[k + 1][j] + p[i - 1] * p[k] * p[j]] *)
Definition q (p : list num) (m : list (list num)) (i k j : nat) : num :=
  num_add (num_add (get2 m i k) (get2 m (k + 1) j))
          (num_mul (num_mul (dim p (i - 1)) (dim p k)) (dim p j)).

Definition step_k (p : list num) (i j : nat)
    (ms : list (list num) * list (list nat)) (k : nat) :=
  let c := q p ms.1 i k j in
  if num_ltb c (get2 ms.1 i j)
  then (set2 ms.1 i j c, set2 ms.2 i j k)
  else ms.

Definition step_i (p : list num) (L : nat)
    (ms : list (list num) * list (list nat)) (i : nat) :=
  let j := i + L - 1 in
  foldl (step_k p i j) (set2 ms.1 i j Inf, ms.2) (seq i (j - i)).

Definition step_L (p : list num) (n : nat)
    (ms : list (list num) * list (list nat)) (L : nat) :=
  foldl (step_i p L) ms (seq 1 (n - L + 1)).

(** [for (let i = 1; i <= n; i++) m[i][i] = 0] *)
Definition clear_diagonal (n : nat) (m : list (list num)) : list (list num) :=
  foldl (λ m i, set2 m i i (zero)) m (seq 1 n).

Definition matrixChainOrder (p : list num) : MSResult :=
  let n1 := length p in
  let n := length p - 1 in
  let ms := foldl (step_L p n)
              (clear_diagonal n (filled n1 n1 (zero)), filled n1 n1 0)
              (seq 2 (n - 1)) in
  {| m := ms.1; s := ms.2 |}.

(** [TreeNode] of this module: the id is a string, a leaf has no child
    fields. *)
Inductive TreeNode : Type :=
  | mkTreeNode (id : string) (label : string) (left right : option TreeNode).

Definition id (t : TreeNode) : string := let 'mkTreeNode i _ _ _ := t in i.

(** [nextId()] on the module variable [_nodeCounter]: pre-increment, then
    format. Returns the id and the new value of the counter. *)
Definition nextId (_nodeCounter : nat) : string * nat :=
  ("n" +:+ pretty (_nodeCounter + 1), _nodeCounter + 1).

(** [buildParenthesisTree], threading the module variable [_nodeCounter]:
    the subtrees are built first, the node takes its id last. *)
Fixpoint buildParenthesisTree (fuel : nat) (s : list (list nat))
    (i j : nat) (_nodeCounter : nat) : option (TreeNode * nat) :=
  match fuel with
  | 0 => None
  | S fuel =>
      if bool_decide (i = j)
      then let '(nid, c) := nextId _nodeCounter in
           Some (mkTreeNode nid ("A" +:+ pretty i) None None, c)
      else
        k ← read2 s i j;
        '(l, c1) ← buildParenthesisTree fuel s i k _nodeCounter;
        '(r, c2) ← buildParenthesisTree fuel s (k + 1) j c1;
        let '(nid, c3) := nextId c2 in
        Some (mkTreeNode nid ("(" +:+ pretty i +:+ "-" +:+ pretty j +:+ ")")
                         (Some l) (Some r), c3)
  end.

(** A tree without its ids: labels and shape only. *)
Inductive Shape : Type :=
  | mkShape (label : string) (left right : option Shape).

Fixpoint shape (t : TreeNode) : Shape :=
  let 'mkTreeNode _ lbl l r := t in
  mkShape lbl
    match l with Some a => Some (shape a) | None => None end
    match r with Some b => Some (shape b) | None => None end.

Fixpoint size (t : TreeNode) : nat :=
  let 'mkTreeNode _ _ l r := t in
  1 + match l with Some a => size a | None => 0 end
    + match r with Some b => size b | None => 0 end.

(** The ids in the order [nextId] hands them out (subtrees first). *)
Fixpoint ids (t : TreeNode) : list string :=
  let 'mkTreeNode i _ l r := t in
  match l with Some a => ids a | None => [] end
    ++ match r with Some b => ids b | None => [] end ++ [i].

(** Two calls one after the other: the second starts from the value of
    [_nodeCounter] that the first one left. *)
Definition two_calls (fuel : nat) (s : list (list nat)) (i j : nat)
    (_nodeCounter : nat) : option (TreeNode * TreeNode) :=
  '(t1, c1) ← buildParenthesisTree fuel s i j _nodeCounter;
  '(t2, _) ← buildParenthesisTree fuel s i j c1;
  Some (t1, t2).

(** [parenthesizationFromS] of this module. *)
Fixpoint parenthesizationFromS (fuel : nat) (s : list (list nat)) (i j : nat)
    : option string :=
  match fuel with
  | 0 => None
  | S fuel =>
      if bool_decide (i = j)
      then Some ("A" +:+ pretty i)
      else
        k ← read2 s i j;
        left_ ← parenthesizationFromS fuel s i k;
        right_ ← parenthesizationFromS fuel s (k + 1) j;
        Some ("(" +:+ left_ +:+ " " +:+ right_ +:+ ")")
  end.

(** The text of a tree, joined as this module's [parenthesizationFromS]
    joins. *)
Fixpoint treeText (t : TreeNode) : string :=
  match t with
  | mkTreeNode _ _ (Some l) (Some r) =>
      "(" +:+ treeText l +:+ " " +:+ treeText r +:+ ")"
  | mkTreeNode _ lbl _ _ => lbl
  end.

Fixpoint leafLabels (t : TreeNode) : list string :=
  match t with
  | mkTreeNode _ lbl None None => [lbl]
  | mkTreeNode _ _ l r =>
      match l with Some a => leafLabels a | None => [] end
        ++ match r with Some b => leafLabels b | None => [] end
  end.

End MatrixChainMS.

(** ** Tree snapshots *)

Inductive Color : Type := RED | BLACK.

Global Instance Color_eq_dec : EqDecision Color.
Proof. solve_decision. Defined.

(** Modelled from the spec: the type [RBNode] is declared in
    core/RBTree.ts, which is not among the sources.  [RBNode | null] is the
    snapshot that a step holds and the layout code reads, with the fields
    read there: [id], [value], [color], [left], [right] and [parentId]
    ([null] for the root). *)
Inductive RBNode : Type :=
  | null
  | mkRBNode (id : Z) (value : Z) (color : Color) (left right : RBNode)
             (parentId : option Z).

Global Instance RBNode_eq_dec : EqDecision RBNode.
Proof. solve_decision. Defined.

(** [n ? n.id : null] *)
Definition idOrNull (n : RBNode) : option Z :=
  match n with
  | null => None
  | mkRBNode i _ _ _ _ _ => Some i
  end.

(** ** computeTreeLayout, the version that draws the NIL leaves *)
Module LayoutNil.

(** [value] is [NaN] for a NIL leaf, written [None]. Coordinates are
    exact rationals. *)
Record LayoutNode : Type := mkLayoutNode {
  id : Z;
  value : option Z;
  color : Color;
  x : Q;
  y : Q;
  parentId : option Z;
  leftId : option Z;
  rightId : option Z
}.

Record Edge : Type := mkEdge { from : Z; to : Z }.

Record Layout : Type := mkLayout {
  nodes : list LayoutNode;
  edges : list Edge;
  width : Q;
  height : Q
}.

Definition margin : Q := 40.

(** a NIL leaf counts as 1 *)
Fixpoint countNodes (n : RBNode) : nat :=
  match n with
  | null => 1
  | mkRBNode _ _ _ l r _ => countNodes l + countNodes r
  end.

(** [-((parentId * 10) + (isLeft ? 1 : 2))] *)
Definition nilId (parentId : Z) (isLeft : bool) : Z :=
  (- (parentId * 10 + (if isLeft then 1 else 2)))%Z.

(** The inner [traverse]; the result lists the nodes it pushes. *)
Fixpoint traverse (n : RBNode) (depth : nat) (leftBound rightBound : Q)
    (parentId : option Z) (isLeft : bool) : list LayoutNode :=
  let y := inject_Z (50 + Z.of_nat depth * 60) in
  let midX := ((leftBound + rightBound) / 2)%Q in
  match n with
  | null =>
      match parentId with
      | Some pid =>
          [mkLayoutNode (nilId pid isLeft) None BLACK midX y (Some pid)
                        None None]
      | None => []
      end
  | mkRBNode nid v c l r pid =>
      let leftCount := countNodes l in
      let rightCount := countNodes r in
      let totalCount := leftCount + rightCount in
      let splitRatio :=
        if bool_decide (0 < totalCount)
        then (inject_Z (Z.of_nat leftCount) / inject_Z (Z.of_nat totalCount))%Q
        else (1 # 2)%Q in
      let splitX := (leftBound + (rightBound - leftBound) * splitRatio)%Q in
      mkLayoutNode nid (Some v) c midX y pid (idOrNull l) (idOrNull r)
      :: traverse l (depth + 1) leftBound splitX (Some nid) true
      ++ traverse r (depth + 1) splitX rightBound (Some nid) false
  end.

(** [nodes.forEach(n => nodeMap.set(n.id, n))] *)
Definition nodeMap (nodes : list LayoutNode) : gmap Z LayoutNode :=
  foldl (λ m n, <[id n := n]> m) ∅ nodes.

(** [if (n.leftId)]: an id that is neither [null] nor [0]. *)
Definition truthy (i : option Z) : option Z :=
  match i with
  | Some z => if bool_decide (z = 0%Z) then None else Some z
  | None => None
  end.

(** One side of the second [forEach]: an edge to the child, or else to
    its NIL leaf when the map has one. *)
Definition sideEdge (nm : gmap Z LayoutNode) (n : LayoutNode)
    (childId : option Z) (isLeft : bool) : list Edge :=
  match truthy childId with
  | Some c => [mkEdge (id n) c]
  | None =>
      let nil := nilId (id n) isLeft in
      if bool_decide (is_Some (nm !! nil)) then [mkEdge (id n) nil] else []
  end.

Definition nodeEdges (nm : gmap Z LayoutNode) (n : LayoutNode) : list Edge :=
  if bool_decide (0 < id n)%Z
  then sideEdge nm n (leftId n) true ++ sideEdge nm n (rightId n) false
  else [].

Definition computeTreeLayout (root : RBNode) (width height : Q) : Layout :=
  match root with
  | null => mkLayout [] [] width height
  | _ =>
      let nodes := traverse root 0 margin (width - margin) None false in
      let nm := nodeMap nodes in
      mkLayout nodes (nodes ≫= nodeEdges nm) width height
  end.

(** The real nodes of a snapshot in the order [traverse] meets them. *)
Fixpoint preorder (n : RBNode) : list RBNode :=
  match n with
  | null => []
  | mkRBNode _ _ _ l r _ => n :: preorder l ++ preorder r
  end.

(** The two edges drawn below a node: to each child, or to the NIL leaf
    standing for a missing one. *)
Definition childOrNil (nid : Z) (child : RBNode) (isLeft : bool) : Z :=
  match child with
  | null => nilId nid isLeft
  | mkRBNode c _ _ _ _ _ => c
  end.

Definition drawnEdges (n : RBNode) : list Edge :=
  match n with
  | null => []
  | mkRBNode nid _ _ l r _ =>
      [mkEdge nid (childOrNil nid l true); mkEdge nid (childOrNil nid r false)]
  end.

(** Every id of the snapshot is positive, as the ids of real nodes are. *)
Fixpoint positiveIds (n : RBNode) : Prop :=
  match n with
  | null => True
  | mkRBNode i _ _ l r _ => (0 < i)%Z ∧ positiveIds l ∧ positiveIds r
  end.

(** [e] goes from a node of the snapshot to its left or right child. *)
Definition parentToChild (root : RBNode) (e : Edge) : Prop :=
  ∃ i v c l r pid,
    mkRBNode i v c l r pid ∈ preorder root ∧ from e = i ∧
    (idOrNull l = Some (to e) ∨ idOrNull r = Some (to e)).

End LayoutNil.

(** ** computeTreeLayout, the in-order version *)
Module LayoutPlain.

(** [TreeNode | null] *)
Inductive TreeNode : Type :=
  | null
  | mkTreeNode (id : Z) (value : Z) (color : Color) (left right : TreeNode).

Record LayoutNode : Type := mkLayoutNode {
  id : Z;
  value : Z;
  color : Color;
  x : Q;
  y : Q
}.

Record LayoutEdge : Type := mkLayoutEdge { from : Z; to : Z }.

Record TreeLayout : Type := mkTreeLayout {
  nodes : list LayoutNode;
  edges : list LayoutEdge
}.

Fixpoint getDepth (node : TreeNode) : nat :=
  match node with
  | null => 0
  | mkTreeNode _ _ _ l r => 1 + getDepth l `max` getDepth r
  end.

Fixpoint countNodes (node : TreeNode) : nat :=
  match node with
  | null => 0
  | mkTreeNode _ _ _ l r => 1 + countNodes l + countNodes r
  end.

(** What [traverse] updates: [inOrderIndex], [nodePositions], and the
    two arrays of the result. *)
Record State : Type := mkState {
  inOrderIndex : nat;
  nodePositions : gmap Z (Q * Q);
  st_nodes : list LayoutNode;
  st_edges : list LayoutEdge
}.

(** [if (child) edges.push({ from, to: child.id })] *)
Definition childEdge (from : Z) (child : TreeNode) : list LayoutEdge :=
  match child with
  | null => []
  | mkTreeNode c _ _ _ _ => [mkLayoutEdge from c]
  end.

Fixpoint traverse (horizontalSpacing verticalSpacing : Q)
    (node : TreeNode) (level : nat) (st : State) : State :=
  match node with
  | null => st
  | mkTreeNode nid v c l r =>
      let st := traverse horizontalSpacing verticalSpacing l (level + 1) st in
      let idx := inOrderIndex st + 1 in
      let x := (inject_Z (Z.of_nat idx) * horizontalSpacing)%Q in
      let y := (inject_Z (Z.of_nat (level + 1)) * verticalSpacing)%Q in
      let st :=
        mkState idx (<[nid := (x, y)]> (nodePositions st))
                (st_nodes st ++ [mkLayoutNode nid v c x y])
                (st_edges st ++ childEdge nid l ++ childEdge nid r) in
      traverse horizontalSpacing verticalSpacing r (level + 1) st
  end.

Definition computeTreeLayout (root : TreeNode) (width height : Q) : TreeLayout :=
  match root with
  | null => mkTreeLayout [] []
  | _ =>
      let depth := getDepth root in
      let verticalSpacing := (height / inject_Z (Z.of_nat (depth + 1)))%Q in
      let totalNodes := countNodes root in
      let horizontalSpacing := (width / inject_Z (Z.of_nat (totalNodes + 1)))%Q in
      let st := traverse horizontalSpacing verticalSpacing root 0
                  (mkState 0 ∅ [] []) in
      mkTreeLayout (st_nodes st) (st_edges st)
  end.

(** The nodes of a snapshot, left subtree first. *)
Fixpoint inorder (node : TreeNode) : list TreeNode :=
  match node with
  | null => []
  | mkTreeNode _ _ _ l r => inorder l ++ node :: inorder r
  end.

(** The parent-to-child pairs of one node: one per child that is not
    [null]. *)
Definition childPairs (node : TreeNode) : list LayoutEdge :=
  match node with
  | null => []
  | mkTreeNode nid _ _ l r => childEdge nid l ++ childEdge nid r
  end.

End LayoutPlain.
(** ** The matrix-chain view: layoutTree, buildPreviewSvg and
    computeStepsForDims *)
Module MatrixChainVisualizer.

(** A coordinate bound: a number, or one of the two infinities that
    [minX], [maxX], [minY] and [maxY] start from. *)
Inductive bound : Type :=
  | NegInfinity
  | Finite (z : Z)
  | Infinity.

Global Instance bound_eq_dec : EqDecision bound.
Proof. solve_decision. Defined.

(** [a < b] *)
Definition bound_ltb (a b : bound) : bool :=
  match a, b with
  | NegInfinity, NegInfinity => false
  | NegInfinity, _ => true
  | Finite x, Finite y => bool_decide (x < y)%Z
  | Finite _, Infinity => true
  | Finite _, NegInfinity => false
  | Infinity, _ => false
  end.

Record PlacedNode : Type := mkPlacedNode {
  id : nat;
  x : Z;
  y : Z;
  label : string
}.

Record Link : Type := mkLink { from : nat; to : nat }.

Record LayoutResult : Type := mkLayoutResult {
  nodes : list PlacedNode;
  edges : list Link;
  nodeRadius : Z;
  minX : bound;
  maxX : bound;
  minY : bound;
  maxY : bound
}.

(** The variables that [assign] updates. *)
Record AssignState : Type := mkAssignState {
  st_nodes : list PlacedNode;
  st_edges : list Link;
  st_minX : bound;
  st_maxX : bound;
  st_minY : bound;
  st_maxY : bound;
  cursor : nat
}.

(** [if (child) edges.push({ from: node.id, to: child.id })] *)
Definition childLink (from : nat) (child : option MatrixChain.TreeNode)
    : list Link :=
  match child with
  | Some c => [mkLink from (MatrixChain.id c)]
  | None => []
  end.

Section layout.
(** The values of [Math.floor(nodeSize * 3.2)], [Math.floor(nodeSize * 2.8)]
    and [Math.floor(nodeSize / 1.2)], which the program computes in
    floating point. *)
Variables floorX floorY floorR : Z.

Definition spacingX : Z := (80 `max` floorX)%Z.
Definition spacingY : Z := (70 `max` floorY)%Z.
Definition xOffset : Z := (spacingX `div` 2)%Z.
Definition yOffset : Z := (spacingY `div` 2)%Z.

(** [assign] on a node that is not [null]: the left subtree, then the node
    at column [cursor], then the right subtree, then the edges to the
    children. *)
Fixpoint assignNode (node : MatrixChain.TreeNode) (depth : nat)
    (st : AssignState) : AssignState :=
  let 'MatrixChain.mkTreeNode nid lbl l r := node in
  let st := match l with Some a => assignNode a (depth + 1) st | None => st end in
  let x := (Z.of_nat (cursor st) * spacingX + xOffset)%Z in
  let y := (Z.of_nat depth * spacingY + yOffset)%Z in
  let st :=
    mkAssignState
      (st_nodes st ++ [mkPlacedNode nid x y lbl])
      (st_edges st)
      (if bound_ltb (Finite x) (st_minX st) then Finite x else st_minX st)
      (if bound_ltb (st_maxX st) (Finite x) then Finite x else st_maxX st)
      (if bound_ltb (Finite y) (st_minY st) then Finite y else st_minY st)
      (if bound_ltb (st_maxY st) (Finite y) then Finite y else st_maxY st)
      (cursor st + 1) in
  let st := match r with Some b => assignNode b (depth + 1) st | None => st end in
  mkAssignState (st_nodes st)
                (st_edges st ++ childLink nid l ++ childLink nid r)
                (st_minX st) (st_maxX st) (st_minY st) (st_maxY st)
                (cursor st).

Definition assign (node : option MatrixChain.TreeNode) (depth : nat)
    (st : AssignState) : AssignState :=
  match node with Some t => assignNode t depth st | None => st end.

(** [layoutTree(root, nodeSize)].  Its first pass, [compute], only stores
    [_subWidth] on the nodes of the tree, which nothing reads; the layout
    comes from [assign] alone. *)
Definition layoutTree (root : option MatrixChain.TreeNode) : LayoutResult :=
  let st := assign root 0
              (mkAssignState [] [] Infinity NegInfinity Infinity NegInfinity 0) in
  let radius := (12 `max` floorR)%Z in
  if bool_decide (st_minX st = Infinity)
  then mkLayoutResult (st_nodes st) (st_edges st) radius
         (Finite 0) (Finite spacingX) (Finite 0) (Finite spacingY)
  else mkLayoutResult (st_nodes st) (st_edges st) radius
         (st_minX st) (st_maxX st) (st_minY st) (st_maxY st).

End layout.

(** *** buildPreviewSvg *)

(** The double quote, and the line break of [join('\n')]. *)
Definition dq : string := String (Ascii.ascii_of_nat 34) EmptyString.
Definition nl : string := String (Ascii.ascii_of_nat 10) EmptyString.

(** [lines.join(sep)] *)
Fixpoint join (sep : string) (lines : list string) : string :=
  match lines with
  | [] => EmptyString
  | [a] => a
  | a :: rest => a +:+ sep +:+ join sep rest
  end.

(** The numbers of the view box: integers, the two infinities and NaN. *)
Inductive jsnum : Type :=
  | JNum (z : Z)
  | JInfinity
  | JNegInfinity
  | JNaN.

Definition of_bound (b : bound) : jsnum :=
  match b with
  | Finite z => JNum z
  | Infinity => JInfinity
  | NegInfinity => JNegInfinity
  end.

(** [a + b] *)
Definition js_add (a b : jsnum) : jsnum :=
  match a, b with
  | JNum x, JNum y => JNum (x + y)
  | JNaN, _ | _, JNaN => JNaN
  | JInfinity, JNegInfinity | JNegInfinity, JInfinity => JNaN
  | JInfinity, _ | _, JInfinity => JInfinity
  | JNegInfinity, _ | _, JNegInfinity => JNegInfinity
  end.

(** [a - b] *)
Definition js_sub (a b : jsnum) : jsnum :=
  js_add a match b with
           | JNum y => JNum (- y)
           | JInfinity => JNegInfinity
           | JNegInfinity => JInfinity
           | JNaN => JNaN
           end.

(** [a || d]: [0] and [NaN] are falsy. *)
Definition js_or (a : jsnum) (d : Z) : jsnum :=
  match a with
  | JNum 0 | JNaN => JNum d
  | _ => a
  end.

(** [`${a}`] *)
Definition js_show (a : jsnum) : string :=
  match a with
  | JNum z => pretty z
  | JInfinity => "Infinity"
  | JNegInfinity => "-Infinity"
  | JNaN => "NaN"
  end.

(** [name="value"] *)
Definition attr (name value : string) : string :=
  name +:+ "=" +:+ dq +:+ value +:+ dq.

(** [nodes.find(n => n.id === i)] *)
Definition findNode (nodes : list PlacedNode) (i : nat) : option PlacedNode :=
  List.find (λ n, bool_decide (id n = i)) nodes.

Definition edgeLine (nodes : list PlacedNode) (e : Link) : string :=
  match findNode nodes (from e), findNode nodes (to e) with
  | Some a, Some b =>
      "<line " +:+ attr "x1" (pretty (x a)) +:+ " " +:+ attr "y1" (pretty (y a))
      +:+ " " +:+ attr "x2" (pretty (x b)) +:+ " " +:+ attr "y2" (pretty (y b))
      +:+ " " +:+ attr "stroke" "#222" +:+ " " +:+ attr "stroke-width" "2"
      +:+ "/>"
  | _, _ => EmptyString
  end.

Definition nodeGroup (radius : Z) (n : PlacedNode) : string :=
  "<g><circle " +:+ attr "cx" (pretty (x n)) +:+ " " +:+ attr "cy" (pretty (y n))
  +:+ " " +:+ attr "r" (pretty radius) +:+ " " +:+ attr "fill" "#f8fafc"
  +:+ " " +:+ attr "stroke" "#111827" +:+ " " +:+ attr "stroke-width" "1.5"
  +:+ " /><text " +:+ attr "x" (pretty (x n)) +:+ " " +:+ attr "y" (pretty (y n))
  +:+ " " +:+ attr "dy" ".35em" +:+ " " +:+ attr "text-anchor" "middle"
  +:+ " " +:+ attr "font-size" "10" +:+ ">" +:+ label n +:+ "</text></g>".

(** The view box of the preview: [vbX], [vbY], [vbW] and [vbH], with
    [pad = 8].  [Math.floor] and [Math.ceil] leave these numbers as they
    are, and the defaults of the destructuring never apply, [layoutTree]
    returning all the fields. *)
Definition previewBox (layout : LayoutResult)
    : jsnum * jsnum * jsnum * jsnum :=
  let pad := 8%Z in
  let r := JNum (nodeRadius layout) in
  let vbX := js_sub (js_sub (of_bound (minX layout)) r) (JNum pad) in
  let vbY := js_sub (js_sub (of_bound (minY layout)) r) (JNum pad) in
  let vbW :=
    js_or (js_add (js_add (js_sub (of_bound (maxX layout))
                                  (of_bound (minX layout)))
                          (JNum (nodeRadius layout * 2)))
                  (JNum (pad * 2))) 300 in
  let vbH :=
    js_or (js_add (js_add (js_sub (of_bound (maxY layout))
                                  (of_bound (minY layout)))
                          (JNum (nodeRadius layout * 2)))
                  (JNum (pad * 2))) 160 in
  (vbX, vbY, vbW, vbH).

(** [buildPreviewSvg(treeRoot)]: the layout for [nodeSize = 28], where
    [28 * 3.2], [28 * 2.8] and [28 / 1.2] round down to 89, 78 and 23. *)
Definition buildPreviewSvg (treeRoot : option MatrixChain.TreeNode) : string :=
  let layout := layoutTree 89 78 23 treeRoot in
  let '(vbX, vbY, vbW, vbH) := previewBox layout in
  let ns := "http://www.w3.org/2000/svg" in
  let edgeStr := join nl (edgeLine (nodes layout) <$> edges layout) in
  let nodeStr := join nl (nodeGroup (nodeRadius layout) <$> nodes layout) in
  "<svg " +:+ attr "xmlns" ns +:+ " "
  +:+ attr "viewBox" (js_show vbX +:+ " " +:+ js_show vbY +:+ " "
                      +:+ js_show vbW +:+ " " +:+ js_show vbH)
  +:+ " " +:+ attr "width" "100%" +:+ ">" +:+ edgeStr +:+ nodeStr +:+ "</svg>".

(** *** computeStepsForDims *)

(** A step of the explanation: the fields of [Step] that the visualizer
    fills ([treeSnapshot] is [null] and [highlightedNodeIds] is empty in
    every one). *)
Record Step : Type := mkStep {
  step_id : nat;
  step_type : string;
  description : string;
  treeSnapshot : RBNode;
  highlightedNodeIds : list Z;
  svg : option string
}.

(** [steps.push({ id: sid++, type: 'INFO', description, treeSnapshot: null,
    highlightedNodeIds: [], svg })] on the pair of [steps] and [sid]. *)
Definition pushStep (st : list Step * nat) (desc : string)
    (svg : option string) : list Step * nat :=
  (st.1 ++ [mkStep st.2 "INFO" desc null [] svg], st.2 + 1).

(** The descriptions print numbers with [`${x}`].  [show] is that
    conversion (the shortest decimal text that reads back as the same
    double, [Infinity], [NaN]); the definitions below only place its
    results in the lines.  Indices are printed digit by digit. *)
Section text.
Variable show : num → string.

(** The lines of the descriptions. *)

(** [`m[${i},${i}] = 0`] *)
Definition diagLine (i : nat) : string :=
  "m[" +:+ pretty i +:+ "," +:+ pretty i +:+ "] = 0".

(** [`Level ${L} (chain length = ${L})`] *)
Definition headLine (L : nat) : string :=
  "Level " +:+ pretty L +:+ " (chain length = " +:+ pretty L +:+ ")".

(** [`m[${i}, ${j}] = ${pv[i - 1]} * ${pv[i]} * ${pv[j]} = ${cost} (k=${i})`] *)
Definition pairLine (pv : list num) (i j : nat) (cost : num) : string :=
  "m[" +:+ pretty i +:+ ", " +:+ pretty j +:+ "] = "
  +:+ show (dim pv (i - 1)) +:+ " * "
  +:+ show (dim pv i) +:+ " * "
  +:+ show (dim pv j) +:+ " = " +:+ show cost
  +:+ " (k=" +:+ pretty i +:+ ")".

(** [`Compute m[${i}, ${j}] by trying k from ${i} to ${j - 1}`] *)
Definition tryLine (i j : nat) : string :=
  "Compute m[" +:+ pretty i +:+ ", " +:+ pretty j
  +:+ "] by trying k from " +:+ pretty i +:+ " to " +:+ pretty (j - 1).

(** [`when k = ${k}: m[${i},${k}] + m[${k + 1},${j}] +
    p[${i - 1}]*p[${k}]*p[${j}] = ${mloc[i][k]} + ${mloc[k + 1][j]} +
    ${pv[i - 1]}*${pv[k]}*${pv[j]} = ${q}`] (one line in the source) *)
Definition kLine (pv : list num) (mloc : list (list num)) (i j k : nat)
    (q : num) : string :=
  "when k = " +:+ pretty k +:+ ": m[" +:+ pretty i +:+ "," +:+ pretty k
  +:+ "] + m[" +:+ pretty (k + 1) +:+ "," +:+ pretty j
  +:+ "] + p[" +:+ pretty (i - 1) +:+ "]*p[" +:+ pretty k
  +:+ "]*p[" +:+ pretty j +:+ "] = "
  +:+ show (get2 mloc i k) +:+ " + " +:+ show (get2 mloc (k + 1) j)
  +:+ " + " +:+ show (dim pv (i - 1))
  +:+ "*" +:+ show (dim pv k)
  +:+ "*" +:+ show (dim pv j)
  +:+ " = " +:+ show q.

(** [`⇒ m[${i}, ${j}] = ${best}, k = ${bestK}`] *)
Definition bestLine (i j : nat) (best : num) (bestK : nat) : string :=
  "⇒ m[" +:+ pretty i +:+ ", " +:+ pretty j +:+ "] = " +:+ show best
  +:+ ", k = " +:+ pretty bestK.

(** The first loop: [mloc[i][i] = 0] and one line per matrix. *)
Definition level1 (st : list (list num) * list string) (i : nat)
    : list (list num) * list string :=
  (set2 st.1 i i zero, st.2 ++ [diagLine i]).

(** [q = mloc[i][k] + mloc[k + 1][j] + pv[i - 1] * pv[k] * pv[j]] *)
Definition q (pv : list num) (mloc : list (list num)) (i k j : nat) : num :=
  num_add (num_add (get2 mloc i k) (get2 mloc (k + 1) j))
          (num_mul (num_mul (dim pv (i - 1)) (dim pv k)) (dim pv j)).

(** Body of the [k] loop, on [best], [bestK] and [lines]. *)
Definition tryK (pv : list num) (mloc : list (list num)) (i j : nat)
    (st : num * nat * list string) (k : nat) : num * nat * list string :=
  let '(best, bestK, lines) := st in
  let q := q pv mloc i k j in
  let lines := lines ++ [kLine pv mloc i j k q] in
  if num_ltb q best then (q, k, lines) else (best, bestK, lines).

(** Body of the [i] loop, on [mloc], [sloc] and [lines]. *)
Definition fillCell (pv : list num) (L : nat)
    (st : list (list num) * list (list nat) * list string) (i : nat)
    : list (list num) * list (list nat) * list string :=
  let '(mloc, sloc, lines) := st in
  let j := i + L - 1 in
  if bool_decide (L = 2)
  then
    let cost := num_mul (num_mul (dim pv (i - 1)) (dim pv i)) (dim pv j) in
    (set2 mloc i j cost, set2 sloc i j i,
     lines ++ [pairLine pv i j cost])
  else
    let lines := lines ++ [tryLine i j] in
    let '(best, bestK, lines) :=
      foldl (tryK pv mloc i j) (Inf, i, lines) (seq i (j - i)) in
    (set2 mloc i j best, set2 sloc i j bestK,
     lines ++ [bestLine i j best bestK]).

(** [buildPreviewSvg(buildParenthesisTree(sloc, 1, nloc))]; [None] when
    building the tree throws. *)
Definition previewOf (fuel : nat) (sloc : list (list nat)) (nloc : nat)
    : option string :=
  t ← MatrixChain.buildParenthesisTree fuel sloc 1 nloc None;
  Some (buildPreviewSvg (Some t.1)).

(** Body of the [L] loop, on [mloc], [sloc], [steps] and [sid]: one step
    per chain length, with the preview of the tree at the last one. *)
Definition level (fuel : nat) (pv : list num) (nloc : nat)
    (st : list (list num) * list (list nat) * (list Step * nat)) (L : nat)
    : list (list num) * list (list nat) * (list Step * nat) :=
  let '(mloc, sloc, steps) := st in
  let '(mloc, sloc, lines) :=
    foldl (fillCell pv L) (mloc, sloc, [headLine L]) (seq 1 (nloc - L + 1)) in
  let svg := if bool_decide (L = nloc) then previewOf fuel sloc nloc
             else None in
  (mloc, sloc, pushStep steps (join nl lines) svg).

(** The tables [mloc] and [sloc] and the steps after the two loops. *)
Definition localTables (fuel : nat) (pv : list num)
    : list (list num) * list (list nat) * (list Step * nat) :=
  let nloc := length pv - 1 in
  let n1 := length pv in
  let mloc := filled n1 n1 zero in
  let sloc := filled n1 n1 0 in
  let '(mloc, level1Lines) := foldl level1 (mloc, []) (seq 1 nloc) in
  let steps := pushStep ([], 1) ("Level 1:" +:+ nl +:+ join nl level1Lines) None in
  foldl (level fuel pv nloc) (mloc, sloc, steps) (seq 2 (nloc - 1)).

(** [computeStepsForDims(pv)].  [nloc] is [pv.length - 1] and the tables
    have [pv.length] rows (none for an empty [pv], where [nloc] is [-1] and
    the last block throws at once); [fuel] bounds the depth of the two
    recursions over [sloc], as in [MatrixChain.build]. *)
Definition computeStepsForDims (fuel : nat) (pv : list num) : list Step :=
  let nloc := length pv - 1 in
  let '(mloc, sloc, steps) := localTables fuel pv in
  let final :=
    paren ← MatrixChain.parenthesizationFromS fuel sloc 1 nloc;
    svg ← previewOf fuel sloc nloc;
    Some (pushStep steps ("Optimal parenthesization: " +:+ paren) (Some svg)) in
  (default steps final).1.

End text.

End MatrixChainVisualizer.


(** ** The instrumented Red-Black tree engine (core/RBTree) *)

(** Modelled from the spec: core/RBTree.ts, the file that defines the class
  [RBTree] with [insert], [delete], [search], [startOperation],
  [endOperation], [getAllSteps], [getOperations] and [reset], is not among
  the sources (only its callers and the types they import are).  The
  engine below follows sections 3, 4 and 6 of the specification.

  The live tree is kept as a value.  A node's parent, grandparent, uncle
  and sibling are read off the path from the root to the node (a list of
  [Crumb]s, nearest ancestor first), so rotations and transplants are
  rewrites of the subtree below an ancestor, and replacing the root is
  the case of the empty path.  Every decision point yields an [Event]
  that carries the live tree at that instant; [record] turns it into a
  [Step] by taking the snapshot.  Where the specification leaves a detail
  open (the wording of descriptions, the highlighted ids), the choice
  made is stated at the definition. *)
Module RBTree.

(** Modelled from the spec: the Node of section 3 (core/RBTree.ts is not
    among the sources): id, key, color, left and right; [NIL] is the shared
    black sentinel.  The link to the parent is the path, see [Crumb]. *)
Inductive Node : Type :=
  | NIL
  | mkNode (id : Z) (key : Z) (color : Color) (left right : Node).

Global Instance Node_eq_dec : EqDecision Node.
Proof. solve_decision. Defined.

(** (b) NIL is BLACK. *)
Definition color (t : Node) : Color :=
  match t with
  | NIL => BLACK
  | mkNode _ _ c _ _ => c
  end.

Definition ids (t : Node) : list Z :=
  match t with
  | NIL => []
  | mkNode i _ _ _ _ => [i]
  end.

(** Recoloring; the sentinel is never recolored. *)
Definition setColor (c : Color) (t : Node) : Node :=
  match t with
  | NIL => NIL
  | mkNode i k _ l r => mkNode i k c l r
  end.

Inductive Side : Type := L | R.

Global Instance Side_eq_dec : EqDecision Side.
Proof. solve_decision. Defined.

Definition opposite (s : Side) : Side :=
  match s with L => R | R => L end.

Definition child (s : Side) (t : Node) : Node :=
  match t, s with
  | NIL, _ => NIL
  | mkNode _ _ _ l _, L => l
  | mkNode _ _ _ _ r, R => r
  end.

(** Apply [f] to the child on side [s]. *)
Definition onChild (s : Side) (f : Node → Node) (t : Node) : Node :=
  match t, s with
  | NIL, _ => NIL
  | mkNode i k c l r, L => mkNode i k c (f l) r
  | mkNode i k c l r, R => mkNode i k c l (f r)
  end.

(** Modelled from the spec: the rotations of the Node Store, section 4.1
    (core/RBTree.ts is not among the sources).  They rewire links only:
    every node keeps its id, key and color.  A rotation that lacks the
    child to lift does nothing. *)
Definition rotateLeft (t : Node) : Node :=
  match t with
  | mkNode i k c l (mkNode ri rk rc rl rr) =>
      mkNode ri rk rc (mkNode i k c l rl) rr
  | _ => t
  end.

Definition rotateRight (t : Node) : Node :=
  match t with
  | mkNode i k c (mkNode li lk lc ll lr) r =>
      mkNode li lk lc ll (mkNode i k c lr r)
  | _ => t
  end.

(** Rotation toward side [s]: left for [L], right for [R]. *)
Definition rotate (s : Side) (t : Node) : Node :=
  match s with L => rotateLeft t | R => rotateRight t end.

(** An ancestor seen from below: which of its children the path enters,
    its own fields, and its other child. *)
Record Crumb : Type := mkCrumb {
  side : Side;
  cid : Z;
  ckey : Z;
  ccolor : Color;
  sibling : Node
}.

(** Put [t] back below its parent. *)
Definition plugOne (t : Node) (c : Crumb) : Node :=
  match side c with
  | L => mkNode (cid c) (ckey c) (ccolor c) t (sibling c)
  | R => mkNode (cid c) (ckey c) (ccolor c) (sibling c) t
  end.

(** Modelled from the spec: transplant of section 4.1 (core/RBTree.ts is
    not among the sources).  The whole tree, from a subtree and the path
    above it: the subtree at the end of the path is replaced, and the
    empty path is the case of the root. *)
Definition plug (t : Node) (ctx : list Crumb) : Node :=
  foldl plugOne t ctx.

(** *** Steps and operations *)

Inductive StepKind : Type :=
  | CREATE | RECOLOR | ROTATE_LEFT | ROTATE_RIGHT | TRAVERSE
  | REMOVE | REPLACE | DONE | FOUND | NOT_FOUND.

Global Instance StepKind_eq_dec : EqDecision StepKind.
Proof. solve_decision. Defined.

Definition rotateKind (s : Side) : StepKind :=
  match s with L => ROTATE_LEFT | R => ROTATE_RIGHT end.

(** What a decision point hands to [record]: kind, description,
    highlighted ids, the node being traversed, the extra node, and the
    live tree at that instant. *)
Record Event : Type := mkEvent {
  ev_kind : StepKind;
  ev_description : string;
  ev_highlight : list Z;
  ev_traversing : option Z;
  ev_extra : Node;
  ev_tree : Node
}.

(** Modelled from the spec: the deep copy of section 3 that a step stores
    (core/RBTree.ts is not among the sources): id, key, color and children
    of every node, with the parent's id. *)
Fixpoint snapshot (t : Node) (parentId : option Z) : RBNode :=
  match t with
  | NIL => null
  | mkNode i k c l r =>
      mkRBNode i k c (snapshot l (Some i)) (snapshot r (Some i)) parentId
  end.

Record Step : Type := mkStep {
  id : nat;
  type : StepKind;
  description : string;
  treeSnapshot : RBNode;
  extraNode : RBNode;
  highlightedNodeIds : list Z;
  traversingNodeId : option Z;
  operationId : nat
}.

Record Operation : Type := mkOperation {
  op_id : nat;
  op_type : string;
  op_keys : list Z
}.

(** The state of one engine: the tree, the step log, the operations, the
    open operation if any, and the three id counters. *)
Record State : Type := mkState {
  root : Node;
  steps : list Step;
  operations : list Operation;
  currentOperation : option nat;
  nextNodeId : Z;
  nextStepId : nat;
  nextOperationId : nat
}.

(** Modelled from the spec: the initial state of section 3 and [reset()]
    of section 4.2 (core/RBTree.ts is not among the sources). *)
Definition empty : State := mkState NIL [] [] None 1 1 1.

Definition reset (st : State) : State := empty.

Definition getAllSteps (st : State) : list Step := steps st.
Definition getOperations (st : State) : list Operation := operations st.

(** Modelled from the spec: [startOperation(type, keys)] and
    [endOperation()] of section 4.2 (core/RBTree.ts is not among the
    sources): a new operation becomes the active one, replacing an open
    one. *)
Definition startOperation (ty : string) (keys : list Z) (st : State) : State :=
  mkState (root st) (steps st)
          (operations st ++ [mkOperation (nextOperationId st) ty keys])
          (Some (nextOperationId st))
          (nextNodeId st) (nextStepId st) (nextOperationId st + 1).

Definition endOperation (st : State) : State :=
  mkState (root st) (steps st) (operations st) None
          (nextNodeId st) (nextStepId st) (nextOperationId st).

(** Modelled from the spec: [record] of section 4.2 (core/RBTree.ts is not
    among the sources): open an implicit operation when none is open (the
    specification does not name its label; it is IMPLICIT here, with no
    key), snapshot the tree of the event, number the step, append it.  The
    step it returns is the last of the log. *)
Definition record (st : State) (e : Event) : State :=
  let st := match currentOperation st with
            | Some _ => st
            | None => startOperation "IMPLICIT" [] st
            end in
  let step :=
    mkStep (nextStepId st) (ev_kind e) (ev_description e)
           (snapshot (ev_tree e) None) (snapshot (ev_extra e) None)
           (ev_highlight e) (ev_traversing e)
           (default 0 (currentOperation st)) in
  mkState (ev_tree e) (steps st ++ [step]) (operations st)
          (currentOperation st) (nextNodeId st) (nextStepId st + 1)
          (nextOperationId st).

(** *** Descent *)

(** Modelled from the spec: the comparison descent of sections 4.3 to 4.5
    (core/RBTree.ts is not among the sources).
    Comparison descent for [key] below [t], whose path is [ctx]: the ids
    of the nodes compared with, in order, then the path to the place where
    the descent ends and the subtree there (the node holding [key], or
    [NIL]). *)
Fixpoint descend (key : Z) (t : Node) (ctx : list Crumb)
    : list Z * (list Crumb * Node) :=
  match t with
  | NIL => ([], (ctx, NIL))
  | mkNode i k c l r =>
      if bool_decide (key < k)%Z then
        let '(seen, res) := descend key l (mkCrumb L i k c r :: ctx) in
        (i :: seen, res)
      else if bool_decide (k < key)%Z then
        let '(seen, res) := descend key r (mkCrumb R i k c l :: ctx) in
        (i :: seen, res)
      else ([i], (ctx, t))
  end.

(** One TRAVERSE step per comparison; the tree does not change. *)
Definition traverseEvents (t : Node) (seen : list Z) : list Event :=
  (λ i, mkEvent TRAVERSE "compare" [i] (Some i) NIL t) <$> seen.

(** *** Insert *)

(** Modelled from the spec: step 3 of section 4.3, force the root BLACK,
    recorded only if the color changes (core/RBTree.ts is not among the
    sources). *)
Definition forceRootBlack (t : Node) : list Event * Node :=
  match color t with
  | RED =>
      let t' := setColor BLACK t in
      ([mkEvent RECOLOR "root BLACK" (ids t) None NIL t'], t')
  | BLACK => ([], t)
  end.

(** Modelled from the spec: the insert fixup loop of section 4.3, step 2
    (core/RBTree.ts is not among the sources), for the current node [cur]
    below the path [ctx].
    A RED parent that is the root has no grandparent; this does not
    arise between calls (the root is BLACK), and the loop stops there. *)
Fixpoint insertFixup (cur : Node) (ctx : list Crumb) : list Event * Node :=
  match ctx with
  | [] => ([], cur)
  | p :: rest =>
      match ccolor p with
      | BLACK => ([], plug cur ctx)
      | RED =>
          match rest with
          | [] => ([], plug cur ctx)
          | g :: rest' =>
              let uncle := sibling g in
              match color uncle with
              | RED =>
                  (* Case A: parent and uncle BLACK, grandparent RED *)
                  let p' := mkCrumb (side p) (cid p) (ckey p) BLACK
                                    (sibling p) in
                  let g' := mkCrumb (side g) (cid g) (ckey g) RED
                                    (setColor BLACK uncle) in
                  let cur' := plugOne (plugOne cur p') g' in
                  let ev := mkEvent RECOLOR "recolor: uncle RED"
                              [cid p; cid g] None NIL (plug cur' rest') in
                  let '(evs, t) := insertFixup cur' rest' in
                  (ev :: evs, t)
              | BLACK =>
                  let G0 := plugOne (plugOne cur p) g in
                  (* Case B: inner child, rotate the parent *)
                  let '(evB, G1) :=
                    if bool_decide (side p = side g) then ([], G0)
                    else
                      let G1 := onChild (side g) (rotate (side g)) G0 in
                      ([mkEvent (rotateKind (side g)) "rotate parent"
                          [cid p] None NIL (plug G1 rest')], G1) in
                  (* Case C: parent BLACK, grandparent RED, rotate the
                     grandparent away from the parent's side *)
                  let G2 := setColor RED
                              (onChild (side g) (setColor BLACK) G1) in
                  let evC1 := mkEvent RECOLOR "recolor: uncle BLACK"
                                (ids (child (side g) G1) ++ [cid g]) None NIL
                                (plug G2 rest') in
                  let G3 := rotate (opposite (side g)) G2 in
                  let evC2 := mkEvent (rotateKind (opposite (side g)))
                                "rotate grandparent" [cid g] None NIL
                                (plug G3 rest') in
                  (evB ++ [evC1; evC2], plug G3 rest')
              end
          end
      end
  end.

(** Modelled from the spec: section 4.3 (core/RBTree.ts is not among the
    sources).  The engine of [insert]: events, the new tree, and whether a
    node was created.  The node is created once the descent has reached
    NIL: a first CREATE step shows it beside the tree, as the extra node,
    a second one shows it attached.  A key already present records a FOUND
    step and changes nothing. *)
Definition insertCore (key : Z) (t : Node) (newId : Z)
    : list Event * Node * bool :=
  let '(seen, (ctx, at_)) := descend key t [] in
  match at_ with
  | mkNode i _ _ _ _ =>
      (traverseEvents t seen
         ++ [mkEvent FOUND "already present" [i] None NIL t], t, false)
  | NIL =>
      let z := mkNode newId key RED NIL NIL in
      let created := mkEvent CREATE "created" [] None z t in
      let t1 := plug z ctx in
      let attached :=
        mkEvent CREATE
          (match ctx with
           | [] => "inserted as ROOT (temporary RED)"
           | _ => "inserted"
           end) [newId] None NIL t1 in
      let '(evFix, t2) := insertFixup z ctx in
      let '(evRoot, t3) := forceRootBlack t2 in
      (traverseEvents t seen ++ [created; attached] ++ evFix ++ evRoot,
       t3, true)
  end.

(** *** Delete *)

(** Modelled from the spec: the minimum of a subtree, section 4.1
    (core/RBTree.ts is not among the sources): the path to it and the
    node. *)
Fixpoint minimum (t : Node) (ctx : list Crumb) : list Crumb * Node :=
  match t with
  | NIL => (ctx, NIL)
  | mkNode i k c l r =>
      match l with
      | NIL => (ctx, t)
      | mkNode _ _ _ _ _ => minimum l (mkCrumb L i k c r :: ctx)
      end
  end.

(** Modelled from the spec: step 4 of section 4.4, color [x] BLACK at loop
    exit, recorded only if the color changes (core/RBTree.ts is not among
    the sources); the result is the whole tree. *)
Definition blacken (x : Node) (ctx : list Crumb) : list Event * Node :=
  match color x with
  | RED =>
      let t := plug (setColor BLACK x) ctx in
      ([mkEvent RECOLOR "x BLACK" (ids x) None NIL t], t)
  | BLACK => ([], plug x ctx)
  end.

(** What the cases with a BLACK sibling leave: the loop goes on at the
    parent (Case 2), or the tree is finished (Case 4). *)
Inductive Outcome : Type :=
  | MoveUp (x : Node)
  | Finished (t : Node).

(** Modelled from the spec: cases 2, 3 and 4 of section 4.4
    (core/RBTree.ts is not among the sources), for [x] below the parent
    [p], whose sibling is BLACK (a NIL sibling counts as BLACK with BLACK
    children and is not recolored); [rest] is the path above the parent.
    The near child of the sibling is the one on [x]'s side. *)
Definition blackSiblingCases (x : Node) (p : Crumb) (rest : list Crumb)
    : list Event * Outcome :=
  let s := side p in
  let w := sibling p in
  match color (child s w), color (child (opposite s) w) with
  | BLACK, BLACK =>
      (* Case 2: recolor the sibling RED, move up *)
      let x' := plugOne x (mkCrumb s (cid p) (ckey p) (ccolor p)
                                   (setColor RED w)) in
      ([mkEvent RECOLOR "recolor: sibling BLACK, nephews BLACK" (ids w)
          None NIL (plug x' rest)], MoveUp x')
  | _, far =>
      (* Case 3 (far child BLACK): recolor the near child BLACK and the
         sibling RED, rotate the sibling away from x *)
      let '(ev3, w) :=
        match far with
        | RED => ([], w)
        | BLACK =>
            let w1 := setColor RED (onChild s (setColor BLACK) w) in
            let w2 := rotate (opposite s) w1 in
            let at_ (v : Node) :=
              plug (plugOne x (mkCrumb s (cid p) (ckey p) (ccolor p) v)) rest in
            ([mkEvent RECOLOR "recolor: near nephew RED"
                (ids (child s w) ++ ids w) None NIL (at_ w1);
              mkEvent (rotateKind (opposite s)) "rotate sibling"
                (ids w) None NIL (at_ w2)], w2)
        end in
      (* Case 4: sibling takes the parent's color, parent and far child
         BLACK, rotate the parent toward x *)
      let w' := setColor (ccolor p) (onChild (opposite s) (setColor BLACK) w) in
      let P1 := plugOne x (mkCrumb s (cid p) (ckey p) BLACK w') in
      let P2 := rotate s P1 in
      (ev3 ++
       [mkEvent RECOLOR "recolor: far nephew RED"
          (ids w ++ [cid p] ++ ids (child (opposite s) w)) None NIL
          (plug P1 rest);
        mkEvent (rotateKind s) "rotate parent" [cid p] None NIL
          (plug P2 rest)],
       Finished (plug P2 rest))
  end.

(** After Case 4 [x] is the root. *)
Definition finish (evs : list Event) (o : Outcome)
    (continue : Node → list Event * Node) : list Event * Node :=
  match o with
  | MoveUp x' => let '(evs', t) := continue x' in (evs ++ evs', t)
  | Finished t => let '(evs', t') := blacken t [] in (evs ++ evs', t')
  end.

(** Modelled from the spec: the delete fixup of section 4.4, step 3
    (core/RBTree.ts is not among the sources), for [x] below [ctx]: while
    [x] is not the root and is BLACK.  After Case 1 the parent is RED, so
    when Case 2 then moves [x] up to it the loop stops. *)
Fixpoint deleteFixup (x : Node) (ctx : list Crumb) : list Event * Node :=
  match ctx with
  | [] => blacken x []
  | p :: rest =>
      match color x with
      | RED => blacken x ctx
      | BLACK =>
          let s := side p in
          let w := sibling p in
          match w with
          | mkNode wi wk RED _ _ =>
              (* Case 1: recolor the sibling BLACK and the parent RED,
                 rotate the parent toward x *)
              let P1 := plugOne x (mkCrumb s (cid p) (ckey p) RED
                                           (setColor BLACK w)) in
              let pR := mkCrumb s (cid p) (ckey p) RED (child s w) in
              let wB := mkCrumb s wi wk BLACK (child (opposite s) w) in
              let ev1 :=
                [mkEvent RECOLOR "recolor: sibling RED" [wi; cid p]
                   None NIL (plug P1 rest);
                 mkEvent (rotateKind s) "rotate parent" [cid p] None NIL
                   (plug x (pR :: wB :: rest))] in
              let '(evs, o) := blackSiblingCases x pR (wB :: rest) in
              finish (ev1 ++ evs) o (λ x', blacken x' (wB :: rest))
          | _ =>
              let '(evs, o) := blackSiblingCases x p rest in
              finish evs o (λ x', deleteFixup x' rest)
          end
      end
  end.

(** Modelled from the spec: section 4.4 (core/RBTree.ts is not among the
    sources).  The engine of [delete].  With two children the successor's
    key is copied into the node (REPLACE) and the successor is spliced
    out; of the two strategies the specification allows, this is the one
    chosen. *)
Definition deleteCore (key : Z) (t : Node) : list Event * Node :=
  let '(seen, (ctx, at_)) := descend key t [] in
  match at_ with
  | NIL =>
      (traverseEvents t seen
         ++ [mkEvent NOT_FOUND "not found" [] None NIL t], t)
  | mkNode zi zk zc zl zr =>
      let '(evs, x, ctxx, removed) :=
        match zl, zr with
        | NIL, _ =>
            ([mkEvent REMOVE "remove" [zi] None NIL (plug zr ctx)],
             zr, ctx, zc)
        | _, NIL =>
            ([mkEvent REMOVE "remove" [zi] None NIL (plug zl ctx)],
             zl, ctx, zc)
        | _, _ =>
            let '(ctxy, y) := minimum zr [] in
            match y with
            | mkNode yi yk yc _ yr =>
                let ctxx := ctxy ++ mkCrumb R zi yk zc zl :: ctx in
                ([mkEvent REPLACE "replace key by successor" [zi; yi]
                    None NIL (plug y ctxx);
                  mkEvent REMOVE "remove successor" [yi] None NIL
                    (plug yr ctxx)],
                 yr, ctxx, yc)
            | NIL => ([], at_, ctx, RED)
            end
        end in
      let '(evFix, t') :=
        match removed with
        | BLACK => deleteFixup x ctxx
        | RED => ([], plug x ctxx)
        end in
      (traverseEvents t seen ++ evs ++ evFix, t')
  end.

(** Modelled from the spec: section 4.5 (core/RBTree.ts is not among the
    sources).  The engine of [search]. *)
Definition searchCore (key : Z) (t : Node) : list Event :=
  let '(seen, (_, at_)) := descend key t [] in
  traverseEvents t seen ++
  [match at_ with
   | mkNode i _ _ _ _ => mkEvent FOUND "found" [i] (Some i) NIL t
   | NIL => mkEvent NOT_FOUND "not found" [] None NIL t
   end].

(** *** The facade *)

(** Modelled from the spec: the Tree Facade of sections 2 and 6
    (core/RBTree.ts is not among the sources).  A facade call opens its own
    operation unless one is open, and closes the one it opened. *)
Definition enter (ty : string) (key : Z) (st : State) : State :=
  match currentOperation st with
  | Some _ => st
  | None => startOperation ty [key] st
  end.

Definition leave (before st : State) : State :=
  match currentOperation before with
  | Some _ => st
  | None => endOperation st
  end.

Definition setTree (t : Node) (nodeId : Z) (st : State) : State :=
  mkState t (steps st) (operations st) (currentOperation st)
          nodeId (nextStepId st) (nextOperationId st).

(** The steps appended since [before]. *)
Definition newSteps (before st : State) : list Step :=
  drop (length (steps before)) (steps st).

(** Modelled from the spec: [insert(key)], [delete(key)] and [search(key)]
    of section 6 (core/RBTree.ts is not among the sources): run the engine,
    record its events, return the new steps. *)
Definition insert (key : Z) (st : State) : list Step * State :=
  let st1 := enter "INSERT" key st in
  let '(evs, t, created) := insertCore key (root st1) (nextNodeId st1) in
  let st2 := foldl record st1 evs in
  let st3 := setTree t (if created then nextNodeId st2 + 1 else nextNodeId st2)%Z
                     st2 in
  let st4 := leave st st3 in
  (newSteps st st4, st4).

Definition delete (key : Z) (st : State) : list Step * State :=
  let st1 := enter "DELETE" key st in
  let '(evs, t) := deleteCore key (root st1) in
  let st2 := foldl record st1 evs in
  let st3 := setTree t (nextNodeId st2) st2 in
  let st4 := leave st st3 in
  (newSteps st st4, st4).

Definition search (key : Z) (st : State) : list Step * State :=
  let st1 := enter "SEARCH" key st in
  let evs := searchCore key (root st1) in
  let t := root st1 in
  let st2 := foldl record st1 evs in
  let st3 := setTree t (nextNodeId st2) st2 in
  let st4 := leave st st3 in
  (newSteps st st4, st4).

(** Insert the keys in order. *)
Definition insertAll (keys : list Z) (st : State) : State :=
  foldl (λ st k, (insert k st).2) st keys.

(** *** The Red-Black invariants *)

(** In-order key sequence. *)
Fixpoint keys (t : Node) : list Z :=
  match t with
  | NIL => []
  | mkNode _ k _ l r => keys l ++ k :: keys r
  end.

(** (e) strictly increasing *)
Fixpoint increasing (l : list Z) : bool :=
  match l with
  | [] => true
  | a :: l' =>
      match l' with
      | [] => true
      | b :: _ => bool_decide (a < b)%Z && increasing l'
      end
  end.

(** (a) the root is BLACK or the tree is empty *)
Definition rootBlack (t : Node) : bool :=
  bool_decide (color t = BLACK).

(** (c) no RED node has a RED child *)
Fixpoint noRedRed (t : Node) : bool :=
  match t with
  | NIL => true
  | mkNode _ _ c l r =>
      match c with
      | RED => bool_decide (color l = BLACK) && bool_decide (color r = BLACK)
      | BLACK => true
      end && noRedRed l && noRedRed r
  end.

(** Number of BLACK nodes on the leftmost path to NIL, the node itself
    included. *)
Fixpoint blackHeight (t : Node) : nat :=
  match t with
  | NIL => 0
  | mkNode _ _ c l _ =>
      blackHeight l + match c with BLACK => 1 | RED => 0 end
  end.

(** At every node both subtrees have the same black count: the executable
    form of (d). *)
Fixpoint balanced (t : Node) : bool :=
  match t with
  | NIL => true
  | mkNode _ _ _ l r =>
      bool_decide (blackHeight l = blackHeight r) && balanced l && balanced r
  end.

(** The number of BLACK nodes on each path from [t] down to NIL, [t]
    included. *)
Fixpoint pathBlacks (t : Node) : list nat :=
  match t with
  | NIL => [0]
  | mkNode _ _ c l r =>
      (λ n, n + match c with BLACK => 1 | RED => 0 end)
        <$> (pathBlacks l ++ pathBlacks r)
  end.

(** [t] and every node below it, NIL included. *)
Fixpoint subtrees (t : Node) : list Node :=
  t :: match t with
       | NIL => []
       | mkNode _ _ _ l r => subtrees l ++ subtrees r
       end.

(** (d) every path from a node to a descendant NIL has the same number of
    BLACK nodes *)
Definition equalPaths (t : Node) : Prop :=
  ∀ u, u ∈ subtrees t →
  ∀ a b, a ∈ pathBlacks u → b ∈ pathBlacks u → a = b.

(** The five invariants (a) to (e). *)
Definition invariants (t : Node) : Prop :=
  rootBlack t ∧ color NIL = BLACK ∧ noRedRed t ∧ equalPaths t
  ∧ increasing (keys t).

Definition size (t : Node) : nat := length (keys t).

(** The kinds of the steps of a list that are rotations. *)
Definition rotations (l : list Step) : list StepKind :=
  filter (λ k, k = ROTATE_LEFT ∨ k = ROTATE_RIGHT) (type <$> l).

End RBTree.

(** ** The order of the doubles *)

(** The place of a number in the order that [<] tests: the class
    ([-Infinity], negative, zero, positive, [Infinity]), then exponent and
    mantissa.  [NaN] has no place. *)
Definition rank (x : num) : option (Z * Z * Z) :=
  match x with
  | S754_nan => None
  | S754_infinity true => Some (-2, 0, 0)
  | S754_finite true m e => Some (-1, - e, Zneg m)
  | S754_zero _ => Some (0, 0, 0)
  | S754_finite false m e => Some (1, e, Zpos m)
  | S754_infinity false => Some (2, 0, 0)
  end%Z.

Definition lex_lt (a b : Z * Z * Z) : Prop :=
  (a.1.1 < b.1.1 ∨
   (a.1.1 = b.1.1 ∧ (a.1.2 < b.1.2 ∨ (a.1.2 = b.1.2 ∧ a.2 < b.2))))%Z.

(** A number that is neither negative nor [-0] nor [NaN]. *)
Definition nonneg (x : num) : Prop :=
  match x with
  | S754_zero false | S754_infinity false | S754_finite false _ _ => True
  | _ => False
  end.

Global Instance nonneg_dec x : Decision (nonneg x).
Proof. destruct x as [[]|[]| |[] ? ?]; simpl; apply _. Defined.

(** [x] is [NaN] or has sign [s]. *)
Definition signed (s : bool) (x : num) : Prop :=
  match x with
  | S754_zero s' | S754_infinity s' | S754_finite s' _ _ => s' = s
  | S754_nan => True
  end.

(** The double of a positive whole number below [2^53]: its digits,
    followed by zeros up to 53 digits. *)
Definition canon (m : positive) : num :=
  let d := Z.pos (digits2_pos m) in
  S754_finite false (Pos.shiftl m (Z.to_N (53 - d)%Z)) (d - 53)%Z.


(** ** Loop invariants of [matrixChainOrder] *)

(** Cell [(i, j)] has been filled when the [l] loop is at [L] and the [i]
    loop at [c]. *)
Definition filled_cell (L c i j : nat) : Prop :=
  j - i + 1 < L ∨ (j - i + 1 = L ∧ i < c).

(** Every split before [s[i][j]] has a cost that is [NaN] or strictly more
    than [m[i][j]]. *)
Definition first_split (p : list num) (m : list (list num))
    (s : list (list nat)) (i j : nat) : Prop :=
  ∀ k, i ≤ k → k < get2 s i j →
    splitCost p m i k j = NaN ∨
    num_ltb (get2 m i j) (splitCost p m i k j) = true.

(** Cell [(i, j)] after its [k] loop. *)
Definition cell_done (p : list num) (m : list (list num))
    (s : list (list nat)) (i j : nat) : Prop :=
  (optimal_split p m s i j ∧ num_ltb (get2 m i j) Inf = true ∧
   first_split p m s i j) ∨
  no_split p m s i j.

(** Outside [1 <= i < j <= n] both tables hold 0. *)
Definition untouched (n : nat) (m : list (list num)) (s : list (list nat))
    : Prop :=
  ∀ i j, ¬ (1 ≤ i ∧ i < j ∧ j ≤ n) → get2 m i j = zero ∧ get2 s i j = 0.

(** The loop invariant: the cells filled so far are done, the others hold
    the 0 of the initial tables. *)
Definition Inv (p : list num) (L c : nat)
    (ms : list (list num) * list (list nat)) : Prop :=
  let N := length p in
  dims N N ms.1 ∧ dims N N ms.2 ∧
  (∀ i j, ¬ (1 ≤ i < j ∧ j < N ∧ filled_cell L c i j) →
     get2 ms.1 i j = zero ∧ get2 ms.2 i j = 0) ∧
  (∀ i j, 1 ≤ i < j → j < N → filled_cell L c i j →
     cell_done p ms.1 ms.2 i j).

(** No entry above the diagonal is [Infinity]: no cell was left without a
    split. *)
Definition belowInfinity (n : nat) (m : list (list num)) : Prop :=
  ∀ i j, 1 ≤ i → i < j → j ≤ n → get2 m i j ≠ Inf.

(** ** Paths in a Red-Black tree *)

(** The keys to the left and to the right of the subtree at the end of a
    path, so that the in-order keys of [plug t ctx] are
    [keysBefore ctx ++ keys t ++ keysAfter ctx]. *)
Fixpoint keysBefore (ctx : list RBTree.Crumb) : list Z :=
  match ctx with
  | [] => []
  | c :: rest =>
      match RBTree.side c with
      | RBTree.L => keysBefore rest
      | RBTree.R =>
          keysBefore rest ++ RBTree.keys (RBTree.sibling c) ++ [RBTree.ckey c]
      end
  end.

Fixpoint keysAfter (ctx : list RBTree.Crumb) : list Z :=
  match ctx with
  | [] => []
  | c :: rest =>
      match RBTree.side c with
      | RBTree.L =>
          RBTree.ckey c :: RBTree.keys (RBTree.sibling c) ++ keysAfter rest
      | RBTree.R => keysAfter rest
      end
  end.

(** The nearest ancestor, if any, is BLACK. *)
Definition headBlack (ctx : list RBTree.Crumb) : Prop :=
  match ctx with
  | [] => True
  | c :: _ => RBTree.ccolor c = BLACK
  end.

(** The root, if the path has one, is BLACK. *)
Definition ctxRootBlack (ctx : list RBTree.Crumb) : Prop :=
  match last ctx with
  | Some c => RBTree.ccolor c = BLACK
  | None => True
  end.

(** No RED ancestor has a RED child, the child on the path aside. *)
Fixpoint ctxNoRedRed (ctx : list RBTree.Crumb) : Prop :=
  match ctx with
  | [] => True
  | c :: rest =>
      RBTree.noRedRed (RBTree.sibling c) ∧
      (RBTree.ccolor c = RED →
         RBTree.color (RBTree.sibling c) = BLACK ∧ headBlack rest) ∧
      ctxNoRedRed rest
  end.

(** Every ancestor is balanced when the subtree on the path has black
    count [h]. *)
Fixpoint ctxBalanced (h : nat) (ctx : list RBTree.Crumb) : Prop :=
  match ctx with
  | [] => True
  | c :: rest =>
      RBTree.blackHeight (RBTree.sibling c) = h ∧
      RBTree.balanced (RBTree.sibling c) ∧
      ctxBalanced (h + match RBTree.ccolor c with BLACK => 1 | RED => 0 end)
                  rest
  end.

(** A subtree and its path that make up a Red-Black tree. *)
Definition zipperOk (t : RBTree.Node) (ctx : list RBTree.Crumb) : Prop :=
  RBTree.noRedRed t ∧ RBTree.balanced t ∧
  ctxNoRedRed ctx ∧ ctxBalanced (RBTree.blackHeight t) ctx ∧
  (RBTree.color t = RED → headBlack ctx) ∧
  ctxRootBlack ctx.

(** ** Mutations of the live tree *)

Inductive Mutation : Type :=
  | Insert (key : Z)
  | Delete (key : Z).

Definition mutate (st : RBTree.State) (mu : Mutation) : RBTree.State :=
  match mu with
  | Insert k => (RBTree.insert k st).2
  | Delete k => (RBTree.delete k st).2
  end.

Definition mutateAll (mus : list Mutation) (st : RBTree.State) : RBTree.State :=
  foldl mutate st mus.

(** A step records an event: kind, description and the two deep copies. *)
Definition records (s : RBTree.Step) (e : RBTree.Event) : Prop :=
  RBTree.type s = RBTree.ev_kind e ∧
  RBTree.description s = RBTree.ev_description e ∧
  RBTree.treeSnapshot s = RBTree.snapshot (RBTree.ev_tree e) None ∧
  RBTree.extraNode s = RBTree.snapshot (RBTree.ev_extra e) None.

(** The states of an engine: a fresh one, and whatever the public
    operations make of a state. *)
Inductive reachable : RBTree.State → Prop :=
  | reachable_empty : reachable RBTree.empty
  | reachable_insert k st :
      reachable st → reachable (RBTree.insert k st).2
  | reachable_delete k st :
      reachable st → reachable (RBTree.delete k st).2
  | reachable_search k st :
      reachable st → reachable (RBTree.search k st).2
  | reachable_start ty ks st :
      reachable st → reachable (RBTree.startOperation ty ks st)
  | reachable_end st :
      reachable st → reachable (RBTree.endOperation st)
  | reachable_reset st :
      reachable st → reachable (RBTree.reset st).

(** ** The node objects of the engine *)

(** Modelled from the spec: sections 3, 4.2 and 9 (core/RBTree.ts is not
    among the sources).  The engine keeps its nodes as objects that the
    operations change in place, and a step holds a reference to the root
    of its snapshot.  This module adds the objects to the engine above:
    the live nodes are the objects of an arena addressed by node id, the
    objects made for snapshots are numbered in the order of their
    creation, and a child field holds a reference (or nothing, for NIL).
    Whether a snapshot shows the tree of its step after the live tree has
    changed depends on which objects the reference of the step reaches. *)
Module NodeStore.

(** A reference to an object: the live node with this id, or the [n]-th
    object created for a snapshot. *)
Inductive Ref : Type :=
  | Live (id : Z)
  | Copy (n : nat).

Global Instance Ref_eq_dec : EqDecision Ref.
Proof. solve_decision. Defined.

(** A node object. *)
Record Obj : Type := mkObj {
  o_id : Z;
  o_key : Z;
  o_color : Color;
  o_left : option Ref;
  o_right : option Ref;
  o_parentId : option Z
}.

Definition Heap : Type := Ref → option Obj.

(** [h[a] = o] *)
Definition store (h : Heap) (a : Ref) (o : Obj) : Heap :=
  λ b, if decide (b = a) then Some o else h b.

Definition liveRef (t : RBTree.Node) : option Ref :=
  match t with
  | RBTree.NIL => None
  | RBTree.mkNode i _ _ _ _ => Some (Live i)
  end.

(** The live objects once the engine has brought the tree to [t]: every
    node of [t] is the object of its id, with its fields and the
    references to its children. *)
Fixpoint writeLive (t : RBTree.Node) (parentId : option Z) (h : Heap) : Heap :=
  match t with
  | RBTree.NIL => h
  | RBTree.mkNode i k c l r =>
      store (writeLive r (Some i) (writeLive l (Some i) h)) (Live i)
            (mkObj i k c (liveRef l) (liveRef r) parentId)
  end.

(** The deep copy of [record]: a new object for every node of [t], the
    children first; the copy of a node refers to the copies of its
    children.  [n] is the number of the next new object. *)
Fixpoint copyTree (t : RBTree.Node) (parentId : option Z) (h : Heap) (n : nat)
    : option Ref * Heap * nat :=
  match t with
  | RBTree.NIL => (None, h, n)
  | RBTree.mkNode i k c l r =>
      let '(la, h1, n1) := copyTree l (Some i) h n in
      let '(ra, h2, n2) := copyTree r (Some i) h1 n1 in
      (Some (Copy n2), store h2 (Copy n2) (mkObj i k c la ra parentId), S n2)
  end.

(** The tree that a reference shows: the objects reached from it, down to
    [fuel] levels. *)
Fixpoint readTree (fuel : nat) (h : Heap) (a : option Ref) : option RBNode :=
  match a with
  | None => Some null
  | Some x =>
      match fuel with
      | 0 => None
      | S fuel =>
          o ← h x;
          l ← readTree fuel h (o_left o);
          r ← readTree fuel h (o_right o);
          Some (mkRBNode (o_id o) (o_key o) (o_color o) l r (o_parentId o))
      end
  end.

Fixpoint depth (s : RBNode) : nat :=
  match s with
  | null => 0
  | mkRBNode _ _ _ l r _ => 1 + depth l `max` depth r
  end.

Fixpoint size (t : RBTree.Node) : nat :=
  match t with
  | RBTree.NIL => 0
  | RBTree.mkNode _ _ _ l r => size l + size r + 1
  end.

(** The objects, the number of the next snapshot object, and the reference
    that each step of the log holds. *)
Record Store : Type := mkStore {
  heap : Heap;
  nextCopy : nat;
  snapshotRefs : list (option Ref)
}.

(** What [record] does to the objects: the live objects are at the tree of
    the event, and the new step gets a deep copy of it. *)
Definition recordObjects (σ : Store) (e : RBTree.Event) : Store :=
  let h := writeLive (RBTree.ev_tree e) None (heap σ) in
  let '(a, h', n') := copyTree (RBTree.ev_tree e) None h (nextCopy σ) in
  mkStore h' n' (snapshotRefs σ ++ [a]).

(** The live objects at the tree that a call leaves. *)
Definition settle (t : RBTree.Node) (σ : Store) : Store :=
  mkStore (writeLive t None (heap σ)) (nextCopy σ) (snapshotRefs σ).

(** The engine with its objects. *)
Record State : Type := mkState {
  engine : RBTree.State;
  objects : Store
}.

Definition empty : State :=
  mkState RBTree.empty (mkStore (λ _, None) 0 []).

Definition insert (key : Z) (st : State) : State :=
  let st1 := RBTree.enter "INSERT" key (engine st) in
  let '(evs, t, _) :=
    RBTree.insertCore key (RBTree.root st1) (RBTree.nextNodeId st1) in
  mkState (RBTree.insert key (engine st)).2
          (settle t (foldl recordObjects (objects st) evs)).

Definition delete (key : Z) (st : State) : State :=
  let st1 := RBTree.enter "DELETE" key (engine st) in
  let '(evs, t) := RBTree.deleteCore key (RBTree.root st1) in
  mkState (RBTree.delete key (engine st)).2
          (settle t (foldl recordObjects (objects st) evs)).

Definition search (key : Z) (st : State) : State :=
  let st1 := RBTree.enter "SEARCH" key (engine st) in
  let evs := RBTree.searchCore key (RBTree.root st1) in
  mkState (RBTree.search key (engine st)).2
          (settle (RBTree.root st1) (foldl recordObjects (objects st) evs)).

Definition mutate (st : State) (mu : Mutation) : State :=
  match mu with
  | Insert k => insert k st
  | Delete k => delete k st
  end.

Definition mutateAll (mus : list Mutation) (st : State) : State :=
  foldl mutate st mus.

(** The states of an engine with its objects. *)
Inductive reachable : State → Prop :=
  | reachable_empty : reachable empty
  | reachable_insert k st : reachable st → reachable (insert k st)
  | reachable_delete k st : reachable st → reachable (delete k st)
  | reachable_search k st : reachable st → reachable (search k st).

(** The tree that step [i] of the log shows: read from the objects,
    through the reference of the step. *)
Definition readSnapshot (st : State) (i : nat) : option RBNode :=
  a ← snapshotRefs (objects st) !! i;
  readTree (nextCopy (objects st)) (heap (objects st)) a.

(** The references of the log reach objects that show the snapshots of
    the steps, whatever the other objects hold. *)
Definition consistent (steps : list RBTree.Step) (σ : Store) : Prop :=
  length (snapshotRefs σ) = length steps ∧
  ∀ i a s, snapshotRefs σ !! i = Some a → steps !! i = Some s →
    depth (RBTree.treeSnapshot s) ≤ nextCopy σ ∧
    ∀ h', (∀ k, k < nextCopy σ → h' (Copy k) = heap σ (Copy k)) →
      readTree (depth (RBTree.treeSnapshot s)) h' a
      = Some (RBTree.treeSnapshot s).

(** Later objects: the log of references grows, and no object made for a
    snapshot changes. *)
Definition extends (σ σ' : Store) : Prop :=
  snapshotRefs σ `prefix_of` snapshotRefs σ' ∧
  nextCopy σ ≤ nextCopy σ' ∧
  ∀ k, k < nextCopy σ → heap σ' (Copy k) = heap σ (Copy k).

End NodeStore.

(** ** Operations that fail fast *)

(** Modelled from the spec: section 7 (core/RBTree.ts is not among the
    sources).  The conditions (a) invalid input, (b) not found and (c)
    duplicate insert are outcomes; the only failure of a public operation
    is (d), a violated invariant, on which the engine fails fast.  An
    operation is modelled with both ends: it returns its steps and the new
    state, or it throws, when the tree it leaves breaks one of the
    invariants (a) to (e). *)
Module Checked.

Inductive Outcome (A : Type) : Type :=
  | Returned (a : A)
  | Thrown.

Global Arguments Returned {A} a.
Global Arguments Thrown {A}.

(** The check of the five invariants. *)
Definition holds (t : RBTree.Node) : bool :=
  RBTree.rootBlack t && bool_decide (RBTree.color RBTree.NIL = BLACK)
  && RBTree.noRedRed t && RBTree.balanced t
  && RBTree.increasing (RBTree.keys t).

Definition assertInvariants (r : list RBTree.Step * RBTree.State)
    : Outcome (list RBTree.Step * RBTree.State) :=
  if holds (RBTree.root r.2) then Returned r else Thrown.

Definition insert (key : Z) (st : RBTree.State) :=
  assertInvariants (RBTree.insert key st).

Definition delete (key : Z) (st : RBTree.State) :=
  assertInvariants (RBTree.delete key st).

Definition search (key : Z) (st : RBTree.State) :=
  assertInvariants (RBTree.search key st).



End Checked.

(** ** Parenthesizations of a matrix chain *)

(** A full parenthesization: a single matrix [A_i], or the product of two
    parenthesized sub-chains. *)
Inductive Paren : Type :=
  | PLeaf (i : nat)
  | PSplit (l r : Paren).

(** Index of the first and of the last matrix. *)
Fixpoint firstOf (T : Paren) : nat :=
  match T with
  | PLeaf i => i
  | PSplit l _ => firstOf l
  end.

Fixpoint lastOf (T : Paren) : nat :=
  match T with
  | PLeaf i => i
  | PSplit _ r => lastOf r
  end.

(** The right factor starts where the left one ends. *)
Fixpoint contiguous (T : Paren) : Prop :=
  match T with
  | PLeaf _ => True
  | PSplit l r =>
      contiguous l ∧ contiguous r ∧ firstOf r = lastOf l + 1
  end.

(** Number of scalar multiplications, matrix [A_i] being [p[i-1]] by
    [p[i]], added up in doubles in the order of the parenthesization: the
    cost of the left factor, plus that of the right factor, plus the
    product of the three dimensions. *)
Fixpoint parenCost (p : list num) (T : Paren) : num :=
  match T with
  | PLeaf _ => zero
  | PSplit l r =>
      num_add (num_add (parenCost p l) (parenCost p r))
              (num_mul (num_mul (dim p (firstOf l - 1)) (dim p (lastOf l)))
                       (dim p (lastOf r)))
  end.

(** The same count in whole numbers, for dimensions [pz]: the number of
    scalar multiplications that the parenthesization needs. *)
Fixpoint parenCount (pz : list Z) (T : Paren) : Z :=
  match T with
  | PLeaf _ => 0
  | PSplit l r =>
      parenCount pz l + parenCount pz r
      + (pz !!! (firstOf l - 1)) * (pz !!! lastOf l) * (pz !!! lastOf r)
  end.

(** Dimensions that are whole numbers from 0 to [M], few and small enough
    for every cost of the chain to stay below [2^53]: a product of three
    dimensions is at most [M^3], and a chain of [n] matrices needs fewer
    than [n] of them. *)
Definition wholeDims (M : Z) (pz : list Z) : Prop :=
  Forall (λ d, 0 ≤ d ≤ M)%Z pz ∧
  (Z.of_nat (length pz - 1) * (M * M * M) < 2 ^ 53)%Z.

(** The tree of MatrixChain.ts for a parenthesization, numbered from
    [ctr]: labels [A<i>] and [(<i>,<j>)], ids in the order of the visit. *)
Fixpoint treeOf (T : Paren) (ctr : nat) : MatrixChain.TreeNode * nat :=
  match T with
  | PLeaf i =>
      (MatrixChain.mkTreeNode ctr ("A" +:+ pretty i) None None, ctr + 1)
  | PSplit l r =>
      let '(tl, c1) := treeOf l (ctr + 1) in
      let '(tr, c2) := treeOf r c1 in
      (MatrixChain.mkTreeNode ctr
         ("(" +:+ pretty (firstOf l) +:+ "," +:+ pretty (lastOf r) +:+ ")")
         (Some tl) (Some tr), c2)
  end.

(** A split table that cuts every interval [i < j <= n] inside it. *)
Definition splitsInside (n : nat) (s : list (list nat)) : Prop :=
  ∀ i j, 1 ≤ i → i < j → j ≤ n →
    ∃ k, read2 s i j = Some k ∧ i ≤ k < j.

(** ** Layout *)

(** The fields of a snapshot node that the in-order layout copies. *)
Definition plainFields (t : LayoutPlain.TreeNode) : Z * Z * Color :=
  match t with
  | LayoutPlain.null => (0%Z, 0%Z, BLACK)
  | LayoutPlain.mkTreeNode i v c _ _ => (i, v, c)
  end.

(** The id of a snapshot node. *)
Definition idOf (t : LayoutPlain.TreeNode) : Z := (plainFields t).1.1.

(** Levels below a snapshot node, the NIL leaves not counted. *)
Fixpoint levels (n : RBNode) : nat :=
  match n with
  | null => 0
  | mkRBNode _ _ _ l r _ => 1 + levels l `max` levels r
  end.


(** A layout node that stands for a NIL leaf: its value is [NaN]. *)
Definition isNil (n : LayoutNil.LayoutNode) : Prop := LayoutNil.value n = None.

Global Instance isNil_dec n : Decision (isNil n).
Proof. unfold isNil. apply _. Defined.

(** ** Layout of the parenthesization tree *)

(** The nodes of a tree with their depth, left subtree first. *)
Fixpoint inorderAt (t : MatrixChain.TreeNode) (depth : nat)
    : list (MatrixChain.TreeNode * nat) :=
  let 'MatrixChain.mkTreeNode _ _ l r := t in
  match l with Some a => inorderAt a (depth + 1) | None => [] end
  ++ (t, depth)
  :: match r with Some b => inorderAt b (depth + 1) | None => [] end.

(** The nodes of a tree, a node after its subtrees. *)
Fixpoint postorder (t : MatrixChain.TreeNode) : list MatrixChain.TreeNode :=
  let 'MatrixChain.mkTreeNode _ _ l r := t in
  match l with Some a => postorder a | None => [] end
  ++ match r with Some b => postorder b | None => [] end
  ++ [t].

(** The edges from a node to its children. *)
Definition links (t : MatrixChain.TreeNode) : list MatrixChainVisualizer.Link :=
  let 'MatrixChain.mkTreeNode i _ l r := t in
  MatrixChainVisualizer.childLink i l ++ MatrixChainVisualizer.childLink i r.

(** A node of depth [ud.2] placed in column [k]. *)
Definition placeAt (floorX floorY : Z) (k : nat)
    (ud : MatrixChain.TreeNode * nat) : MatrixChainVisualizer.PlacedNode :=
  MatrixChainVisualizer.mkPlacedNode (MatrixChain.id ud.1)
    (Z.of_nat k * MatrixChainVisualizer.spacingX floorX
     + MatrixChainVisualizer.xOffset floorX)
    (Z.of_nat ud.2 * MatrixChainVisualizer.spacingY floorY
     + MatrixChainVisualizer.yOffset floorY)
    (MatrixChain.label ud.1).

(** Levels below the root of a tree. *)
Fixpoint depthBelow (t : MatrixChain.TreeNode) : nat :=
  let 'MatrixChain.mkTreeNode _ _ l r := t in
  match l with Some a => 1 + depthBelow a | None => 0 end
  `max` match r with Some b => 1 + depthBelow b | None => 0 end.

(** [b] is the least of [zs], or still [Infinity] when there is none. *)
Definition tightLo (b : MatrixChainVisualizer.bound) (zs : list Z) : Prop :=
  match zs with
  | [] => b = MatrixChainVisualizer.Infinity
  | _ => ∃ z, b = MatrixChainVisualizer.Finite z ∧ z ∈ zs ∧
              Forall (λ a, (z ≤ a)%Z) zs
  end.

(** [b] is the greatest of [zs], or still [-Infinity]. *)
Definition tightHi (b : MatrixChainVisualizer.bound) (zs : list Z) : Prop :=
  match zs with
  | [] => b = MatrixChainVisualizer.NegInfinity
  | _ => ∃ z, b = MatrixChainVisualizer.Finite z ∧ z ∈ zs ∧
              Forall (λ a, (a ≤ z)%Z) zs
  end.

(** The four bounds are those of the nodes pushed so far. *)
Definition boxed (st : MatrixChainVisualizer.AssignState) : Prop :=
  tightLo (MatrixChainVisualizer.st_minX st)
          (MatrixChainVisualizer.x <$> MatrixChainVisualizer.st_nodes st) ∧
  tightHi (MatrixChainVisualizer.st_maxX st)
          (MatrixChainVisualizer.x <$> MatrixChainVisualizer.st_nodes st) ∧
  tightLo (MatrixChainVisualizer.st_minY st)
          (MatrixChainVisualizer.y <$> MatrixChainVisualizer.st_nodes st) ∧
  tightHi (MatrixChainVisualizer.st_maxY st)
          (MatrixChainVisualizer.y <$> MatrixChainVisualizer.st_nodes st).

(** ** Steps of the matrix-chain explanation *)

(** The preview that step [k] of an explanation of [n] matrices holds when
    the split table is [sloc]: the last two steps hold the drawing of the
    tree, the others none. *)
Definition expectedSvg (fuel n : nat) (sloc : list (list nat)) (k : nat)
    : option string :=
  if bool_decide ((k = n ∧ 2 ≤ n) ∨ k = n + 1)
  then MatrixChainVisualizer.previewOf fuel sloc n
  else None.

(** The steps pushed before step [K]: numbered from 1, with the previews
    above, all of type INFO without a snapshot. *)
Definition stepsInv (fuel n K : nat) (sloc : list (list nat))
    (steps : list MatrixChainVisualizer.Step * nat) : Prop :=
  steps.2 = K ∧
  (λ st, (MatrixChainVisualizer.step_id st, MatrixChainVisualizer.svg st))
    <$> steps.1
  = (λ k, (k, expectedSvg fuel n sloc k)) <$> seq 1 (K - 1) ∧
  Forall (λ st, MatrixChainVisualizer.step_type st = "INFO" ∧
                MatrixChainVisualizer.treeSnapshot st = null ∧
                MatrixChainVisualizer.highlightedNodeIds st = [])
         steps.1.

(** The split table of the explanation when its [L] loop is at [L] and its
    [i] loop at [c]: every cell filled so far holds a split of its chain. *)
Definition slocOk (N L c : nat) (sloc : list (list nat)) : Prop :=
  dims N N sloc ∧
  ∀ i j, 1 ≤ i → i < j → j < N → filled_cell L c i j →
    i ≤ get2 sloc i j < j.

(** The tables of [matrixChainOrder] when its [l] loop is at [L] and its
    [i] loop at [c]. *)
Definition stateAt (p : list num) (L c : nat)
    : list (list num) * list (list nat) :=
  let N := length p in
  foldl (MatrixChain.step_i p L)
    (foldl (MatrixChain.step_l p (N - 1)) (filled N N zero, filled N N 0)
           (seq 2 (L - 2)))
    (seq 1 (c - 1)).

(** The lines that the explanation writes for cell [(i, i + L - 1)], read
    off the tables [m] and [s]. *)
Definition cellLines (show : num → string) (pv : list num)
    (m : list (list num)) (s : list (list nat)) (L i : nat) : list string :=
  let j := i + L - 1 in
  if bool_decide (L = 2)
  then [MatrixChainVisualizer.pairLine show pv i j (get2 m i j)]
  else MatrixChainVisualizer.tryLine i j
       :: ((λ k, MatrixChainVisualizer.kLine show pv m i j k
                   (splitCost pv m i k j)) <$> seq i (j - i))
       ++ [MatrixChainVisualizer.bestLine show i j (get2 m i j) (get2 s i j)].

(** The lines of the step for chain length [L]. *)
Definition levelLines (show : num → string) (pv : list num)
    (m : list (list num)) (s : list (list nat)) (L : nat) : list string :=
  MatrixChainVisualizer.headLine L
  :: (seq 1 (length pv - 1 - L + 1) ≫= cellLines show pv m s L).

(** The step for chain length [L], with the preview at the last length. *)
Definition levelStep (show : num → string) (fuel : nat) (pv : list num)
    (r : MatrixChain.MatrixChainResult) (L : nat)
    : MatrixChainVisualizer.Step :=
  MatrixChainVisualizer.mkStep L "INFO"
    (MatrixChainVisualizer.join MatrixChainVisualizer.nl
       (levelLines show pv (MatrixChain.m r) (MatrixChain.s r) L))
    null []
    (if bool_decide (L = length pv - 1)
     then MatrixChainVisualizer.previewOf fuel (MatrixChain.s r)
            (length pv - 1)
     else None).

(** The explanation written from a result [r] of [matrixChainOrder]: the
    step of the diagonal, one step per chain length, and the step of the
    parenthesization when its text and the drawing of its tree exist. *)
Definition explain (show : num → string) (fuel : nat) (pv : list num)
    (r : MatrixChain.MatrixChainResult) : list MatrixChainVisualizer.Step :=
  let n := length pv - 1 in
  [MatrixChainVisualizer.mkStep 1 "INFO"
     ("Level 1:" +:+ MatrixChainVisualizer.nl
      +:+ MatrixChainVisualizer.join MatrixChainVisualizer.nl
            (MatrixChainVisualizer.diagLine <$> seq 1 n))
     null [] None]
  ++ (levelStep show fuel pv r <$> seq 2 (n - 1))
  ++ match MatrixChain.parenthesizationFromS fuel (MatrixChain.s r) 1 n,
           MatrixChainVisualizer.previewOf fuel (MatrixChain.s r) n with
     | Some paren, Some svg =>
         [MatrixChainVisualizer.mkStep (n + 1) "INFO"
            ("Optimal parenthesization: " +:+ paren) null [] (Some svg)]
     | _, _ => []
     end.

(** * Facts *)

(** ** Loops over [seq] *)

(** Invariant rule for [for (k = a; k < a + cnt; k++) x = f x k]. *)
Lemma foldl_seq_inv {A} (P : nat → A → Prop) (f : A → nat → A) x a cnt :
  P a x →
  (∀ k y, a ≤ k < a + cnt → P k y → P (S k) (f y k)) →
  P (a + cnt) (foldl f x (seq a cnt)).
Proof.
  revert x a. induction cnt as [|cnt IH]; intros x a Hx Hstep; simpl.
  - by rewrite Nat.add_0_r.
  - replace (a + S cnt) with (S a + cnt) by lia.
    apply IH.
    + apply Hstep; [lia | done].
    + intros k y Hk. apply Hstep. lia.
Qed.

(** ** Tables *)

Lemma dims_filled {A} r c (x : A) : dims r c (filled r c x).
Proof.
  split; [apply length_replicate |].
  intros i row [-> _]%lookup_replicate. apply length_replicate.
Qed.

Lemma dims_set2 {A} r c (t : list (list A)) i j v :
  dims r c t → dims r c (set2 t i j v).
Proof.
  intros [Hr Hc]. unfold set2. destruct (t !! i) as [row|] eqn:Hi; [|done].
  split; [by rewrite length_insert |].
  intros i' row' Hi'. destruct (decide (i = i')) as [<-|Hne].
  - rewrite list_lookup_insert_eq in Hi' by (by eapply lookup_lt_Some).
    injection Hi' as <-. rewrite length_insert. by eapply Hc.
  - rewrite list_lookup_insert_ne in Hi' by done. by eapply Hc.
Qed.

Lemma get2_set2_eq {A} `{!Inhabited A} r c (t : list (list A)) i j v :
  dims r c t → i < r → j < c → get2 (set2 t i j v) i j = v.
Proof.
  intros [Hr Hc] Hi Hj. unfold get2, set2.
  destruct (t !! i) as [row|] eqn:Hrow.
  - rewrite list_lookup_total_insert_eq by lia.
    apply list_lookup_total_insert_eq. erewrite Hc; done.
  - apply lookup_ge_None in Hrow. lia.
Qed.

Lemma get2_set2_ne {A} `{!Inhabited A} (t : list (list A)) i j i' j' v :
  (i, j) ≠ (i', j') → get2 (set2 t i j v) i' j' = get2 t i' j'.
Proof.
  intros Hne. unfold get2, set2.
  destruct (t !! i) as [row|] eqn:Hrow; [|done].
  destruct (decide (i = i')) as [<-|Hi].
  - rewrite list_lookup_total_insert_eq by (by eapply lookup_lt_Some).
    rewrite (list_lookup_total_correct _ _ _ Hrow).
    apply list_lookup_total_insert_ne. congruence.
  - by rewrite list_lookup_total_insert_ne.
Qed.

Lemma get2_filled {A} `{!Inhabited A} r c (x : A) i j :
  i < r → j < c → get2 (filled r c x) i j = x.
Proof.
  intros Hi Hj. unfold get2, filled.
  rewrite lookup_total_replicate_2 by done.
  by rewrite lookup_total_replicate_2.
Qed.

Lemma get2_filled_default {A} `{!Inhabited A} r c i j :
  get2 (filled r c (inhabitant : A)) i j = inhabitant.
Proof.
  unfold get2, filled.
  destruct (decide (i < r)) as [Hi|Hi].
  - rewrite lookup_total_replicate_2 by done.
    destruct (decide (j < c)) as [Hj|Hj].
    + by rewrite lookup_total_replicate_2.
    + rewrite list_lookup_total_alt.
      by rewrite (proj1 (lookup_replicate_None _ _ _)) by lia.
  - rewrite (list_lookup_total_alt (replicate r _)).
    by rewrite (proj1 (lookup_replicate_None _ _ _)) by lia.
Qed.

Lemma set2_same {A} `{!Inhabited A} r c (t : list (list A)) i j :
  dims r c t → set2 t i j (get2 t i j) = t.
Proof.
  intros [Hr Hc]. unfold set2, get2.
  destruct (t !! i) as [row|] eqn:Hrow; [|done].
  rewrite (list_lookup_total_correct _ _ _ Hrow).
  apply list_insert_id. rewrite Hrow. f_equal. symmetry.
  apply list_insert_id'. intros Hj.
  by apply list_lookup_lookup_total_lt.
Qed.

(** ** The order of the doubles *)

Ltac rank_case :=
  let Hl := fresh "Hl" in
  let Ha := fresh "Ha" in
  let Hb := fresh "Hb" in
  split;
  [ intros Hl; first
      [ discriminate Hl
      | eexists _, _;
        split; [reflexivity | split; [reflexivity | unfold lex_lt; simpl; lia]] ]
  | intros (? & ? & Ha & Hb & Hl); first
      [ discriminate Ha | discriminate Hb
      | injection Ha as <-; injection Hb as <-;
        unfold lex_lt in Hl; simpl in Hl; first [reflexivity | exfalso; lia] ] ].

(** [a < b] compares the ranks. *)
Lemma num_ltb_rank x y :
  num_ltb x y = true ↔ ∃ a b, rank x = Some a ∧ rank y = Some b ∧ lex_lt a b.
Proof.
  unfold num_ltb, SFltb.
  destruct x as [[]|[]| |[] m1 e1], y as [[]|[]| |[] m2 e2]; simpl;
    try (by rank_case);
    change (Pos.compare_cont Eq m1 m2) with (Pos.compare m1 m2);
    destruct (Z.compare_spec e1 e2), (Pos.compare_spec m1 m2); simpl;
    rank_case.
Qed.

Lemma num_ltb_trans a b c :
  num_ltb a b = true → num_ltb b c = true → num_ltb a c = true.
Proof.
  rewrite !num_ltb_rank. intros (x & y & Hx & Hy & H1) (y' & z & Hy' & Hz & H2).
  assert (y' = y) as -> by congruence.
  exists x, z. split_and!; [done..|]. unfold lex_lt in *. lia.
Qed.

Lemma num_ltb_irrefl a : num_ltb a a = false.
Proof.
  apply not_true_is_false. rewrite num_ltb_rank.
  intros (x & y & Hx & Hy & H). assert (y = x) as -> by congruence.
  unfold lex_lt in H. lia.
Qed.

(** [c < b], not [x < b], and [x] is a number: then [c < x]. *)
Lemma num_ltb_below c b x :
  num_ltb c b = true → num_ltb x b = false → x ≠ NaN → num_ltb c x = true.
Proof.
  intros H1 H2 Hx. apply num_ltb_rank in H1 as (rc & rb & Hc & Hb & Hlt).
  destruct (rank x) as [rx|] eqn:Hrx; [|by destruct x as [[]|[]| |[] ? ?]].
  apply num_ltb_rank. exists rc, rx. split_and!; [done..|].
  destruct (decide (lex_lt rx rb)) as [Hl|Hl].
  - assert (num_ltb x b = true) by (apply num_ltb_rank; eauto). congruence.
  - unfold lex_lt in *. lia.
Qed.

(** Not [x < b] although [c < b]: then not [x < c] either. *)
Lemma num_ltb_above c b x :
  num_ltb c b = true → num_ltb x b = false → num_ltb x c = false.
Proof.
  intros H1 H2. apply not_true_is_false. intros H3.
  by rewrite (num_ltb_trans _ _ _ H3 H1) in H2.
Qed.

Lemma num_ltb_Inf x : num_ltb x Inf = true ↔ x ≠ NaN ∧ x ≠ Inf.
Proof.
  destruct x as [[]|[]| |[] ? ?]; unfold num_ltb; simpl;
    split; try done; by intros [? ?].
Qed.

Lemma num_ltb_number x y : num_ltb x y = true → x ≠ NaN ∧ y ≠ NaN.
Proof.
  intros (a & b & Ha & Hb & _)%num_ltb_rank. split; by intros ->.
Qed.

(** ** The sign of sums and products *)

Lemma binary_round_aux_signed s m e l :
  signed s (binary_round_aux 53 1024 s m e l).
Proof.
  unfold binary_round_aux.
  destruct (shr_fexp 53 1024 m e l) as [mrs e'].
  destruct (shr_fexp 53 1024 _ e' loc_Exact) as [mrs' e''].
  destruct (shr_m mrs'); [done | | done].
  by destruct (Z.leb _ _).
Qed.

Lemma signed_nonneg x : signed false x → x ≠ NaN → nonneg x.
Proof. by destruct x as [[]|[]| |[] ? ?]. Qed.

Lemma nonneg_signed x : nonneg x → signed false x.
Proof. by destruct x as [[]|[]| |[] ? ?]. Qed.

Lemma num_mul_signed x y :
  signed false x → signed false y → signed false (num_mul x y).
Proof.
  destruct x as [[]|[]| |[] mx ex], y as [[]|[]| |[] my ey]; try done.
  intros _ _. apply binary_round_aux_signed.
Qed.

Lemma num_add_signed x y :
  signed false x → signed false y → signed false (num_add x y).
Proof.
  destruct x as [[]|[]| |[] mx ex], y as [[]|[]| |[] my ey]; try done.
  intros _ _. unfold num_add, SFadd, cond_Zopp.
  rewrite <- Pos2Z.inj_add. unfold binary_normalize, binary_round.
  generalize ((shl_align mx ex (ex `min` ey)).1
              + (shl_align my ey (ex `min` ey)).1)%positive.
  intros m. destruct (shl_align _ _ _) as [mz ez].
  apply binary_round_aux_signed.
Qed.

(** [0 + x] is [x], except for [x = -0]. *)
Lemma num_add_zero_l x : signed false x → num_add zero x = x.
Proof. by destruct x as [[]|[]| |[] ? ?]. Qed.

Lemma dim_signed p i : Forall nonneg p → signed false (dim p i).
Proof.
  intros Hp. unfold dim. destruct (p !! i) as [d|] eqn:Hd; [|done].
  apply nonneg_signed. rewrite Forall_forall in Hp. apply Hp.
  by eapply list_elem_of_lookup_2.
Qed.

(** ** Whole numbers in doubles

    Sums, products and comparisons of whole numbers from 0 to [2^53 - 1]
    are exact in doubles: rounding has nothing to drop. *)
Section whole_numbers.
Local Open Scope Z_scope.

(** [digits2_pos m] is the number of binary digits of [m]. *)
Lemma digits2_pos_bounds (m : positive) :
  2 ^ (Z.pos (digits2_pos m) - 1) ≤ Z.pos m < 2 ^ Z.pos (digits2_pos m).
Proof.
  induction m as [m IH|m IH|]; simpl digits2_pos.
  - rewrite Pos2Z.inj_succ.
    replace (Z.succ (Z.pos (digits2_pos m)) - 1) with (Z.succ (Z.pos (digits2_pos m) - 1)) by lia.
    rewrite !Z.pow_succ_r by lia. lia.
  - rewrite Pos2Z.inj_succ.
    replace (Z.succ (Z.pos (digits2_pos m)) - 1) with (Z.succ (Z.pos (digits2_pos m) - 1)) by lia.
    rewrite !Z.pow_succ_r by lia. lia.
  - simpl. lia.
Qed.

Lemma digits2_pos_unique (m : positive) (d : Z) :
  2 ^ (d - 1) ≤ Z.pos m < 2 ^ d → Z.pos (digits2_pos m) = d.
Proof.
  intros [Hlo Hhi]. pose proof (digits2_pos_bounds m) as [Hlo' Hhi'].
  assert (0 < d).
  { destruct (decide (0 < d)); [done|]. 
    assert (2 ^ d ≤ 2 ^ 0) by (destruct (decide (d < 0)); [rewrite Z.pow_neg_r by done; lia | apply Z.pow_le_mono_r; lia]).
    simpl in *. lia. }
  destruct (Z.lt_trichotomy (Z.pos (digits2_pos m)) d) as [Hlt|[?|Hgt]]; [|done|].
  - assert (2 ^ Z.pos (digits2_pos m) ≤ 2 ^ (d - 1)) by (apply Z.pow_le_mono_r; lia). lia.
  - assert (2 ^ d ≤ 2 ^ (Z.pos (digits2_pos m) - 1)) by (apply Z.pow_le_mono_r; lia). lia.
Qed.

(** [k] doublings. *)
Lemma iter_xO_mul (m k : positive) :
  Z.pos (Pos.iter xO m k) = Z.pos m * 2 ^ Z.pos k.
Proof.
  induction k as [|k IH] using Pos.peano_ind.
  - simpl. lia.
  - rewrite Pos.iter_succ, Pos2Z.inj_xO, IH, Pos2Z.inj_succ, Z.pow_succ_r by lia.
    lia.
Qed.

Lemma iter_pos_swap {A} (f : A → A) p x :
  iter_pos f p (f x) = f (iter_pos f p x).
Proof.
  revert x. induction p as [p IH|p IH|]; intros x; simpl; [|by rewrite !IH|done].
  by rewrite !IH.
Qed.

Lemma iter_pos_iter {A} (f : A → A) p x : iter_pos f p x = Pos.iter f x p.
Proof.
  revert x. induction p as [p IH|p IH|]; intros x; simpl; [|by rewrite !IH|done].
  by rewrite !iter_pos_swap, !IH.
Qed.

(** Shifting out [k] zero bits is exact. *)
Lemma shr_exact (m k : positive) :
  iter_pos shr_1 k (Build_shr_record (Z.pos (Pos.iter xO m k)) false false)
  = Build_shr_record (Z.pos m) false false.
Proof.
  rewrite iter_pos_iter.
  induction k as [|k IH] using Pos.peano_ind.
  - done.
  - rewrite Pos.iter_succ_r, Pos.iter_succ. simpl shr_1. exact IH.
Qed.

Lemma shiftl_mul (m : positive) (k : N) :
  Z.pos (Pos.shiftl m k) = Z.pos m * 2 ^ Z.of_N k.
Proof.
  destruct k as [|k].
  - change (2 ^ Z.of_N 0) with 1. rewrite Z.mul_1_r. reflexivity.
  - apply iter_xO_mul.
Qed.

Lemma digits2_pos_shiftl (m : positive) (k : N) :
  Z.pos (digits2_pos (Pos.shiftl m k)) = Z.pos (digits2_pos m) + Z.of_N k.
Proof.
  apply digits2_pos_unique. rewrite shiftl_mul.
  pose proof (digits2_pos_bounds m) as [Hlo Hhi].
  assert (0 < 2 ^ Z.of_N k) by (apply Z.pow_pos_nonneg; lia).
  replace (Z.pos (digits2_pos m) + Z.of_N k - 1)
    with ((Z.pos (digits2_pos m) - 1) + Z.of_N k) by lia.
  rewrite !Z.pow_add_r by lia. nia.
Qed.

(** A mantissa of 53 digits followed by [k] zero bits is shifted to its 53
    digits, and nothing is lost. *)
Lemma shr_fexp_exact (mc : positive) (k : N) (e : Z) :
  Z.pos (digits2_pos mc) = 53 → -1074 ≤ e + Z.of_N k →
  shr_fexp 53 1024 (Z.pos (Pos.shiftl mc k)) e loc_Exact
  = (Build_shr_record (Z.pos mc) false false, e + Z.of_N k).
Proof.
  intros Hd He. unfold shr_fexp. cbn [Zdigits2 shr_record_of_loc].
  rewrite digits2_pos_shiftl, Hd. unfold fexp, emin.
  replace (Z.max (53 + Z.of_N k + e - 53) (3 - 1024 - 53) - e)
    with (Z.of_N k) by lia.
  destruct k as [|k]; unfold Pos.shiftl; cbn [Z.of_N shr].
  - f_equal. lia.
  - by rewrite shr_exact.
Qed.

Lemma round_exact (mc : positive) (k : N) (e : Z) :
  Z.pos (digits2_pos mc) = 53 → -1074 ≤ e + Z.of_N k ≤ 971 →
  binary_round_aux 53 1024 false (Z.pos (Pos.shiftl mc k)) e loc_Exact
  = S754_finite false mc (e + Z.of_N k).
Proof.
  intros Hd He. unfold binary_round_aux.
  rewrite shr_fexp_exact by (done || lia).
  cbn [shr_m loc_of_shr_record round_nearest_even].
  pose proof (shr_fexp_exact mc 0 (e + Z.of_N k) Hd) as H0.
  unfold Pos.shiftl in H0. cbn [Z.of_N] in H0. rewrite H0 by lia.
  cbn [shr_m]. rewrite Z.add_0_r.
  by rewrite (proj2 (Z.leb_le _ _)) by lia.
Qed.

Lemma digits2_pos_53 (m : positive) :
  Z.pos m < 2 ^ 53 → Z.pos (digits2_pos m) ≤ 53.
Proof.
  intros Hm. pose proof (digits2_pos_bounds m) as [Hlo _].
  destruct (decide (Z.pos (digits2_pos m) ≤ 53)); [done|].
  assert (2 ^ 53 ≤ 2 ^ (Z.pos (digits2_pos m) - 1))
    by (apply Z.pow_le_mono_r; lia).
  lia.
Qed.

Lemma ofZ_pos (m : positive) : Z.pos m < 2 ^ 53 → ofZ (Z.pos m) = canon m.
Proof.
  intros Hm. pose proof (digits2_pos_53 m Hm) as Hd.
  unfold ofZ, binary_normalize, binary_round, canon.
  set (d := Z.pos (digits2_pos m)) in *.
  rewrite Z.add_0_r. unfold fexp, emin.
  replace (Z.max (d - 53) (3 - 1024 - 53)) with (d - 53) by lia.
  unfold shl_align.
  destruct (decide (d = 53)) as [E|E].
  - rewrite E. change (Z.to_N (53 - 53)) with 0%N.
    change (53 - 53 - 0) with 0. unfold Pos.shiftl. cbv iota.
    pose proof (round_exact m 0 0) as H. unfold Pos.shiftl in H.
    cbn [Z.of_N] in H. rewrite H; [done | done | lia].
  - destruct (d - 53 - 0) as [|q|q] eqn:Eq; [lia | lia |].
    assert (Hq : Z.to_N (53 - d) = N.pos q) by lia.
    rewrite Hq. unfold Pos.shiftl.
    pose proof (round_exact (Pos.iter xO m q) 0 (d - 53)) as H.
    unfold Pos.shiftl in H. cbn [Z.of_N] in H.
    rewrite H; [f_equal; lia | | lia].
    change (Pos.iter xO m q) with (Pos.shiftl m (N.pos q)).
    rewrite digits2_pos_shiftl. fold d. lia.
Qed.

Lemma canon_digits (m : positive) :
  Z.pos m < 2 ^ 53 →
  Z.pos (digits2_pos (Pos.shiftl m (Z.to_N (53 - Z.pos (digits2_pos m))))) = 53.
Proof.
  intros Hm. pose proof (digits2_pos_53 m Hm). rewrite digits2_pos_shiftl. lia.
Qed.

Lemma pow2_pos (k : Z) : 0 ≤ k → 0 < 2 ^ k.
Proof. intros. apply Z.pow_pos_nonneg; lia. Qed.

(** The product of two whole doubles is exact when it is below [2^53]. *)
Lemma canon_mul (a b : positive) :
  Z.pos (a * b) < 2 ^ 53 →
  num_mul (canon a) (canon b) = canon (a * b).
Proof.
  intros Hab.
  pose proof (digits2_pos_bounds a) as [Hal Hah].
  pose proof (digits2_pos_bounds b) as [Hbl Hbh].
  pose proof (digits2_pos_bounds (a * b)) as [Hcl Hch].
  pose proof (digits2_pos_53 (a * b) Hab) as Hdc.
  set (da := Z.pos (digits2_pos a)) in *.
  set (db := Z.pos (digits2_pos b)) in *.
  set (dc := Z.pos (digits2_pos (a * b))) in *.
  assert (0 < da ∧ 0 < db ∧ 0 < dc) as (? & ? & ?) by (unfold da, db, dc; lia).
  assert (Hlow : da + db - 1 ≤ dc).
  { destruct (decide (da + db - 1 ≤ dc)); [done|]. exfalso.
    assert (2 ^ dc ≤ 2 ^ (da - 1 + (db - 1))) by (apply Z.pow_le_mono_r; lia).
    rewrite Z.pow_add_r in * by lia. rewrite Pos2Z.inj_mul in Hch. nia. }
  assert (Hhigh : dc ≤ da + db).
  { destruct (decide (dc ≤ da + db)); [done|]. exfalso.
    assert (2 ^ (da + db) ≤ 2 ^ (dc - 1)) by (apply Z.pow_le_mono_r; lia).
    rewrite Z.pow_add_r in * by lia. rewrite Pos2Z.inj_mul in Hcl. nia. }
  assert (da ≤ 53 ∧ db ≤ 53) as [? ?] by lia.
  unfold num_mul, canon, SFmul. fold da db dc. cbn [xorb].
  set (k := Z.to_N (53 + dc - da - db)).
  assert (Hm : (Pos.shiftl a (Z.to_N (53 - da)) * Pos.shiftl b (Z.to_N (53 - db)))%positive
               = Pos.shiftl (Pos.shiftl (a * b) (Z.to_N (53 - dc))) k).
  { apply Pos2Z.inj. rewrite Pos2Z.inj_mul, !shiftl_mul, Pos2Z.inj_mul.
    unfold k. rewrite !Z2N.id by lia.
    replace (53 - da) with ((53 - dc) + (dc - da)) at 1 by lia.
    replace (53 + dc - da - db) with ((dc - da) + (53 - db)) by lia.
    rewrite !Z.pow_add_r by lia. lia. }
  rewrite Hm, round_exact.
  - f_equal. unfold k. lia.
  - by apply canon_digits.
  - unfold k. lia.
Qed.

Lemma shl_align_fst (m : positive) (e e' : Z) :
  e' ≤ e → Z.pos (shl_align m e e').1 = Z.pos m * 2 ^ (e - e').
Proof.
  intros He. unfold shl_align.
  destruct (e' - e) as [|q|q] eqn:Eq; cbn [fst].
  - replace (e - e') with 0 by lia. change (2 ^ 0) with 1. lia.
  - lia.
  - rewrite iter_xO_mul. do 2 f_equal. lia.
Qed.

(** The sum of two whole doubles is exact when it is below [2^53]. *)
Lemma canon_add (a b : positive) :
  Z.pos (a + b) < 2 ^ 53 →
  num_add (canon a) (canon b) = canon (a + b).
Proof.
  intros Hab.
  pose proof (digits2_pos_bounds a) as [Hal Hah].
  pose proof (digits2_pos_bounds b) as [Hbl Hbh].
  pose proof (digits2_pos_bounds (a + b)) as [Hcl Hch].
  pose proof (digits2_pos_53 (a + b) Hab) as Hdc.
  set (da := Z.pos (digits2_pos a)) in *.
  set (db := Z.pos (digits2_pos b)) in *.
  set (dc := Z.pos (digits2_pos (a + b))) in *.
  assert (0 < da ∧ 0 < db ∧ 0 < dc) as (? & ? & ?) by (unfold da, db, dc; lia).
  assert (Hda : da ≤ dc).
  { destruct (decide (da ≤ dc)); [done|]. exfalso.
    assert (2 ^ dc ≤ 2 ^ (da - 1)) by (apply Z.pow_le_mono_r; lia).
    rewrite Pos2Z.inj_add in Hch. lia. }
  assert (Hdb : db ≤ dc).
  { destruct (decide (db ≤ dc)); [done|]. exfalso.
    assert (2 ^ dc ≤ 2 ^ (db - 1)) by (apply Z.pow_le_mono_r; lia).
    rewrite Pos2Z.inj_add in Hch. lia. }
  unfold num_add, canon, SFadd, cond_Zopp. fold da db dc.
  set (ez := Z.min (da - 53) (db - 53)).
  rewrite <- Pos2Z.inj_add.
  set (S := ((shl_align _ (da - 53) ez).1 + (shl_align _ (db - 53) ez).1)%positive).
  assert (HS : S = Pos.shiftl (Pos.shiftl (a + b) (Z.to_N (53 - dc)))
                     (Z.to_N (dc - 53 - ez))).
  { apply Pos2Z.inj. unfold S.
    rewrite Pos2Z.inj_add, !shl_align_fst, !shiftl_mul, Pos2Z.inj_add by lia.
    rewrite !Z2N.id by lia.
    rewrite <- !Z.mul_assoc, <- !Z.pow_add_r by lia.
    replace (53 - da + (da - 53 - ez)) with (- ez) by lia.
    replace (53 - db + (db - 53 - ez)) with (- ez) by lia.
    replace (53 - dc + (dc - 53 - ez)) with (- ez) by lia. lia. }
  unfold binary_normalize, binary_round.
  assert (Hdig : Z.pos (digits2_pos S) = dc - ez).
  { rewrite HS, digits2_pos_shiftl, canon_digits by done. lia. }
  rewrite Hdig. unfold fexp, emin.
  replace (Z.max (dc - ez + ez - 53) (3 - 1024 - 53)) with (dc - 53) by lia.
  unfold shl_align at 1.
  destruct (dc - 53 - ez) as [|q|q] eqn:Eq; [| |lia].
  - rewrite HS, round_exact; [f_equal; lia | by apply canon_digits | lia].
  - rewrite HS, round_exact; [f_equal; lia | by apply canon_digits | lia].
Qed.

(** Whole doubles compare as the numbers do. *)
Lemma canon_ltb (a b : positive) :
  Z.pos a < 2 ^ 53 → Z.pos b < 2 ^ 53 →
  num_ltb (canon a) (canon b) = bool_decide (Z.pos a < Z.pos b).
Proof.
  intros Ha Hb.
  pose proof (digits2_pos_bounds a) as [Hal Hah].
  pose proof (digits2_pos_bounds b) as [Hbl Hbh].
  pose proof (digits2_pos_53 a Ha). pose proof (digits2_pos_53 b Hb).
  set (da := Z.pos (digits2_pos a)) in *.
  set (db := Z.pos (digits2_pos b)) in *.
  assert (0 < da ∧ 0 < db) as (? & ?) by (unfold da, db; lia).
  unfold num_ltb, SFltb, canon, SFcompare. fold da db.
  change (Pos.compare_cont Eq ?x ?y) with (Pos.compare x y).
  rewrite Pos2Z.inj_compare, !shiftl_mul, !Z2N.id by lia.
  destruct (Z.compare_spec (da - 53) (db - 53)) as [E|E|E].
  - assert (da = db) as Hd by lia. rewrite Hd.
    pose proof (pow2_pos (53 - db) ltac:(lia)).
    destruct (Z.compare_spec (Z.pos a * 2 ^ (53 - db)) (Z.pos b * 2 ^ (53 - db)));
      symmetry; [apply bool_decide_eq_false | apply bool_decide_eq_true
                | apply bool_decide_eq_false]; nia.
  - symmetry. apply bool_decide_eq_true.
    assert (2 ^ da ≤ 2 ^ (db - 1)) by (apply Z.pow_le_mono_r; lia). lia.
  - symmetry. apply bool_decide_eq_false.
    assert (2 ^ db ≤ 2 ^ (da - 1)) by (apply Z.pow_le_mono_r; lia). lia.
Qed.

(** *** Whole numbers from 0 to [2^53 - 1] *)

Lemma ofZ_mul (a b : Z) :
  0 ≤ a < 2 ^ 53 → 0 ≤ b < 2 ^ 53 → a * b < 2 ^ 53 →
  num_mul (ofZ a) (ofZ b) = ofZ (a * b).
Proof.
  intros Ha Hb Hab. destruct a as [|a|a], b as [|b|b]; try lia; try done.
  - by rewrite ofZ_pos by lia.
  - rewrite (ofZ_pos a) by lia. done.
  - rewrite <- Pos2Z.inj_mul in *. rewrite !ofZ_pos by lia.
    by apply canon_mul.
Qed.

Lemma ofZ_add (a b : Z) :
  0 ≤ a → 0 ≤ b → a + b < 2 ^ 53 →
  num_add (ofZ a) (ofZ b) = ofZ (a + b).
Proof.
  intros Ha Hb Hab. destruct a as [|a|a], b as [|b|b]; try lia; try done.
  - change (0 + Z.pos b) with (Z.pos b). by rewrite ofZ_pos by lia.
  - rewrite Z.add_0_r, (ofZ_pos a) by lia. done.
  - rewrite <- Pos2Z.inj_add in *. rewrite !ofZ_pos by lia.
    by apply canon_add.
Qed.

Lemma ofZ_ltb (a b : Z) :
  0 ≤ a < 2 ^ 53 → 0 ≤ b < 2 ^ 53 →
  num_ltb (ofZ a) (ofZ b) = bool_decide (a < b).
Proof.
  intros Ha Hb. destruct a as [|a|a], b as [|b|b]; try lia; try done.
  - by rewrite ofZ_pos by lia.
  - by rewrite ofZ_pos by lia.
  - rewrite !ofZ_pos by lia. apply canon_ltb; lia.
Qed.

Lemma ofZ_below_Inf (a : Z) : 0 ≤ a < 2 ^ 53 → num_ltb (ofZ a) Inf = true.
Proof.
  intros Ha. destruct a as [|a|a]; [done | | lia].
  by rewrite ofZ_pos by lia.
Qed.

Lemma ofZ_inj (a b : Z) :
  0 ≤ a < 2 ^ 53 → 0 ≤ b < 2 ^ 53 → ofZ a = ofZ b → a = b.
Proof.
  intros Ha Hb E.
  pose proof (ofZ_ltb a b Ha Hb) as H1. pose proof (ofZ_ltb b a Hb Ha) as H2.
  rewrite E in H1. rewrite E in H2.
  assert (Hirr : num_ltb (ofZ b) (ofZ b) = false).
  { destruct b as [|b|b]; [done | | lia]. rewrite ofZ_pos by lia.
    rewrite canon_ltb by lia. apply bool_decide_eq_false. lia. }
  rewrite Hirr in H1, H2. symmetry in H1, H2.
  apply bool_decide_eq_false in H1, H2. lia.
Qed.

End whole_numbers.

(** ** The cost and split tables *)

(** The two programs compute the cost of a split as the recurrence writes
    it. *)
Lemma cost_splitCost p m i k j : MatrixChain.cost p m i k j = splitCost p m i k j.
Proof. done. Qed.

Lemma q_splitCost p m i k j : MatrixChainMS.q p m i k j = splitCost p m i k j.
Proof. done. Qed.

Lemma splitCost_agree p (m m' : list (list num)) i k j :
  get2 m' i k = get2 m i k → get2 m' (k + 1) j = get2 m (k + 1) j →
  splitCost p m' i k j = splitCost p m i k j.
Proof. intros H1 H2. unfold splitCost. by rewrite H1, H2. Qed.

(** A cell that is done stays so as long as the cell and the cells that
    its costs read keep their entries. *)
Lemma cell_done_agree p m s m' s' i j :
  get2 m' i j = get2 m i j → get2 s' i j = get2 s i j →
  (∀ k, i ≤ k < j → get2 m' i k = get2 m i k ∧
                    get2 m' (k + 1) j = get2 m (k + 1) j) →
  cell_done p m s i j → cell_done p m' s' i j.
Proof.
  intros Em Es Hsub.
  assert (Hc : ∀ k, i ≤ k < j → splitCost p m' i k j = splitCost p m i k j).
  { intros k Hk. apply splitCost_agree; by apply Hsub. }
  intros [((Hs & Hm & Hmin) & Hlt & Hfirst)|(Hnone & Hm & Hs)]; [left|right].
  - split_and!.
    + unfold optimal_split. rewrite Em, Es. split_and!; [lia | lia | |].
      * rewrite Hc by lia. done.
      * intros k Hk. rewrite Hc by done. by apply Hmin.
    + by rewrite Em.
    + intros k Hik Hk. rewrite Es in Hk. rewrite Em, Hc by lia.
      by apply Hfirst.
  - split_and!; [|by rewrite Em | by rewrite Es].
    intros k Hk. rewrite Hc by done. by apply Hnone.
Qed.

Section matrix_chain.
Import MatrixChain.
Variable p : list num.
Local Abbreviation N := (length p).
Local Abbreviation Inv := (Inv p).

(** What one run of the [k] loop does to cell [(i, j)], and to no other. *)
Lemma step_i_spec l ms i :
  dims N N ms.1 → dims N N ms.2 →
  1 ≤ i → 2 ≤ l → i + l - 1 < N →
  let j := i + l - 1 in
  let ms' := step_i p l ms i in
  get2 ms.2 i j = 0 →
  dims N N ms'.1 ∧ dims N N ms'.2 ∧
  (∀ a b, (a, b) ≠ (i, j) →
     get2 ms'.1 a b = get2 ms.1 a b ∧ get2 ms'.2 a b = get2 ms.2 a b) ∧
  cell_done p ms'.1 ms'.2 i j.
Proof.
  intros Hdm Hds Hi Hl HjN j ms' Hs0.
  assert (Hij : i < j) by (unfold j; lia).
  set (cst := λ k, splitCost p ms.1 i k j).
  set (P := λ (k : nat) (x : list (list num) * list (list nat)),
    dims N N x.1 ∧ dims N N x.2 ∧
    (∀ a b, (a, b) ≠ (i, j) →
       get2 x.1 a b = get2 ms.1 a b ∧ get2 x.2 a b = get2 ms.2 a b) ∧
    ((get2 x.1 i j = Inf ∧ get2 x.2 i j = 0 ∧
      ∀ k', i ≤ k' < k → num_ltb (cst k') Inf = false) ∨
     (i ≤ get2 x.2 i j < k ∧ get2 x.1 i j = cst (get2 x.2 i j) ∧
      num_ltb (get2 x.1 i j) Inf = true ∧
      (∀ k', i ≤ k' < k → num_ltb (cst k') (get2 x.1 i j) = false) ∧
      (∀ k', i ≤ k' < get2 x.2 i j →
         cst k' = NaN ∨ num_ltb (get2 x.1 i j) (cst k') = true)))).
  assert (HP : P (i + (j - i)) ms').
  { unfold ms', step_i. fold j. apply (foldl_seq_inv P).
    - split_and!; simpl.
      + by apply dims_set2.
      + done.
      + intros a b Hab. by rewrite get2_set2_ne.
      + left. split_and!; [apply (get2_set2_eq N N); (done || lia) | done |].
        intros k' Hk'. lia.
    - intros k [m' s'] Hk (Hdm' & Hds' & Hframe & Hcell).
      simpl in *. unfold step_k; simpl.
      assert (Hc : cost p m' i k j = cst k).
      { apply splitCost_agree; apply Hframe; intros [=]; lia. }
      rewrite Hc.
      set (b := get2 m' i j) in *.
      assert (Hb : (b = Inf ∨ num_ltb b Inf = true) ∧
                   (∀ k', i ≤ k' < k → num_ltb (cst k') b = false)).
      { destruct Hcell as [(-> & _ & Hn)|(_ & _ & Hlt & Hmin & _)];
          split; auto. }
      destruct Hb as [HbInf Hbmin].
      destruct (num_ltb (cst k) b) eqn:Hlt; simpl.
      + split_and!; cbn [fst snd].
        * by apply dims_set2.
        * by apply dims_set2.
        * intros a c Hac. rewrite !get2_set2_ne by done. by apply Hframe.
        * right.
          rewrite (get2_set2_eq N N), (get2_set2_eq N N) by (done || lia).
          split_and!; [lia | lia | done | | |].
          -- destruct HbInf as [->|HbInf]; [done|].
             by eapply num_ltb_trans.
          -- intros k' Hk'. destruct (decide (k' = k)) as [->|Hne].
             ++ apply num_ltb_irrefl.
             ++ apply (num_ltb_above _ b); [done|]. apply Hbmin. lia.
          -- intros k' Hk'.
             destruct (decide (cst k' = NaN)) as [?|Hnan]; [by left|].
             right. apply (num_ltb_below _ b); [done | | done].
             apply Hbmin. lia.
      + split_and!; [done..|]. cbn [fst snd].
        destruct Hcell as [(Hm & Hs & Hn)|(Hs & Hm & HltI & Hmin & Hfirst)].
        * left. split_and!; [done | done|].
          intros k' Hk'. destruct (decide (k' = k)) as [->|Hne].
          -- by rewrite <- Hm.
          -- apply Hn. lia.
        * right. split_and!; [lia | lia | done | done | | done].
          intros k' Hk'. destruct (decide (k' = k)) as [->|Hne]; [done|].
          apply Hmin. lia. }
  replace (i + (j - i)) with j in HP by lia.
  destruct HP as (Hdm' & Hds' & Hframe & Hcell).
  assert (Hcost : ∀ k, i ≤ k < j → splitCost p ms'.1 i k j = cst k).
  { intros k Hk. apply splitCost_agree; apply Hframe; intros [=]; lia. }
  split_and!; [done..|].
  destruct Hcell as [(Hm & Hs & Hn)|(Hs & Hm & HltI & Hmin & Hfirst)].
  - right. split_and!; [|done..].
    intros k Hk. rewrite Hcost by done. by apply Hn.
  - left. split_and!; [|done|].
    + split_and!; [lia | lia | by rewrite Hcost by lia |].
      intros k Hk. rewrite Hcost by done. by apply Hmin.
    + intros k Hik Hk. rewrite Hcost by lia. apply Hfirst. lia.
Qed.

(** Filling cell [(c, c + L - 1)] keeps every cell filled before it. *)
Lemma step_i_Inv L c ms :
  2 ≤ L → 1 ≤ c → c + L - 1 < N →
  Inv L c ms → Inv L (S c) (step_i p L ms c).
Proof.
  intros HL Hc HjN (Hdm & Hds & Hzero & Hgood).
  destruct (step_i_spec L ms c) as (Hdm' & Hds' & Hframe & Hnew);
    [done.. | |].
  { apply Hzero. unfold filled_cell. lia. }
  set (ms' := step_i p L ms c) in *. set (jc := c + L - 1) in *.
  split_and!; [done | done | |].
  - intros i j Hout.
    destruct (Hframe i j) as [-> ->].
    + intros [= -> ->]. apply Hout. unfold filled_cell. lia.
    + apply Hzero. intros (? & ? & Hf). apply Hout. unfold filled_cell in *.
      lia.
  - intros i j Hij HjN' Hcell.
    destruct (decide ((i, j) = (c, jc))) as [[= -> ->]|Hne]; [done|].
    assert (Hold : filled_cell L c i j).
    { destruct Hcell as [?|[Hlen Hlt]]; [by left|]. right. split; [done|].
      assert (i ≠ c); [|lia]. intros ->. apply Hne. f_equal. lia. }
    apply (cell_done_agree p ms.1 ms.2).
    + apply Hframe. congruence.
    + apply Hframe. congruence.
    + intros k Hk. split; apply Hframe; intros [=];
        unfold filled_cell in Hold; lia.
    + by apply Hgood.
Qed.

(** One round of the [l] loop fills the cells of chain length [L]. *)
Lemma step_l_Inv L ms :
  2 ≤ L → L < N → Inv L 1 ms → Inv (S L) 1 (step_l p (N - 1) ms L).
Proof.
  intros HL HLN HI.
  assert (Hend : Inv L (1 + (N - 1 - L + 1)) (step_l p (N - 1) ms L)).
  { unfold step_l. apply (foldl_seq_inv (Inv L)); [done|].
    intros c y Hc Hy. apply step_i_Inv; [done | lia | lia | done]. }
  destruct Hend as (Hdm & Hds & Hzero & Hgood).
  split_and!; [done..| |].
  - intros i j Hout. apply Hzero. intros (? & ? & Hf). apply Hout.
    unfold filled_cell in *. lia.
  - intros i j Hij HjN Hcell. apply Hgood; [done..|].
    unfold filled_cell in *. lia.
Qed.

Lemma Inv_init : Inv 2 1 (filled N N zero, filled N N 0).
Proof.
  split_and!; simpl.
  - apply dims_filled.
  - apply dims_filled.
  - intros i j _.
    split; [exact (get2_filled_default (A:=num) N N i j)
           |exact (get2_filled_default (A:=nat) N N i j)].
  - intros i j Hij _ Hcell. unfold filled_cell in Hcell. lia.
Qed.

Lemma tables_Inv : 2 ≤ N → Inv N 1 (tables p).
Proof.
  intros HN. unfold tables. fold N.
  replace N with (2 + (N - 1 - 1)) at 1 by lia.
  apply (foldl_seq_inv (λ L, Inv L 1)); [apply Inv_init|].
  intros L y HL Hy. apply step_l_Inv; [lia | lia | done].
Qed.

Lemma tables_dims : dims N N (tables p).1 ∧ dims N N (tables p).2.
Proof.
  destruct (decide (2 ≤ N)) as [HN|HN].
  - by destruct (tables_Inv HN) as (? & ? & _).
  - unfold tables. fold N. replace (N - 1 - 1) with 0 by lia. simpl.
    split; apply dims_filled.
Qed.

(** Outside the cells above the diagonal the tables are as at the start. *)
Lemma tables_untouched : untouched (N - 1) (tables p).1 (tables p).2.
Proof.
  destruct (decide (2 ≤ N)) as [HN|HN].
  - destruct (tables_Inv HN) as (_ & _ & Hzero & _).
    intros i j Hout. apply Hzero. intros (? & ? & _). apply Hout. lia.
  - unfold tables. fold N. replace (N - 1 - 1) with 0 by lia. simpl.
    intros i j _.
    split; [exact (get2_filled_default (A:=num) _ _ i j)
           |exact (get2_filled_default (A:=nat) _ _ i j)].
Qed.

(** Every cell above the diagonal is done. *)
Lemma tables_done i j :
  1 ≤ i → i < j → j < N → cell_done p (tables p).1 (tables p).2 i j.
Proof.
  intros Hi Hij Hj. destruct tables_Inv as (_ & _ & _ & Hgood); [lia|].
  apply Hgood; [lia | done |]. left. lia.
Qed.

(** The loop that zeroes the diagonal leaves the zero-filled table as it
    is. *)
Lemma clear_diagonal_filled :
  MatrixChainMS.clear_diagonal (N - 1) (filled N N zero) = filled N N zero.
Proof.
  unfold MatrixChainMS.clear_diagonal.
  apply (foldl_seq_inv (λ _ t, t = filled N N zero)); [done|].
  intros k t Hk ->.
  pose proof (set2_same N N (filled N N zero) k k (dims_filled _ _ _)) as E.
  by rewrite get2_filled in E by lia.
Qed.

(** The two implementations compute the same pair of tables. *)
Lemma tables_MS :
  (MatrixChainMS.m (MatrixChainMS.matrixChainOrder p),
   MatrixChainMS.s (MatrixChainMS.matrixChainOrder p)) = tables p.
Proof.
  unfold MatrixChainMS.matrixChainOrder, tables; simpl. fold N.
  rewrite clear_diagonal_filled.
  by destruct (foldl _ _ _).
Qed.

(** The tables satisfy the recurrence at every cell that has a split with
    a cost below [Infinity]. *)
Lemma tables_recurrence :
  recurrence_below_Infinity p (N - 1) (tables p).1 (tables p).2.
Proof.
  split.
  - intros i Hi. apply tables_untouched. lia.
  - intros i j Hi Hij Hj.
    destruct (tables_done i j) as [(Hopt & Hlt & _)|Hno]; [lia.. | |by right].
    left. split; [|done].
    destruct Hopt as (Hs & Hm & _). eexists. split; [exact Hs|].
    by rewrite <- Hm.
Qed.

(** Without an [Infinity] above the diagonal the split table cuts every
    interval inside. *)
Lemma tables_belowInfinity i j :
  belowInfinity (N - 1) (tables p).1 → 1 ≤ i → i < j → j ≤ N - 1 →
  optimal_split p (tables p).1 (tables p).2 i j ∧
  first_split p (tables p).1 (tables p).2 i j.
Proof.
  intros Hfin Hi Hij Hj.
  destruct (tables_done i j) as [(Hopt & _ & Hfirst)|(_ & Hm & _)]; [lia..|done|].
  by destruct (Hfin i j).
Qed.

End matrix_chain.

(** C6 as stated fails where the costs overflow: for the dimensions
    [1e155, 1e155, 1e155] the only split of [A_1 A_2] costs
    [0 + 0 + 1e155 * 1e155 * 1e155], which is [Infinity]; the test
    [cost < m[1][2]] against the [Infinity] written before the loop fails,
    so [s[1][2]] is left at 0, which is no split of the chain. *)
Lemma matrixChainOrder_overflow :
  let p := [ofZ (10 ^ 155); ofZ (10 ^ 155); ofZ (10 ^ 155)] in
  let r := MatrixChain.matrixChainOrder p in
  let r' := MatrixChainMS.matrixChainOrder p in
  1 ≤ length p - 1 ∧
  get2 (MatrixChain.m r) 1 2 = Inf ∧ get2 (MatrixChain.s r) 1 2 = 0 ∧
  ¬ recurrence p (length p - 1) (MatrixChain.m r) (MatrixChain.s r) ∧
  ¬ recurrence p (length p - 1) (MatrixChainMS.m r') (MatrixChainMS.s r').
Proof.
  intros p r r'. split_and!.
  - simpl. lia.
  - by vm_compute.
  - by vm_compute.
  - intros [_ H]. destruct (H 1 2) as ([Hs _] & _); [simpl; lia..|].
    vm_compute in Hs. lia.
  - intros [_ H]. destruct (H 1 2) as ([Hs _] & _); [simpl; lia..|].
    vm_compute in Hs. lia.
Qed.

(** C6, as the code has it: for at least one matrix, both
    [matrixChainOrder] functions return tables with a zero diagonal in
    which, at every cell [i < j] that has a split whose cost
    [m[i][k] + m[k+1][j] + p[i-1]*p[k]*p[j]] is below [Infinity],
    [m[i][j]] is the least of these costs over [i <= k < j] and [s[i][j]]
    is a split in that range attaining it; at a cell where no cost is below
    [Infinity] (all overflow or are [NaN]), [m[i][j]] is [Infinity] and
    [s[i][j]] is 0. *)
Theorem matrixChainOrder_recurrence (p : list num) :
  let n := length p - 1 in
  1 ≤ n →
  recurrence_below_Infinity p n
    (MatrixChain.m (MatrixChain.matrixChainOrder p))
    (MatrixChain.s (MatrixChain.matrixChainOrder p)) ∧
  recurrence_below_Infinity p n
    (MatrixChainMS.m (MatrixChainMS.matrixChainOrder p))
    (MatrixChainMS.s (MatrixChainMS.matrixChainOrder p)).
Proof.
  intros n Hn. pose proof (tables_recurrence p) as Hrec.
  split; [exact Hrec|].
  rewrite <- (tables_MS p) in Hrec. exact Hrec.
Qed.

Lemma matrixChainOrder_recurrence_witness :
  let p := ofZ <$> [4; 10; 3; 12; 20; 7]%Z in
  1 ≤ length p - 1 ∧
  recurrence_below_Infinity p 5
    (MatrixChain.m (MatrixChain.matrixChainOrder p))
    (MatrixChain.s (MatrixChain.matrixChainOrder p)) ∧
  recurrence_below_Infinity p 5
    (MatrixChainMS.m (MatrixChainMS.matrixChainOrder p))
    (MatrixChainMS.s (MatrixChainMS.matrixChainOrder p)).
Proof.
  intros p. split; [simpl; lia|].
  apply (matrixChainOrder_recurrence p). simpl. lia.
Defined.

(** C10: the two [matrixChainOrder] functions return the same [m] table and
    the same [s] table for every [p]; the one of MatrixChain.ts also
    reports [minCost], which is [m[1][n]] when [n > 0] and [0] otherwise. *)
Theorem matrixChainOrder_equivalent (p : list num) :
  let r := MatrixChain.matrixChainOrder p in
  let r' := MatrixChainMS.matrixChainOrder p in
  MatrixChain.m r = MatrixChainMS.m r' ∧
  MatrixChain.s r = MatrixChainMS.s r' ∧
  MatrixChain.minCost r =
    if bool_decide (1 < length p)
    then get2 (MatrixChain.m r) 1 (length p - 1) else zero.
Proof.
  intros r r'. pose proof (tables_MS p) as E. unfold r, r'.
  split_and!.
  - simpl. by rewrite <- E.
  - simpl. by rewrite <- E.
  - simpl. do 2 case_bool_decide; (done || lia).
Qed.

(** ** The parenthesization trees *)

(** In MatrixChain.ts the ids of a tree are consecutive, starting at the
    value of the counter and visiting a node before its subtrees. *)
Lemma build_ids fuel s i j c t c' :
  MatrixChain.build fuel s i j c = Some (t, c') →
  c' = c + MatrixChain.size t ∧
  MatrixChain.ids t = seq c (MatrixChain.size t).
Proof.
  revert i j c t c'. induction fuel as [|fuel IH]; intros i j c t c'; [done|].
  simpl. case_bool_decide.
  - intros [= <- <-]. simpl. split; [lia | done].
  - intros H1. apply bind_Some in H1 as (k & _ & H1).
    apply bind_Some in H1 as ([l c1] & Hl & H1).
    apply bind_Some in H1 as ([r c2] & Hr & [= <- <-]).
    apply IH in Hl as [-> El]. apply IH in Hr as [-> Er].
    simpl. rewrite El, Er. split; [lia|].
    replace (S (MatrixChain.size l + MatrixChain.size r))
      with (1 + (MatrixChain.size l + MatrixChain.size r)) by done.
    rewrite !seq_app. simpl. do 3 f_equal; lia.
Qed.

(** With the module counter the ids are [n(c+1)], [n(c+2)], ... in the
    order of allocation. *)
Lemma buildParenthesisTree_ids fuel s i j c t c' :
  MatrixChainMS.buildParenthesisTree fuel s i j c = Some (t, c') →
  c' = c + MatrixChainMS.size t ∧
  MatrixChainMS.ids t
  = (λ k, "n" +:+ pretty k) <$> seq (c + 1) (MatrixChainMS.size t).
Proof.
  revert i j c t c'. induction fuel as [|fuel IH]; intros i j c t c'; [done|].
  simpl. case_bool_decide.
  - intros [= <- <-]. simpl. split; [lia | done].
  - intros H1. apply bind_Some in H1 as (k & _ & H1).
    apply bind_Some in H1 as ([l c1] & Hl & H1).
    apply bind_Some in H1 as ([r c2] & Hr & [= <- <-]).
    apply IH in Hl as [-> El]. apply IH in Hr as [-> Er].
    cbn [MatrixChainMS.ids MatrixChainMS.size]. rewrite El, Er.
    split; [lia|].
    replace (1 + MatrixChainMS.size l + MatrixChainMS.size r)
      with (MatrixChainMS.size l + (MatrixChainMS.size r + 1)) by lia.
    rewrite !seq_app, !fmap_app. cbn [seq fmap list_fmap].
    replace (c + 1 + MatrixChainMS.size l) with (c + MatrixChainMS.size l + 1) by lia.
    replace (c + MatrixChainMS.size l + 1 + MatrixChainMS.size r)
      with (c + MatrixChainMS.size l + MatrixChainMS.size r + 1) by lia.
    done.
Qed.

(** The shape, the labels and the number of nodes do not depend on the
    counter, nor does failure. *)
Lemma buildParenthesisTree_shape fuel s i j c c' :
  (λ x, (MatrixChainMS.shape x.1, MatrixChainMS.size x.1))
    <$> MatrixChainMS.buildParenthesisTree fuel s i j c
  = (λ x, (MatrixChainMS.shape x.1, MatrixChainMS.size x.1))
    <$> MatrixChainMS.buildParenthesisTree fuel s i j c'.
Proof.
  revert i j c c'. induction fuel as [|fuel IH]; intros i j c c'; [done|].
  simpl. case_bool_decide; [done|].
  destruct (read2 s i j) as [k|]; [simpl|done].
  pose proof (IH i k c c') as Hl.
  destruct (MatrixChainMS.buildParenthesisTree fuel s i k c) as [[l c1]|],
    (MatrixChainMS.buildParenthesisTree fuel s i k c') as [[l' c1']|];
    simpl in *; try done.
  injection Hl as Hl Hsl.
  pose proof (IH (k + 1) j c1 c1') as Hr.
  destruct (MatrixChainMS.buildParenthesisTree fuel s (k + 1) j c1) as [[r c2]|],
    (MatrixChainMS.buildParenthesisTree fuel s (k + 1) j c1') as [[r' c2']|];
    simpl in *; try done.
  injection Hr as Hr Hsr. by rewrite Hl, Hr, Hsl, Hsr.
Qed.

(** C7, as the code has it: the tree of MatrixChain.ts is numbered from a
    counter created by the call, so its ids are [0, 1, ...] whatever
    happened before; the other [buildParenthesisTree] takes its ids from
    the module variable [_nodeCounter], so a second call with the same
    arguments returns a tree of the same shape and labels whose ids go on
    from where the first call stopped. *)
Theorem buildParenthesisTree_calls (fuel : nat) (s : list (list nat)) (i j : nat) :
  (∀ t c', MatrixChain.buildParenthesisTree fuel s i j None = Some (t, c') →
     MatrixChain.ids t = seq 0 (MatrixChain.size t)) ∧
  (∀ c t1 c1,
     MatrixChainMS.buildParenthesisTree fuel s i j c = Some (t1, c1) →
     ∃ t2, MatrixChainMS.two_calls fuel s i j c = Some (t1, t2) ∧
       MatrixChainMS.shape t2 = MatrixChainMS.shape t1 ∧
       MatrixChainMS.ids t1
       = (λ k, "n" +:+ pretty k) <$> seq (c + 1) (MatrixChainMS.size t1) ∧
       MatrixChainMS.ids t2
       = (λ k, "n" +:+ pretty k)
           <$> seq (c + MatrixChainMS.size t1 + 1) (MatrixChainMS.size t1)).
Proof.
  split.
  - intros t c' H. by apply build_ids in H as [_ ?].
  - intros c t1 c1 H1.
    pose proof (buildParenthesisTree_shape fuel s i j c c1) as Hsh.
    rewrite H1 in Hsh. simpl in Hsh.
    destruct (MatrixChainMS.buildParenthesisTree fuel s i j c1)
      as [[t2 c2]|] eqn:H2; [|done].
    injection Hsh as Hsh Hsz. exists t2.
    pose proof (buildParenthesisTree_ids _ _ _ _ _ _ _ H1) as [Hc1 E1].
    pose proof (buildParenthesisTree_ids _ _ _ _ _ _ _ H2) as [Hc2 E2].
    unfold MatrixChainMS.two_calls. rewrite H1. simpl. rewrite H2. simpl.
    split_and!; [done | done | done |].
    by rewrite E2, Hc1, <- Hsz.
Qed.

Lemma buildParenthesisTree_calls_witness :
  let s := [[0; 0; 0]; [0; 0; 1]; [0; 0; 0]] in
  (∃ t c', MatrixChain.buildParenthesisTree 2 s 1 2 None = Some (t, c') ∧
     MatrixChain.ids t = [0; 1; 2]) ∧
  (∃ t1 t2, MatrixChainMS.two_calls 2 s 1 2 0 = Some (t1, t2) ∧
     MatrixChainMS.ids t1 = ["n1"; "n2"; "n3"] ∧
     MatrixChainMS.ids t2 = ["n4"; "n5"; "n6"]).
Proof.
  intros s. destruct (buildParenthesisTree_calls 2 s 1 2) as [Hts Hms]. split.
  - eexists _, _. split; [vm_compute; reflexivity|].
    exact (Hts _ 3 eq_refl).
  - destruct (Hms 0 _ _ eq_refl) as (t2 & Hcalls & _ & E1 & E2).
    eexists _, t2. split_and!; [exact Hcalls | exact E1 | exact E2].
Defined.

(** C7 as stated fails for the module that numbers nodes with
    [_nodeCounter]: two calls for the single leaf [A1] return ids [n1] and
    [n2]. *)
Lemma buildParenthesisTree_ids_differ :
  ¬ (∀ fuel s i j c t1 t2,
       MatrixChainMS.two_calls fuel s i j c = Some (t1, t2) → t1 = t2).
Proof.
  intros H. specialize (H 1 [] 1 1 0 _ _ eq_refl). discriminate H.
Qed.


(** ** Layout *)

(** C8: on a [null] snapshot both layout functions return no node and no
    edge, for every width and height. *)
Theorem computeTreeLayout_null (width height : Q) :
  LayoutNil.nodes (LayoutNil.computeTreeLayout null width height) = [] ∧
  LayoutNil.edges (LayoutNil.computeTreeLayout null width height) = [] ∧
  LayoutPlain.nodes
    (LayoutPlain.computeTreeLayout LayoutPlain.null width height) = [] ∧
  LayoutPlain.edges
    (LayoutPlain.computeTreeLayout LayoutPlain.null width height) = [].
Proof. by split_and!. Qed.

(** The in-order [traverse] appends the child pairs of every node it
    visits, in the order of the visit. *)
Lemma traverse_edges hs vs node level st :
  LayoutPlain.st_edges (LayoutPlain.traverse hs vs node level st)
  = LayoutPlain.st_edges st
    ++ (LayoutPlain.inorder node ≫= LayoutPlain.childPairs).
Proof.
  revert level st.
  induction node as [|nid v c l IHl r IHr]; intros level st; simpl.
  - by rewrite app_nil_r.
  - rewrite IHr. simpl. rewrite IHl, bind_app. simpl.
    by rewrite <- !app_assoc.
Qed.

(** Every pushed node is in the map built from the node list. *)
Lemma nodeMap_has (nodes : list LayoutNil.LayoutNode) n :
  n ∈ nodes → is_Some (LayoutNil.nodeMap nodes !! LayoutNil.id n).
Proof.
  unfold LayoutNil.nodeMap.
  assert (H : ∀ (m : gmap Z LayoutNil.LayoutNode),
    n ∈ nodes ∨ is_Some (m !! LayoutNil.id n) →
    is_Some (foldl (λ m n, <[LayoutNil.id n := n]> m) m nodes
               !! LayoutNil.id n)).
  { induction nodes as [|a nodes IH]; intros m [Hin|Hm]; simpl.
    - by apply elem_of_nil in Hin.
    - done.
    - apply IH. apply elem_of_cons in Hin as [->|Hin]; [right|by left].
      by rewrite lookup_insert_eq.
    - apply IH. right. rewrite lookup_insert_is_Some. 
      destruct (decide (LayoutNil.id a = LayoutNil.id n)); auto. }
  intros Hn. apply H. by left.
Qed.

(** The edges drawn for the nodes pushed by [traverse], for a map that
    has all of them. *)
Lemma traverse_nodeEdges (nm : gmap Z LayoutNil.LayoutNode) n depth lb rb pid isLeft :
  LayoutNil.positiveIds n →
  (∀ p, pid = Some p → (0 < p)%Z) →
  (∀ x, x ∈ LayoutNil.traverse n depth lb rb pid isLeft →
        is_Some (nm !! LayoutNil.id x)) →
  LayoutNil.traverse n depth lb rb pid isLeft ≫= LayoutNil.nodeEdges nm
  = LayoutNil.preorder n ≫= LayoutNil.drawnEdges.
Proof.
  revert depth lb rb pid isLeft.
  induction n as [|nid v c l IHl r IHr ppid];
    intros depth lb rb pid isLeft Hpos Hpid Hnm.
  - simpl. destruct pid as [p|]; [|done]. simpl.
    unfold LayoutNil.nodeEdges. simpl.
    specialize (Hpid p eq_refl).
    rewrite bool_decide_eq_false_2; [done|].
    unfold LayoutNil.nilId. destruct isLeft; lia.
  - destruct Hpos as (Hnid & Hl & Hr).
    cbn [LayoutNil.traverse LayoutNil.preorder] in *.
    rewrite !bind_cons, !bind_app.
    rewrite IHl, IHr; first last.
    + intros x Hx. apply Hnm. set_solver.
    + by intros p [= <-].
    + done.
    + intros x Hx. apply Hnm. set_solver.
    + by intros p [= <-].
    + done.
    + f_equal. unfold LayoutNil.nodeEdges. cbn [LayoutNil.id].
      rewrite bool_decide_eq_true_2 by done.
      cbn [LayoutNil.leftId LayoutNil.rightId LayoutNil.drawnEdges].
      assert (Hside : ∀ child isL d a b,
        LayoutNil.positiveIds child →
        (∀ x, x ∈ LayoutNil.traverse child d a b (Some nid) isL →
              is_Some (nm !! LayoutNil.id x)) →
        LayoutNil.sideEdge nm
          (LayoutNil.mkLayoutNode nid (Some v) c
             ((lb + rb) / 2)%Q (inject_Z (50 + Z.of_nat depth * 60)) ppid
             (idOrNull l) (idOrNull r)) (idOrNull child) isL
        = [LayoutNil.mkEdge nid (LayoutNil.childOrNil nid child isL)]).
      { intros child isL d a b Hch Hin. unfold LayoutNil.sideEdge.
        destruct child as [|cid cv cc cl cr cp]; simpl.
        - rewrite bool_decide_eq_true_2; [done|].
          apply (Hin (LayoutNil.mkLayoutNode (LayoutNil.nilId nid isL) None
                        BLACK ((a + b) / 2)%Q
                        (inject_Z (50 + Z.of_nat d * 60)) (Some nid)
                        None None)).
          simpl. set_solver.
        - destruct Hch as (Hcid & _).
          rewrite bool_decide_eq_false_2 by lia. done. }
      erewrite (Hside l true), (Hside r false); [done | done | | done | ].
      * intros x Hx. apply Hnm. set_solver.
      * intros x Hx. apply Hnm. set_solver.
Qed.

(** C9, as the code has it: the in-order layout returns exactly the
    parent-to-child pairs, one edge per child that is not [null]; the
    layout that draws the NIL leaves returns, for a snapshot with positive
    ids, two edges per node: to each child, or to the NIL leaf
    [-(10 * id + 1)] or [-(10 * id + 2)] standing for a missing child. *)
Theorem computeTreeLayout_edges :
  (∀ root width height,
     LayoutPlain.edges (LayoutPlain.computeTreeLayout root width height)
     = LayoutPlain.inorder root ≫= LayoutPlain.childPairs) ∧
  (∀ root width height,
     LayoutNil.positiveIds root →
     LayoutNil.edges (LayoutNil.computeTreeLayout root width height)
     = LayoutNil.preorder root ≫= LayoutNil.drawnEdges).
Proof.
  split.
  - intros [|nid v c l r] width height; [done|].
    unfold LayoutPlain.computeTreeLayout.
    cbn [LayoutPlain.edges]. by rewrite traverse_edges.
  - intros [|nid v c l r pid] width height Hpos; [done|].
    unfold LayoutNil.computeTreeLayout. cbn [LayoutNil.edges].
    apply traverse_nodeEdges; [done | done |].
    intros x Hx. by apply nodeMap_has.
Qed.

Lemma computeTreeLayout_edges_witness :
  let root := mkRBNode 2 20 BLACK (mkRBNode 1 10 RED null null (Some 2%Z))
                       null None in
  LayoutNil.positiveIds root ∧
  LayoutNil.edges (LayoutNil.computeTreeLayout root 1000 500)
  = [LayoutNil.mkEdge 2 1; LayoutNil.mkEdge 2 (-22);
     LayoutNil.mkEdge 1 (-11); LayoutNil.mkEdge 1 (-12)].
Proof.
  intros root. split; [by vm_compute|].
  destruct computeTreeLayout_edges as [_ H].
  apply (H root 1000%Q 500%Q). by vm_compute.
Defined.

(** C9 as stated fails for the layout that draws the NIL leaves: below a
    single node with id 1 it returns an edge to [-11], which is the id of
    no child. *)
Lemma computeTreeLayout_nil_edge :
  ¬ (∀ root width height e,
       e ∈ LayoutNil.edges (LayoutNil.computeTreeLayout root width height) →
       LayoutNil.parentToChild root e).
Proof.
  intros H.
  destruct (H (mkRBNode 1 10 BLACK null null None) 1000%Q 500%Q
              (LayoutNil.mkEdge 1 (-11)))
    as (i & v & c & l & r & pid & Hin & _ & Hchild).
  - vm_compute. left.
  - simpl in Hin. apply list_elem_of_singleton in Hin.
    injection Hin as _ _ _ -> -> _. by destruct Hchild.
Qed.

(** ** The Red-Black engine *)

Section red_black.
Import RBTree.

Lemma noRedRed_node i k c l r :
  noRedRed (mkNode i k c l r) ↔
  (c = RED → color l = BLACK ∧ color r = BLACK) ∧ noRedRed l ∧ noRedRed r.
Proof.
  simpl. rewrite !andb_True. destruct c.
  - rewrite andb_True, !bool_decide_spec. tauto.
  - split; [intros [[_ ?] ?] | intros (_ & ? & ?)]; by split_and!.
Qed.

Lemma balanced_node i k c l r :
  balanced (mkNode i k c l r) ↔
  blackHeight l = blackHeight r ∧ balanced l ∧ balanced r.
Proof. simpl. rewrite !andb_True, bool_decide_spec. tauto. Qed.

Lemma color_not_RED (c : Color) : c ≠ RED → c = BLACK.
Proof. by destruct c. Qed.

Lemma color_RED_node t : color t = RED → ∃ i k l r, t = mkNode i k RED l r.
Proof. destruct t as [|i k c l r]; [done|]. simpl. intros ->. eauto. Qed.

Lemma plug_cons t c ctx : plug t (c :: ctx) = plug (plugOne t c) ctx.
Proof. done. Qed.

Lemma plug_app t ctx1 ctx2 : plug t (ctx1 ++ ctx2) = plug (plug t ctx1) ctx2.
Proof. apply foldl_app. Qed.

(** *** Keys *)

Lemma keys_plugOne t c :
  keys (plugOne t c) = keysBefore [c] ++ keys t ++ keysAfter [c].
Proof.
  unfold plugOne. destruct c as [[] i k col sib]; simpl.
  - by rewrite app_nil_r.
  - by rewrite app_nil_r, <- app_assoc.
Qed.

Lemma keys_plug t ctx :
  keys (plug t ctx) = keysBefore ctx ++ keys t ++ keysAfter ctx.
Proof.
  revert t. induction ctx as [|c ctx IH]; intros t.
  - simpl. by rewrite app_nil_r.
  - rewrite plug_cons, IH, keys_plugOne. simpl.
    destruct (side c); simpl; rewrite ?app_nil_r, <- ?app_assoc; simpl;
      by rewrite <- ?app_assoc.
Qed.

Lemma keys_plug_eq t t' ctx :
  keys t = keys t' → keys (plug t ctx) = keys (plug t' ctx).
Proof. intros E. by rewrite !keys_plug, E. Qed.

Lemma keys_setColor c t : keys (setColor c t) = keys t.
Proof. by destruct t. Qed.

Lemma keys_rotate s t : keys (rotate s t) = keys t.
Proof.
  destruct s, t as [|i k c [|li lk lc ll lr] [|ri rk rc rl rr]]; simpl;
    try done; by rewrite <- ?app_assoc.
Qed.

Lemma keys_onChild s f t :
  (∀ u, keys (f u) = keys u) → keys (onChild s f t) = keys t.
Proof. intros Hf. destruct t, s; simpl; by rewrite ?Hf. Qed.

Lemma keys_forceRootBlack t : keys (forceRootBlack t).2 = keys t.
Proof.
  unfold forceRootBlack. destruct (color t); simpl; [|done].
  apply keys_setColor.
Qed.

Lemma keys_insertFixup cur ctx :
  keys (insertFixup cur ctx).2 = keys (plug cur ctx).
Proof.
  remember (length ctx) as n eqn:Hn.
  revert cur ctx Hn. induction n as [n IH] using lt_wf_ind.
  intros cur [|p [|g rest]] Hn; simpl; [done|by destruct (ccolor p)|].
  destruct (ccolor p) eqn:Hp; [|done].
  destruct (color (sibling g)) eqn:Hu.
  - match goal with
    | |- context [insertFixup ?c rest] =>
        pose proof (IH (length rest) ltac:(simpl in Hn; lia) c rest eq_refl) as E;
        destruct (insertFixup c rest) as [evs t]
    end.
    simpl in *. rewrite E.
    apply keys_plug_eq.
    rewrite !keys_plugOne. simpl. unfold plugOne.
    destruct (side p), (side g); simpl; by rewrite ?keys_setColor.
  - case_bool_decide; simpl.
    + apply keys_plug_eq.
      by rewrite keys_rotate, keys_setColor,
        (keys_onChild _ _ _ (keys_setColor _)).
    + apply keys_plug_eq.
      by rewrite keys_rotate, keys_setColor,
        (keys_onChild _ _ _ (keys_setColor _)),
        (keys_onChild _ _ _ (keys_rotate _)).
Qed.

(** *** Colors and black counts along a path *)

Lemma blackHeight_plugOne t c :
  blackHeight (sibling c) = blackHeight t →
  blackHeight (plugOne t c)
  = blackHeight t + match ccolor c with BLACK => 1 | RED => 0 end.
Proof. unfold plugOne. destruct (side c); simpl; congruence. Qed.

Lemma plug_balanced t ctx :
  balanced t → ctxBalanced (blackHeight t) ctx → balanced (plug t ctx).
Proof.
  revert t. induction ctx as [|c ctx IH]; intros t Ht Hctx; [done|].
  destruct Hctx as (Hh & Hsib & Hrest).
  rewrite plug_cons. apply IH.
  - unfold plugOne. destruct (side c); apply balanced_node; auto.
  - by rewrite blackHeight_plugOne.
Qed.

Lemma plug_noRedRed t ctx :
  noRedRed t → ctxNoRedRed ctx → (color t = RED → headBlack ctx) →
  noRedRed (plug t ctx).
Proof.
  revert t. induction ctx as [|c ctx IH]; intros t Ht Hctx Hhead; [done|].
  destruct Hctx as (Hsib & Hred & Hrest).
  rewrite plug_cons. apply IH; [|done|].
  - assert (ccolor c = RED → color t = BLACK ∧ color (sibling c) = BLACK).
    { intros Hc. split; [|by apply Hred].
      apply color_not_RED. intros Ht'. specialize (Hhead Ht'). simpl in Hhead.
      congruence. }
    unfold plugOne. destruct (side c); apply noRedRed_node;
      (split_and!; [|done..]); intros Hc; destruct (H Hc); by split.
  - intros Hc. apply Hred. unfold plugOne in Hc. by destruct (side c).
Qed.

Lemma color_plug t ctx c :
  last ctx = Some c → color (plug t ctx) = ccolor c.
Proof.
  revert t. induction ctx as [|c' ctx IH]; intros t; [done|].
  rewrite plug_cons. destruct ctx as [|c'' ctx].
  - intros [= ->]. unfold plug, plugOne. simpl. by destruct (side c).
  - intros Hlast. apply IH. by rewrite last_cons_cons in Hlast.
Qed.

Lemma plug_rootBlack t ctx :
  ctxRootBlack ctx → (ctx = [] → color t = BLACK) → rootBlack (plug t ctx).
Proof.
  unfold ctxRootBlack, rootBlack. intros Hroot Hnil. apply bool_decide_spec.
  destruct (last ctx) as [c|] eqn:Hlast.
  - by rewrite (color_plug _ _ _ Hlast).
  - apply last_None in Hlast as ->. by apply Hnil.
Qed.

Lemma ctxRootBlack_cons c ctx :
  ctx ≠ [] → ctxRootBlack (c :: ctx) ↔ ctxRootBlack ctx.
Proof.
  intros Hne. unfold ctxRootBlack. destruct ctx as [|c' ctx]; [done|].
  by rewrite last_cons_cons.
Qed.

(** *** Descent *)

(** The descent keeps the tree and ends on a well-formed zipper. *)
Lemma descend_zipper key t ctx seen ctx' at_ :
  zipperOk t ctx → (ctx = [] → color t = BLACK) →
  descend key t ctx = (seen, (ctx', at_)) →
  zipperOk at_ ctx' ∧ plug at_ ctx' = plug t ctx ∧
  (ctx' = [] → color at_ = BLACK).
Proof.
  revert ctx seen. induction t as [|i k c l IHl r IHr]; intros ctx seen Hz Hroot.
  - simpl. by intros [= <- <- <-].
  - destruct Hz as (Hnrr & Hbal & Hcn & Hcb & Hhead & Hrb).
    apply noRedRed_node in Hnrr as (Hred & Hl & Hr).
    apply balanced_node in Hbal as (Hh & Hbl & Hbr).
    cbn [color blackHeight] in Hhead, Hroot, Hcb.
    simpl. case_bool_decide; [|case_bool_decide].
    + destruct (descend key l _) as [seen' res] eqn:Hd.
      intros [= <- ->]. eapply IHl in Hd as (Hz' & Hplug & Hroot').
      * done.
      * split_and!; [done | done | | | | ].
        -- simpl. split_and!; [done | | done].
           intros Hc. split; [by apply Hred | by apply Hhead].
        -- simpl. by split_and!.
        -- simpl. intros Hcl. apply color_not_RED.
           intros Hc. destruct (Hred Hc). congruence.
        -- destruct ctx; [|by apply ctxRootBlack_cons].
           unfold ctxRootBlack. simpl. by apply Hroot.
      * done.
    + destruct (descend key r _) as [seen' res] eqn:Hd.
      intros [= <- ->]. eapply IHr in Hd as (Hz' & Hplug & Hroot').
      * done.
      * split_and!; [done | done | | | | ].
        -- simpl. split_and!; [done | | done].
           intros Hc. split; [by apply Hred | by apply Hhead].
        -- simpl. split_and!; [done | done |]. by rewrite <- Hh.
        -- simpl. intros Hcl. apply color_not_RED.
           intros Hc. destruct (Hred Hc). congruence.
        -- destruct ctx; [|by apply ctxRootBlack_cons].
           unfold ctxRootBlack. simpl. by apply Hroot.
      * done.
    + intros [= <- <- <-]. split_and!; [|done|done].
      split_and!; [by apply noRedRed_node | by apply balanced_node | done..].
Qed.

(** *** Insert fixup *)

Lemma noRedRed_setColor_BLACK t : noRedRed t → noRedRed (setColor BLACK t).
Proof.
  destruct t as [|i k c l r]; [done|]. cbn [setColor].
  rewrite !noRedRed_node. intros (_ & ? & ?). by split_and!.
Qed.

Lemma balanced_setColor c t : balanced (setColor c t) = balanced t.
Proof. by destruct t. Qed.

Lemma blackHeight_setColor_BLACK t :
  color t = RED → blackHeight (setColor BLACK t) = blackHeight t + 1.
Proof. destruct t as [|i k c l r]; [done|]. simpl. intros ->. lia. Qed.

(** Cases B and C turn the subtree below the grandparent into a
    well-formed subtree with a BLACK root and the same black count. *)
Lemma insert_rotation_ok cur p g :
  color cur = RED → noRedRed cur → balanced cur →
  ccolor p = RED → ccolor g = BLACK →
  color (sibling p) = BLACK → color (sibling g) = BLACK →
  noRedRed (sibling p) → noRedRed (sibling g) →
  balanced (sibling p) → balanced (sibling g) →
  blackHeight (sibling p) = blackHeight cur →
  blackHeight (sibling g) = blackHeight cur →
  let G0 := plugOne (plugOne cur p) g in
  let G1 := if bool_decide (side p = side g) then G0
            else onChild (side g) (rotate (side g)) G0 in
  let G3 := rotate (opposite (side g))
              (setColor RED (onChild (side g) (setColor BLACK) G1)) in
  color G3 = BLACK ∧ noRedRed G3 ∧ balanced G3 ∧
  blackHeight G3 = blackHeight cur + 1.
Proof.
  intros Hcur Hnrr Hbal Hp Hg Hps Hgs Hnp Hng Hbp Hbg Hhp Hhg.
  apply color_RED_node in Hcur as (ci & ck & cl & cr & ->).
  apply noRedRed_node in Hnrr as (Hkids & Hnl & Hnr).
  destruct (Hkids eq_refl) as [Hcl Hcr].
  apply balanced_node in Hbal as (Hh & Hbl & Hbr).
  destruct p as [sp pi pk pc ps], g as [sg gi gk gc gs].
  simpl in *. subst pc gc.
  destruct sp, sg; cbn -[noRedRed balanced];
    rewrite ?noRedRed_node, ?balanced_node; simpl;
    (split_and!; try done; try lia; try congruence);
    apply bool_decide_spec; (done || lia).
Qed.

(** Case A leaves below the grandparent a RED node with BLACK children,
    one black count higher. *)
Lemma insert_recolor_ok cur p g :
  noRedRed cur → balanced cur →
  ccolor p = RED → ccolor g = BLACK →
  color (sibling g) = RED →
  noRedRed (sibling p) → noRedRed (sibling g) →
  balanced (sibling p) → balanced (sibling g) →
  blackHeight (sibling p) = blackHeight cur →
  blackHeight (sibling g) = blackHeight cur →
  let p' := mkCrumb (side p) (cid p) (ckey p) BLACK (sibling p) in
  let g' := mkCrumb (side g) (cid g) (ckey g) RED (setColor BLACK (sibling g)) in
  let cur' := plugOne (plugOne cur p') g' in
  color cur' = RED ∧ noRedRed cur' ∧ balanced cur' ∧
  blackHeight cur' = blackHeight cur + 1.
Proof.
  intros Hnrr Hbal Hp Hg Hgs Hnp Hng Hbp Hbg Hhp Hhg.
  apply color_RED_node in Hgs as (ui & uk & ul & ur & Hu).
  destruct p as [sp pi pk pc ps], g as [sg gi gk gc gs].
  simpl in *. subst pc gc gs.
  apply noRedRed_node in Hng as (_ & Hnul & Hnur).
  apply balanced_node in Hbg as (Hhu & Hbul & Hbur).
  simpl in Hhg.
  destruct sp, sg; cbn -[noRedRed balanced];
    rewrite ?noRedRed_node, ?balanced_node; simpl;
    (split_and!; try done; try lia; try congruence).
Qed.

Lemma insertFixup_ok cur ctx :
  color cur = RED → noRedRed cur → balanced cur →
  ctxNoRedRed ctx → ctxBalanced (blackHeight cur) ctx → ctxRootBlack ctx →
  noRedRed (insertFixup cur ctx).2 ∧ balanced (insertFixup cur ctx).2.
Proof.
  remember (length ctx) as n eqn:Hn.
  revert cur ctx Hn. induction n as [n IH] using lt_wf_ind.
  intros cur ctx Hn Hcur Hnrr Hbal Hcn Hcb Hroot.
  assert (Hplug : headBlack ctx →
                  noRedRed (plug cur ctx) ∧ balanced (plug cur ctx)).
  { intros Hhead. split; [by apply plug_noRedRed | by apply plug_balanced]. }
  destruct ctx as [|p [|g rest]].
  - done.
  - simpl. destruct (ccolor p) eqn:Hp; [|by apply Hplug].
    unfold ctxRootBlack in Hroot. simpl in Hroot. congruence.
  - cbn [insertFixup]. destruct (ccolor p) eqn:Hp; [|by apply Hplug].
    clear Hplug.
    destruct Hcn as (Hnp & Hpred & Hng & Hgred & Hcn).
    destruct (Hpred Hp) as [Hps Hg]. simpl in Hg.
    destruct Hcb as (Hhp & Hbp & Hhg & Hbg & Hcb).
    rewrite Hp, Hg in *. rewrite Nat.add_0_r in *.
    assert (Hroot' : ctxRootBlack rest).
    { destruct rest as [|c' rest]; [done|].
      do 2 (apply ctxRootBlack_cons in Hroot; [|done]). done. }
    destruct (color (sibling g)) eqn:Hgs.
    + pose proof (insert_recolor_ok cur p g Hnrr Hbal Hp Hg Hgs
                    Hnp Hng Hbp Hbg Hhp Hhg) as Hrec.
      cbv zeta in Hrec. destruct Hrec as (Hc1 & Hn1 & Hb1 & Hh1).
      match goal with
      | |- context [insertFixup ?c rest] =>
          destruct (IH (length rest) ltac:(simpl in Hn; lia) c rest eq_refl)
            as [H1 H2];
          [done | done | done | done | by rewrite Hh1 | done |];
          destruct (insertFixup c rest) as [evs t]; by simpl in *
      end.
    + pose proof (insert_rotation_ok cur p g Hcur Hnrr Hbal Hp Hg Hps Hgs
                    Hnp Hng Hbp Hbg Hhp Hhg) as Hrot.
      cbv zeta in Hrot.
      case_bool_decide; cbn [snd];
        destruct Hrot as (Hc3 & Hn3 & Hb3 & Hh3).
      * split; [apply plug_noRedRed | apply plug_balanced];
          try done; [congruence | by rewrite Hh3].
      * split; [apply plug_noRedRed | apply plug_balanced];
          try done; [congruence | by rewrite Hh3].
Qed.

(** *** Order *)

Lemma increasing_spec l : increasing l ↔ StronglySorted Z.lt l.
Proof.
  induction l as [|a [|b l] IH].
  - simpl. split; [constructor | done].
  - simpl. split; [|done]. intros _. by repeat constructor.
  - change (increasing (a :: b :: l))
      with (bool_decide (a < b)%Z && increasing (b :: l)).
    rewrite andb_True, bool_decide_spec, IH, !StronglySorted_cons.
    rewrite !Forall_cons. split.
    + intros (Hab & Hb & Hl). split_and!; [done | | done | done].
      eapply Forall_impl; [exact Hb|]. intros x Hx. simpl in Hx. lia.
    + intros ((Hab & Hb) & Hb' & Hl). by split_and!.
Qed.

(** The descent keeps [key] between the keys on either side of the
    path. *)
Lemma descend_bounds key t ctx seen ctx' at_ :
  StronglySorted Z.lt (keysBefore ctx ++ keys t ++ keysAfter ctx) →
  Forall (λ x, x < key)%Z (keysBefore ctx) →
  Forall (λ x, key < x)%Z (keysAfter ctx) →
  descend key t ctx = (seen, (ctx', at_)) →
  Forall (λ x, x < key)%Z (keysBefore ctx') ∧
  Forall (λ x, key < x)%Z (keysAfter ctx').
Proof.
  revert ctx seen. induction t as [|i k c l IHl r IHr]; intros ctx seen Hs Hlo Hhi.
  - simpl. by intros [= <- <- <-].
  - cbn [keys] in Hs. rewrite <- app_assoc in Hs. cbn [app] in Hs.
    pose proof Hs as Hs'.
    rewrite !StronglySorted_app, StronglySorted_cons in Hs'.
    destruct Hs' as (_ & _ & Hlk & _ & (Hk & _)).
    rewrite Forall_app in Hk. destruct Hk as [Hkr _].
    rewrite Forall_forall in Hkr.
    simpl. case_bool_decide; [|case_bool_decide].
    + destruct (descend key l _) as [seen' res] eqn:Hd.
      intros [= <- ->]. eapply IHl in Hd; [done | | |]; simpl.
      * done.
      * done.
      * constructor; [done|]. apply Forall_app. split; [|done].
        apply Forall_forall. intros x Hx. specialize (Hkr x Hx). lia.
    + destruct (descend key r _) as [seen' res] eqn:Hd.
      intros [= <- ->]. eapply IHr in Hd; [done | | |]; simpl.
      * rewrite <- !app_assoc. by cbn [app].
      * rewrite !Forall_app. split_and!; [done | | by repeat constructor].
        apply Forall_forall. intros x Hx.
        assert (x < k)%Z; [|lia]. apply Hlk; [done | set_solver].
      * done.
    + by intros [= <- <- <-].
Qed.

Lemma descend_finds key t ctx seen ctx' at_ :
  StronglySorted Z.lt (keys t) → key ∈ keys t →
  descend key t ctx = (seen, (ctx', at_)) →
  ∃ i c l r, at_ = mkNode i key c l r.
Proof.
  revert ctx seen. induction t as [|i k c l IHl r IHr]; intros ctx seen Hs Hin.
  - by apply elem_of_nil in Hin.
  - simpl in *. apply StronglySorted_app in Hs as (Hlt & Hsl & Hsr).
    apply StronglySorted_cons in Hsr as (Hgt & Hsr).
    rewrite Forall_forall in Hgt.
    apply elem_of_app in Hin as [Hin|Hin]; [|apply elem_of_cons in Hin as [->|Hin]].
    + assert (key < k)%Z by (apply Hlt; [done | set_solver]).
      rewrite bool_decide_eq_true_2 by done.
      destruct (descend key l _) as [seen' res] eqn:Hd.
      intros [= <- ->]. by eapply IHl.
    + rewrite !bool_decide_eq_false_2 by lia. intros [= <- <- <-]. eauto.
    + assert (k < key)%Z by (by apply Hgt).
      rewrite bool_decide_eq_false_2, bool_decide_eq_true_2 by lia.
      destruct (descend key r _) as [seen' res] eqn:Hd.
      intros [= <- ->]. by eapply IHr.
Qed.


(** *** Insert *)

Lemma forceRootBlack_ok t :
  noRedRed t → balanced t →
  rootBlack (forceRootBlack t).2 ∧ noRedRed (forceRootBlack t).2 ∧
  balanced (forceRootBlack t).2.
Proof.
  intros Hn Hb. unfold forceRootBlack, rootBlack.
  destruct (color t) eqn:Hc; simpl.
  - split_and!; [|by apply noRedRed_setColor_BLACK|by rewrite balanced_setColor].
    apply bool_decide_spec. apply color_RED_node in Hc as (?&?&?&?&->). done.
  - split_and!; [by apply bool_decide_spec | done | done].
Qed.

(** *** Black counts of paths *)

Lemma blackHeight_path t : blackHeight t ∈ pathBlacks t.
Proof.
  induction t as [|i k c l IHl r _]; simpl; [set_solver|].
  apply list_elem_of_fmap. exists (blackHeight l). split; [done|].
  apply elem_of_app. by left.
Qed.

Lemma balanced_paths t n :
  balanced t → n ∈ pathBlacks t → n = blackHeight t.
Proof.
  revert n. induction t as [|i k c l IHl r IHr]; intros n Hb Hn.
  - simpl in Hn. by apply list_elem_of_singleton in Hn.
  - apply balanced_node in Hb as (Hh & Hl & Hr).
    cbn [pathBlacks blackHeight] in *.
    apply list_elem_of_fmap in Hn as (m & -> & Hm).
    apply elem_of_app in Hm as [Hm|Hm].
    + by rewrite (IHl m).
    + by rewrite (IHr m), Hh.
Qed.

(** [balanced] decides (d). *)
Lemma balanced_spec t : balanced t ↔ equalPaths t.
Proof.
  split.
  - induction t as [|i k c l IHl r IHr]; intros Hb u Hu a b Ha Hb'.
    + apply list_elem_of_singleton in Hu as ->.
      simpl in *. set_solver.
    + cbn [subtrees] in Hu.
      apply elem_of_cons in Hu as [->|Hu].
      * by rewrite (balanced_paths _ a Hb), (balanced_paths _ b Hb).
      * apply balanced_node in Hb as (_ & Hl & Hr).
        apply elem_of_app in Hu as [Hu|Hu]; [by eapply IHl | by eapply IHr].
  - induction t as [|i k c l IHl r IHr]; intros Heq; [done|].
    assert (Hl : balanced l).
    { apply IHl. intros u Hu. apply Heq. cbn [subtrees]. set_solver. }
    assert (Hr : balanced r).
    { apply IHr. intros u Hu. apply Heq. cbn [subtrees]. set_solver. }
    apply balanced_node. split_and!; [|done..].
    set (d := match c with BLACK => 1 | RED => 0 end).
    assert (blackHeight l + d = blackHeight r + d); [|lia].
    apply (Heq (mkNode i k c l r)); [cbn [subtrees]; set_solver|..];
      cbn [pathBlacks]; apply list_elem_of_fmap.
    + exists (blackHeight l). split; [done|].
      apply elem_of_app. left. apply blackHeight_path.
    + exists (blackHeight r). split; [done|].
      apply elem_of_app. right. apply blackHeight_path.
Qed.

Lemma descend_plug key t ctx seen ctx' at_ :
  descend key t ctx = (seen, (ctx', at_)) → plug at_ ctx' = plug t ctx.
Proof.
  revert ctx seen. induction t as [|i k c l IHl r IHr]; intros ctx seen.
  - simpl. by intros [= <- <- <-].
  - simpl. case_bool_decide; [|case_bool_decide].
    + destruct (descend key l _) as [seen' res] eqn:Hd.
      intros [= <- ->]. by apply IHl in Hd.
    + destruct (descend key r _) as [seen' res] eqn:Hd.
      intros [= <- ->]. by apply IHr in Hd.
    + by intros [= <- <- <-].
Qed.

(** One insertion keeps the keys in order. *)
Lemma insertCore_increasing key t newId :
  StronglySorted Z.lt (keys t) →
  StronglySorted Z.lt (keys (insertCore key t newId).1.2).
Proof.
  intros Hinc. unfold insertCore.
  destruct (descend key t []) as [seen [ctx at_]] eqn:Hd.
  destruct at_ as [|i k c l r]; [|done].
  pose proof (descend_plug _ _ _ _ _ _ Hd) as Hplug.
  destruct (descend_bounds key t [] seen ctx NIL) as [Hlo Hhi];
    [by rewrite app_nil_r | done | done | done |].
  set (z := mkNode newId key RED NIL NIL).
  pose proof (keys_insertFixup z ctx) as Hk2.
  destruct (insertFixup z ctx) as [evFix t2]. simpl in *.
  pose proof (keys_forceRootBlack t2) as Hk3.
  destruct (forceRootBlack t2) as [evRoot t3]. simpl in *.
  rewrite Hk3, Hk2, keys_plug. simpl.
  rewrite <- Hplug, keys_plug in Hinc. simpl in Hinc.
  apply StronglySorted_app in Hinc as (Hlt & Hs1 & Hs2).
  rewrite Forall_forall in Hlo, Hhi.
  apply StronglySorted_app. split_and!; [|done|].
  - intros x1 x2 Hx1 [->|Hx2]%elem_of_cons; [by apply Hlo | by apply Hlt].
  - apply StronglySorted_cons. by rewrite Forall_forall.
Qed.

(** One insertion keeps the five invariants. *)
Lemma insertCore_invariants key t newId :
  invariants t → invariants (insertCore key t newId).1.2.
Proof.
  intros (Hroot & Hnil & Hnrr & Hbal & Hinc).
  apply balanced_spec in Hbal.
  apply increasing_spec in Hinc.
  pose proof (insertCore_increasing key t newId Hinc) as Hinc'.
  apply increasing_spec in Hinc'.
  unfold insertCore in *.
  destruct (descend key t []) as [seen [ctx at_]] eqn:Hd.
  destruct at_ as [|i k c l r].
  2: { split_and!; [done | done | done | by apply balanced_spec | done]. }
  assert (Hz : zipperOk t []).
  { unfold zipperOk, ctxRootBlack. simpl. by split_and!. }
  assert (Hrt : @nil Crumb = [] → color t = BLACK).
  { intros _. by apply bool_decide_spec in Hroot. }
  destruct (descend_zipper _ _ _ _ _ _ Hz Hrt Hd)
    as ((_ & _ & Hcn & Hcb & _ & Hcr) & _ & _).
  set (z := mkNode newId key RED NIL NIL) in *.
  destruct (insertFixup_ok z ctx) as [Hn2 Hb2]; [done..|].
  destruct (insertFixup z ctx) as [evFix t2]. simpl in *.
  destruct (forceRootBlack_ok t2 Hn2 Hb2) as (Hr3 & Hn3 & Hb3).
  destruct (forceRootBlack t2) as [evRoot t3]. simpl in *.
  split_and!; [done | done | done | by apply balanced_spec | done].
Qed.

(** *** The step log *)

Lemma record_steps st e :
  ∃ s, steps (record st e) = steps st ++ [s] ∧ records s e ∧
       nextNodeId (record st e) = nextNodeId st.
Proof.
  unfold record.
  destruct (currentOperation st); simpl;
    (eexists; split_and!; [done | by unfold records | done]).
Qed.

Lemma foldl_record_steps st evs :
  ∃ new, steps (foldl record st evs) = steps st ++ new ∧
         Forall2 records new evs ∧
         nextNodeId (foldl record st evs) = nextNodeId st.
Proof.
  revert st. induction evs as [|e evs IH]; intros st; simpl.
  - exists []. by rewrite app_nil_r.
  - destruct (record_steps st e) as (s & Hs & Hrec & Hid).
    destruct (IH (record st e)) as (new & Hnew & Hall & Hid').
    exists (s :: new). rewrite Hnew, Hs, <- app_assoc.
    split_and!; [done | by constructor | congruence].
Qed.

(** What a facade call leaves: the log grows by one step per event, the
    call returns exactly those steps, and the tree is the one the engine
    produced. *)
Lemma facade_steps ty key st evs t nid :
  let st4 := leave st (setTree t nid (foldl record (enter ty key st) evs)) in
  ∃ new, steps st4 = steps st ++ new ∧ newSteps st st4 = new ∧
         Forall2 records new evs ∧ root st4 = t ∧ nextNodeId st4 = nid.
Proof.
  intros st4.
  destruct (foldl_record_steps (enter ty key st) evs) as (new & Hnew & Hall & _).
  assert (Hent : steps (enter ty key st) = steps st).
  { unfold enter. by destruct (currentOperation st). }
  assert (Hst4 : steps st4 = steps st ++ new).
  { unfold st4, leave. rewrite <- Hent, <- Hnew.
    by destruct (currentOperation st). }
  exists new. split_and!; [done | | done | | ].
  - unfold newSteps. rewrite Hst4. apply drop_app_length.
  - unfold st4, leave. by destruct (currentOperation st).
  - unfold st4, leave. by destruct (currentOperation st).
Qed.

Lemma root_enter ty key st : root (enter ty key st) = root st.
Proof. unfold enter. by destruct (currentOperation st). Qed.

Lemma nextNodeId_enter ty key st :
  nextNodeId (enter ty key st) = nextNodeId st.
Proof. unfold enter. by destruct (currentOperation st). Qed.

Lemma insert_spec key st :
  ∃ new,
    let '(evs, t, created) := insertCore key (root st) (nextNodeId st) in
    insert key st = (new, (insert key st).2) ∧
    steps (insert key st).2 = steps st ++ new ∧
    Forall2 records new evs ∧
    root (insert key st).2 = t ∧
    nextNodeId (insert key st).2
    = (if created then nextNodeId st + 1 else nextNodeId st)%Z.
Proof.
  unfold insert. rewrite root_enter, nextNodeId_enter.
  destruct (insertCore key (root st) (nextNodeId st)) as [[evs t] created].
  match goal with
  | |- context [setTree t ?nid _] =>
      destruct (facade_steps "INSERT" key st evs t nid)
        as (new & Hsteps & Hnew & Hall & Hroot & Hnid)
  end.
  exists new. cbn [fst snd]. rewrite Hnew.
  split_and!; [done..|].
  rewrite Hnid.
  destruct (foldl_record_steps (enter "INSERT" key st) evs) as (_ & _ & _ & ->).
  by rewrite nextNodeId_enter.
Qed.

Lemma delete_spec key st :
  ∃ new,
    let '(evs, t) := deleteCore key (root st) in
    delete key st = (new, (delete key st).2) ∧
    steps (delete key st).2 = steps st ++ new ∧
    Forall2 records new evs ∧
    root (delete key st).2 = t.
Proof.
  unfold delete. rewrite root_enter.
  destruct (deleteCore key (root st)) as [evs t].
  match goal with
  | |- context [setTree t ?nid _] =>
      destruct (facade_steps "DELETE" key st evs t nid)
        as (new & Hsteps & Hnew & Hall & Hroot & Hnid)
  end.
  exists new. cbn [fst snd]. by rewrite Hnew.
Qed.

Lemma search_spec key st :
  ∃ new,
    search key st = (new, (search key st).2) ∧
    steps (search key st).2 = steps st ++ new ∧
    Forall2 records new (searchCore key (root st)) ∧
    root (search key st).2 = root st.
Proof.
  unfold search. rewrite root_enter.
  match goal with
  | |- context [setTree ?t ?nid (foldl record _ ?evs)] =>
      destruct (facade_steps "SEARCH" key st evs t nid)
        as (new & Hsteps & Hnew & Hall & Hroot & Hnid)
  end.
  exists new. cbn [fst snd]. by rewrite Hnew.
Qed.

Lemma root_insert key st :
  root (insert key st).2 = (insertCore key (root st) (nextNodeId st)).1.2.
Proof.
  destruct (insert_spec key st) as (new & H).
  destruct (insertCore key (root st) (nextNodeId st)) as [[evs t] created].
  by destruct H as (_ & _ & _ & -> & _).
Qed.

Lemma insert_keeps_invariants key st :
  invariants (root st) → invariants (root (insert key st).2).
Proof. intros H. rewrite root_insert. by apply insertCore_invariants. Qed.

Lemma mutate_steps st mu : steps st `prefix_of` steps (mutate st mu).
Proof.
  destruct mu as [k|k]; simpl.
  - destruct (insert_spec k st) as (new & H).
    destruct (insertCore k (root st) (nextNodeId st)) as [[evs t] created].
    destruct H as (_ & -> & _). by apply prefix_app_r.
  - destruct (delete_spec k st) as (new & H).
    destruct (deleteCore k (root st)) as [evs t].
    destruct H as (_ & -> & _). by apply prefix_app_r.
Qed.

Lemma mutateAll_steps mus st : steps st `prefix_of` steps (mutateAll mus st).
Proof.
  revert st. induction mus as [|mu mus IH]; intros st; [done|].
  simpl. etrans; [apply mutate_steps | apply IH].
Qed.

(** The last step of a call records its last event. *)
Lemma records_last new evs e :
  Forall2 records new evs → last evs = Some e →
  ∃ s, last new = Some s ∧ records s e.
Proof.
  intros Hall Hlast. apply last_Some in Hlast as [evs' ->].
  apply Forall2_app_inv_r in Hall as (new' & l & _ & Hl & ->).
  apply Forall2_cons_inv_r in Hl as (s & l' & Hs & Hnil & ->).
  apply Forall2_nil_inv_r in Hnil as ->.
  exists s. by rewrite last_snoc.
Qed.


(** A key that is present: the engine records FOUND and changes nothing. *)
Lemma insertCore_present key t newId :
  StronglySorted Z.lt (keys t) → key ∈ keys t →
  ∃ evs i,
    insertCore key t newId
    = (evs ++ [mkEvent FOUND "already present" [i] None NIL t], t, false).
Proof.
  intros Hs Hin. unfold insertCore.
  destruct (descend key t []) as [seen [ctx at_]] eqn:Hd.
  destruct (descend_finds _ _ _ _ _ _ Hs Hin Hd) as (i & c & l & r & ->).
  eauto.
Qed.



(** *** Delete keeps the order *)

Lemma keysBefore_app a b : keysBefore (a ++ b) = keysBefore b ++ keysBefore a.
Proof.
  induction a as [|c a IH]; simpl; [by rewrite app_nil_r|].
  destruct (side c); simpl; [done|]. by rewrite IH, <- !app_assoc.
Qed.

Lemma keysAfter_app a b : keysAfter (a ++ b) = keysAfter a ++ keysAfter b.
Proof.
  induction a as [|c a IH]; simpl; [done|].
  destruct (side c); simpl; [|done]. by rewrite IH, <- !app_assoc.
Qed.

Lemma keys_blacken x ctx : keys (blacken x ctx).2 = keys (plug x ctx).
Proof.
  unfold blacken. destruct (color x); simpl; [|done].
  apply keys_plug_eq, keys_setColor.
Qed.

Lemma keys_child s t :
  t ≠ NIL →
  keys t = match s with
           | L => keys (child L t)
                  ++ match t with mkNode _ k _ _ _ => k | NIL => 0%Z end
                  :: keys (child R t)
           | R => keys (child L t)
                  ++ match t with mkNode _ k _ _ _ => k | NIL => 0%Z end
                  :: keys (child R t)
           end.
Proof. destruct t, s; done. Qed.

(** Cases 2 to 4 rearrange the subtree below the parent. *)
Lemma keys_blackSiblingCases x p rest :
  match (blackSiblingCases x p rest).2 with
  | MoveUp x' => keys x' = keys (plugOne x p)
  | Finished t => keys t = keys (plug x (p :: rest))
  end.
Proof.
  unfold blackSiblingCases.
  assert (Hp : ∀ c v, keys v = keys (sibling p) →
            keys (plugOne x (mkCrumb (side p) (cid p) (ckey p) c v))
            = keys (plugOne x p)).
  { intros c v Hv. rewrite !keys_plugOne. simpl.
    destruct (side p); simpl; by rewrite Hv. }
  assert (Hw1 : ∀ s c, keys (setColor c (onChild s (setColor BLACK) (sibling p)))
                       = keys (sibling p)).
  { intros s c.
    by rewrite keys_setColor, (keys_onChild _ _ _ (keys_setColor _)). }
  destruct (color (child (side p) (sibling p))),
    (color (child (opposite (side p)) (sibling p))); cbn [snd].
  - rewrite plug_cons. apply keys_plug_eq.
    rewrite keys_rotate. apply Hp. apply Hw1.
  - rewrite plug_cons. apply keys_plug_eq.
    rewrite keys_rotate. apply Hp.
    by rewrite keys_setColor, (keys_onChild _ _ _ (keys_setColor _)),
      keys_rotate, Hw1.
  - rewrite plug_cons. apply keys_plug_eq.
    rewrite keys_rotate. apply Hp. apply Hw1.
  - apply Hp, keys_setColor.
Qed.

Lemma keys_finish evs o continue target :
  match o with
  | MoveUp x' => keys (continue x').2 = target
  | Finished t => keys t = target
  end →
  keys (finish evs o continue).2 = target.
Proof.
  destruct o as [x'|t]; simpl.
  - by destruct (continue x').
  - intros <-. pose proof (keys_blacken t []) as Hb.
    by destruct (blacken t []).
Qed.

Lemma keys_deleteFixup x ctx :
  keys (deleteFixup x ctx).2 = keys (plug x ctx).
Proof.
  revert x. induction ctx as [|p rest IH]; intros x.
  - apply keys_blacken.
  - cbn [deleteFixup]. destruct (color x); [apply keys_blacken|].
    assert (Hblack :
      keys (let '(evs, o) := blackSiblingCases x p rest in
            finish evs o (λ x', deleteFixup x' rest)).2
      = keys (plug x (p :: rest))).
    { pose proof (keys_blackSiblingCases x p rest) as Hk.
      destruct (blackSiblingCases x p rest) as [evs o].
      apply keys_finish. destruct o as [x'|t]; simpl in *; [|done].
      rewrite IH. by apply keys_plug_eq. }
    destruct (sibling p) as [|wi wk [] wl wr] eqn:Hw; [done | | done].
    match goal with
    | |- context [blackSiblingCases x ?pR (?wB :: rest)] =>
        pose proof (keys_blackSiblingCases x pR (wB :: rest)) as Hk;
        destruct (blackSiblingCases x pR (wB :: rest)) as [evs o];
        apply keys_finish; destruct o as [x'|t]; simpl in Hk |- *;
        [rewrite keys_blacken, (keys_plug_eq _ _ _ Hk) | rewrite Hk]
    end.
    all: rewrite !keys_plug, ?keys_plugOne; simpl;
      destruct (side p) eqn:Hs; simpl; rewrite ?Hw; simpl;
      rewrite ?app_nil_r, <- ?app_assoc; simpl;
      rewrite <- ?app_assoc; try done.
Qed.

Lemma minimum_spec t ctx ctx' y :
  t ≠ NIL → minimum t ctx = (ctx', y) →
  ∃ yi yk yc yr,
    y = mkNode yi yk yc NIL yr ∧
    keysBefore ctx' = keysBefore ctx ∧
    keys t ++ keysAfter ctx = yk :: keys yr ++ keysAfter ctx'.
Proof.
  revert ctx. induction t as [|i k c l IHl r _]; intros ctx Hne; [done|].
  cbn [minimum]. destruct l as [|li lk lc ll lr].
  - intros [= <- <-]. by eexists _, _, _, _.
  - intros Hmin. apply IHl in Hmin as (yi & yk & yc & yr & -> & Hb & Ha);
      [|done].
    eexists _, _, _, _. split_and!; [done | done |].
    rewrite <- Ha. cbn [keys keysAfter side ckey sibling].
    by rewrite <- !app_assoc.
Qed.

(** Name the outcome of the fixup in the goal and rewrite its keys with
    [Hfix]. *)
Local Ltac del_fix Hfix :=
  match goal with
  | |- context [match ?c with BLACK => deleteFixup ?x ?cx | RED => _ end] =>
      let Hk := fresh "Hk" in
      pose proof (Hfix x cx c) as Hk;
      destruct (match c with BLACK => deleteFixup x cx | RED => _ end)
        as [? ?]; cbn [fst snd] in Hk |- *; rewrite Hk
  end.

(** [delete] leaves the keys as they are, or takes one out. *)
Lemma keys_deleteCore key t :
  keys (deleteCore key t).2 = keys t ∨
  ∃ l1 z l2, keys t = l1 ++ z :: l2 ∧ keys (deleteCore key t).2 = l1 ++ l2.
Proof.
  unfold deleteCore.
  destruct (descend key t []) as [seen [ctx at_]] eqn:Hd.
  apply descend_plug in Hd. simpl in Hd. subst t.
  destruct at_ as [|zi zk zc zl zr]; [by left|]. right.
  assert (Hfix : ∀ x ctxx removed,
    keys (match removed with
          | BLACK => deleteFixup x ctxx
          | RED => ([], plug x ctxx)
          end).2 = keys (plug x ctxx)).
  { intros x ctxx []; [done | apply keys_deleteFixup]. }
  destruct zl as [|li lk lc ll lr].
  { exists (keysBefore ctx), zk, (keys zr ++ keysAfter ctx).
    split; [by rewrite keys_plug|].
    cbv beta iota. del_fix Hfix. by rewrite keys_plug. }
  destruct zr as [|ri rk rc rl rr].
  { exists (keysBefore ctx ++ keys (mkNode li lk lc ll lr)), zk, (keysAfter ctx).
    split; [rewrite keys_plug; cbn [keys]; by rewrite <- !app_assoc|].
    cbv beta iota. del_fix Hfix. by rewrite keys_plug, <- !app_assoc. }
  destruct (minimum (mkNode ri rk rc rl rr) []) as [ctxy y] eqn:Hmin.
  apply minimum_spec in Hmin as (yi & yk & yc & yr & -> & Hb & Ha); [|done].
  simpl in Hb. rewrite app_nil_r in Ha.
  set (zl := mkNode li lk lc ll lr) in *.
  set (zr := mkNode ri rk rc rl rr) in *.
  exists (keysBefore ctx ++ keys zl), zk, (keys zr ++ keysAfter ctx).
  split.
  { rewrite keys_plug. cbn [keys]. by rewrite <- !app_assoc. }
  cbv beta iota. del_fix Hfix.
  rewrite keys_plug, keysBefore_app, keysAfter_app, Hb, Ha.
  simpl. by rewrite <- !app_assoc.
Qed.

Lemma StronglySorted_remove (l1 l2 : list Z) z :
  StronglySorted Z.lt (l1 ++ z :: l2) → StronglySorted Z.lt (l1 ++ l2).
Proof.
  rewrite !StronglySorted_app, StronglySorted_cons.
  intros (Hlt & H1 & _ & H2). split_and!; [|done..].
  intros x1 x2 Hx1 Hx2. apply Hlt; [done | set_solver].
Qed.

Lemma deleteCore_increasing key t :
  StronglySorted Z.lt (keys t) →
  StronglySorted Z.lt (keys (deleteCore key t).2).
Proof.
  intros Hs. destruct (keys_deleteCore key t) as [->|(l1 & z & l2 & Ht & ->)];
    [done|].
  rewrite Ht in Hs. by eapply StronglySorted_remove.
Qed.

Lemma root_delete key st :
  root (delete key st).2 = (deleteCore key (root st)).2.
Proof.
  destruct (delete_spec key st) as (new & H).
  destruct (deleteCore key (root st)) as [evs t].
  by destruct H as (_ & _ & _ & ->).
Qed.

(** Every state of an engine holds its keys in increasing order. *)
Lemma reachable_increasing st :
  reachable st → StronglySorted Z.lt (keys (root st)).
Proof.
  induction 1 as [|k st _ IH|k st _ IH|k st _ IH|ty ks st _ IH|st _ IH|st _ IH].
  - constructor.
  - rewrite root_insert. by apply insertCore_increasing.
  - rewrite root_delete. by apply deleteCore_increasing.
  - by destruct (search_spec k st) as (new & _ & _ & _ & ->).
  - done.
  - done.
  - constructor.
Qed.

End red_black.

(** C1: starting from an empty tree, after every call of a sequence of
    [insert] calls the live tree satisfies the five invariants: the root is
    BLACK or the tree is empty, NIL is BLACK, no RED node has a RED child,
    the black count is the same on every path down to NIL, and the
    in-order keys are strictly increasing. *)
Theorem insert_invariants (ks : list Z) (n : nat) :
  RBTree.invariants
    (RBTree.root (RBTree.insertAll (take n ks) RBTree.empty)).
Proof.
  unfold RBTree.insertAll.
  assert (H : ∀ l st, RBTree.invariants (RBTree.root st) →
    RBTree.invariants
      (RBTree.root (foldl (λ st k, (RBTree.insert k st).2) st l))).
  { induction l as [|k l IH]; intros st Hst; [done|].
    simpl. apply IH. by apply insert_keeps_invariants. }
  apply H. split_and!; [done | done | done | by apply balanced_spec | done].
Qed.

(** C2: inserting 10, 20 and 30 into an empty tree performs one rotation,
    a left rotation, and leaves 20 BLACK at the root with 10 RED on its
    left and 30 RED on its right. *)
Theorem insert_10_20_30 :
  let r1 := RBTree.insert 10 RBTree.empty in
  let r2 := RBTree.insert 20 r1.2 in
  let r3 := RBTree.insert 30 r2.2 in
  RBTree.rotations (r1.1 ++ r2.1 ++ r3.1) = [RBTree.ROTATE_LEFT] ∧
  RBTree.root r3.2
  = RBTree.mkNode 2 20 BLACK (RBTree.mkNode 1 10 RED RBTree.NIL RBTree.NIL)
                  (RBTree.mkNode 3 30 RED RBTree.NIL RBTree.NIL).
Proof. by vm_compute. Qed.

(** *** Snapshots as objects *)

Section node_store.
Import RBTree.
Import NodeStore.

Lemma writeLive_copy t p h k : writeLive t p h (Copy k) = h (Copy k).
Proof.
  revert p h. induction t as [|i key c l IHl r IHr]; intros p h; [done|].
  simpl. unfold store. rewrite decide_False by done. by rewrite IHr, IHl.
Qed.

Lemma readTree_mono fuel fuel' h a s :
  readTree fuel h a = Some s → fuel ≤ fuel' → readTree fuel' h a = Some s.
Proof.
  revert fuel' a s. induction fuel as [|fuel IH]; intros fuel' a s H Hle.
  - destruct a; [done|]. by destruct fuel'.
  - destruct a as [x|]; [|by destruct fuel'].
    destruct fuel' as [|fuel']; [lia|]. simpl in *.
    destruct (h x) as [o|]; [|done]. simpl in *.
    destruct (readTree fuel h (o_left o)) as [l|] eqn:El; [|done].
    simpl in *.
    destruct (readTree fuel h (o_right o)) as [r|] eqn:Er; [|done].
    rewrite (IH fuel' _ _ El), (IH fuel' _ _ Er) by lia. done.
Qed.

Lemma depth_snapshot t p : depth (RBTree.snapshot t p) ≤ size t.
Proof.
  revert p. induction t as [|i key c l IHl r IHr]; intros p; simpl; [done|].
  specialize (IHl (Some i)). specialize (IHr (Some i)). lia.
Qed.

(** The deep copy takes [size t] new objects, changes no other object
    made for a snapshot, and its reference shows the snapshot of [t] in
    every heap that holds the new objects. *)
Lemma copyTree_spec t p h n :
  ∃ a h', copyTree t p h n = (a, h', n + size t) ∧
    (∀ k, k < n → h' (Copy k) = h (Copy k)) ∧
    ∀ h'', (∀ k, n ≤ k < n + size t → h'' (Copy k) = h' (Copy k)) →
      readTree (depth (RBTree.snapshot t p)) h'' a
      = Some (RBTree.snapshot t p).
Proof.
  revert p h n. induction t as [|i key c l IHl r IHr]; intros p h n.
  - exists None, h. simpl. rewrite Nat.add_0_r. by split_and!.
  - cbn [copyTree size RBTree.snapshot depth].
    destruct (IHl (Some i) h n) as (la & h1 & -> & Hf1 & Hr1).
    destruct (IHr (Some i) h1 (n + size l)) as (ra & h2 & -> & Hf2 & Hr2).
    set (n2 := n + size l + size r).
    eexists _, _. split_and!.
    + f_equal. lia.
    + intros k Hk. unfold store. rewrite decide_False by (intros [=]; lia).
      rewrite Hf2 by lia. apply Hf1. lia.
    + intros h'' Hag.
      assert (Hag' : ∀ k, n ≤ k < n2 → h'' (Copy k) = h2 (Copy k)).
      { intros k Hk. rewrite Hag by lia. unfold store.
        by rewrite decide_False by (intros [=]; lia). }
      rewrite Nat.add_1_l. cbn [readTree]. rewrite (Hag n2) by lia.
      unfold store at 1. rewrite decide_True by done.
      cbn [mbind option_bind o_left o_right o_id o_key o_color o_parentId].
      erewrite (readTree_mono _ _ _ la); [| apply Hr1 | lia].
      2:{ intros k Hk. rewrite Hag' by lia. apply Hf2. lia. }
      cbn [mbind option_bind].
      erewrite (readTree_mono _ _ _ ra); [| apply Hr2 | lia].
      2:{ intros k Hk. apply Hag'. lia. }
      done.
Qed.

Lemma extends_refl σ : extends σ σ.
Proof. by split_and!. Qed.

Lemma extends_trans σ1 σ2 σ3 : extends σ1 σ2 → extends σ2 σ3 → extends σ1 σ3.
Proof.
  intros (Hp & Hn & Hh) (Hp' & Hn' & Hh'). split_and!.
  - by etrans.
  - lia.
  - intros k Hk. rewrite Hh' by lia. by apply Hh.
Qed.

(** Snapshots that were consistent stay so among later objects. *)
Lemma consistent_extends steps σ σ' :
  consistent steps σ → extends σ σ' →
  ∀ i a s, snapshotRefs σ !! i = Some a → steps !! i = Some s →
    depth (RBTree.treeSnapshot s) ≤ nextCopy σ' ∧
    ∀ h', (∀ k, k < nextCopy σ' → h' (Copy k) = heap σ' (Copy k)) →
      readTree (depth (RBTree.treeSnapshot s)) h' a
      = Some (RBTree.treeSnapshot s).
Proof.
  intros [_ Hok] (_ & Hn & Hh) i a s Ha Hs.
  destruct (Hok i a s Ha Hs) as [Hd Hread]. split; [lia|].
  intros h' Hag. apply Hread. intros k Hk.
  rewrite Hag by lia. by apply Hh.
Qed.

Lemma recordObjects_spec steps σ s e :
  consistent steps σ → records s e →
  consistent (steps ++ [s]) (recordObjects σ e) ∧
  extends σ (recordObjects σ e).
Proof.
  intros Hok (_ & _ & Hsnap & _). unfold recordObjects.
  destruct (copyTree_spec (RBTree.ev_tree e) None
              (writeLive (RBTree.ev_tree e) None (heap σ)) (nextCopy σ))
    as (a & h' & -> & Hframe & Hread).
  assert (Hext : extends σ
    (mkStore h' (nextCopy σ + size (RBTree.ev_tree e))
             (snapshotRefs σ ++ [a]))).
  { split_and!; cbn [snapshotRefs nextCopy heap].
    - by apply prefix_app_r.
    - lia.
    - intros k Hk. rewrite Hframe by done. apply writeLive_copy. }
  split; [|done].
  pose proof Hok as [Hlen _]. split; cbn [snapshotRefs nextCopy heap].
  - rewrite !length_app. simpl. lia.
  - intros i a' s' Ha' Hs'.
    destruct (decide (i < length steps)) as [Hi|Hi].
    + rewrite lookup_app_l in Ha' by lia. rewrite lookup_app_l in Hs' by lia.
      exact (consistent_extends _ _ _ Hok Hext i a' s' Ha' Hs').
    + rewrite lookup_app_r in Ha' by lia. rewrite lookup_app_r in Hs' by lia.
      rewrite Hlen in Ha'.
      destruct (i - length steps) as [|?]; [|done].
      injection Ha' as <-. injection Hs' as <-. rewrite Hsnap. split.
      * pose proof (depth_snapshot (RBTree.ev_tree e) None). lia.
      * intros h'' Hag. apply Hread. intros k Hk. apply Hag. lia.
Qed.

Lemma foldl_recordObjects steps σ new evs :
  consistent steps σ → Forall2 records new evs →
  consistent (steps ++ new) (foldl recordObjects σ evs) ∧
  extends σ (foldl recordObjects σ evs).
Proof.
  intros Hok Hall. revert steps σ Hok.
  induction Hall as [|s e new evs Hrec _ IH]; intros steps σ Hok; simpl.
  - rewrite app_nil_r. split; [done | apply extends_refl].
  - destruct (recordObjects_spec steps σ s e Hok Hrec) as [Hok' Hext].
    destruct (IH _ _ Hok') as [Hok'' Hext'].
    rewrite <- app_assoc in Hok''. split; [done|]. by eapply extends_trans.
Qed.

Lemma settle_spec steps σ t :
  consistent steps σ → consistent steps (settle t σ) ∧ extends σ (settle t σ).
Proof.
  intros Hok.
  assert (Hext : extends σ (settle t σ)).
  { split_and!; [done | done |]. intros k _. apply writeLive_copy. }
  split; [|done]. destruct Hok as [Hlen Hread]. split; [done|].
  intros i a s Ha Hs.
  exact (consistent_extends _ _ _ (conj Hlen Hread) Hext i a s Ha Hs).
Qed.

(** Every public operation keeps the snapshots consistent and changes no
    object made for a snapshot. *)
Lemma insert_objects k st :
  consistent (steps (engine st)) (objects st) →
  consistent (steps (engine (NodeStore.insert k st)))
             (objects (NodeStore.insert k st)) ∧
  extends (objects st) (objects (NodeStore.insert k st)).
Proof.
  intros Hok. unfold NodeStore.insert.
  rewrite root_enter, nextNodeId_enter.
  destruct (insert_spec k (engine st)) as (new & Hspec).
  destruct (insertCore k (root (engine st)) (nextNodeId (engine st)))
    as [[evs t] created].
  destruct Hspec as (_ & Hsteps & Hall & _). cbn [engine objects].
  rewrite Hsteps.
  destruct (foldl_recordObjects _ _ _ _ Hok Hall) as [Hok' Hext].
  destruct (settle_spec _ _ t Hok') as [Hok'' Hext'].
  split; [done|]. by eapply extends_trans.
Qed.

Lemma delete_objects k st :
  consistent (steps (engine st)) (objects st) →
  consistent (steps (engine (NodeStore.delete k st)))
             (objects (NodeStore.delete k st)) ∧
  extends (objects st) (objects (NodeStore.delete k st)).
Proof.
  intros Hok. unfold NodeStore.delete. rewrite root_enter.
  destruct (delete_spec k (engine st)) as (new & Hspec).
  destruct (deleteCore k (root (engine st))) as [evs t].
  destruct Hspec as (_ & Hsteps & Hall & _). cbn [engine objects].
  rewrite Hsteps.
  destruct (foldl_recordObjects _ _ _ _ Hok Hall) as [Hok' Hext].
  destruct (settle_spec _ _ t Hok') as [Hok'' Hext'].
  split; [done|]. by eapply extends_trans.
Qed.

Lemma search_objects k st :
  consistent (steps (engine st)) (objects st) →
  consistent (steps (engine (NodeStore.search k st)))
             (objects (NodeStore.search k st)).
Proof.
  intros Hok. unfold NodeStore.search. rewrite root_enter.
  destruct (search_spec k (engine st)) as (new & _ & Hsteps & Hall & _).
  cbn [engine objects]. rewrite Hsteps.
  destruct (foldl_recordObjects _ _ _ _ Hok Hall) as [Hok' Hext].
  by destruct (settle_spec _ _ (root (engine st)) Hok') as [Hok'' Hext'].
Qed.

Lemma reachable_consistent st :
  NodeStore.reachable st → consistent (steps (engine st)) (objects st).
Proof.
  induction 1 as [|k st _ IH|k st _ IH|k st _ IH].
  - split; [done|]. intros i a s Ha. done.
  - by apply insert_objects.
  - by apply delete_objects.
  - by apply search_objects.
Qed.

Lemma mutateAll_objects mus st :
  consistent (steps (engine st)) (objects st) →
  extends (objects st) (objects (NodeStore.mutateAll mus st)) ∧
  steps (engine st) `prefix_of` steps (engine (NodeStore.mutateAll mus st)).
Proof.
  revert st. induction mus as [|mu mus IH]; intros st Hok.
  - split; [apply extends_refl | done].
  - cbn [NodeStore.mutateAll foldl].
    assert (Hstep : consistent (steps (engine (NodeStore.mutate st mu)))
                               (objects (NodeStore.mutate st mu)) ∧
                    extends (objects st) (objects (NodeStore.mutate st mu)) ∧
                    steps (engine st)
                      `prefix_of` steps (engine (NodeStore.mutate st mu))).
    { destruct mu as [k|k]; cbn [NodeStore.mutate].
      - destruct (insert_objects k st Hok) as [? ?]. split_and!; [done..|].
        unfold NodeStore.insert.
        destruct (insertCore _ _ _) as [[? ?] ?]. cbn [engine].
        apply (mutate_steps _ (Insert k)).
      - destruct (delete_objects k st Hok) as [? ?]. split_and!; [done..|].
        unfold NodeStore.delete.
        destruct (deleteCore _ _) as [? ?]. cbn [engine].
        apply (mutate_steps _ (Delete k)). }
    destruct Hstep as (Hok' & Hext & Hpre).
    destruct (IH _ Hok') as [Hext' Hpre'].
    split; [by eapply extends_trans | by etrans].
Qed.

(** What a consistent store shows for step [i]. *)
Lemma consistent_read steps σ σ' i s :
  consistent steps σ → extends σ σ' → steps !! i = Some s →
  (a ← snapshotRefs σ' !! i; readTree (nextCopy σ') (heap σ') a)
  = Some (RBTree.treeSnapshot s).
Proof.
  intros Hok Hext Hs. pose proof Hok as [Hlen _].
  destruct (lookup_lt_is_Some_2 (snapshotRefs σ) i) as [a Ha].
  { rewrite Hlen. by eapply lookup_lt_Some. }
  destruct (consistent_extends _ _ _ Hok Hext i a s Ha Hs) as [Hd Hread].
  destruct Hext as (Hp & _ & _).
  rewrite (prefix_lookup_Some _ _ _ _ Ha Hp). cbn [mbind option_bind].
  eapply readTree_mono; [by apply Hread | done].
Qed.

End node_store.

(** C3: a step of the log holds a reference to the objects of its
    snapshot.  After any further inserts and deletes the step holds the
    same reference, and the tree read through it from the objects is the
    same as before: the snapshot of the step, that is the deep copy of the
    tree as it was when the step was recorded. *)
Theorem snapshot_immutable (st : NodeStore.State) (mus : list Mutation)
    (i : nat) :
  NodeStore.reachable st →
  i < length (RBTree.getAllSteps (NodeStore.engine st)) →
  let st' := NodeStore.mutateAll mus st in
  NodeStore.snapshotRefs (NodeStore.objects st') !! i
  = NodeStore.snapshotRefs (NodeStore.objects st) !! i ∧
  NodeStore.readSnapshot st' i = NodeStore.readSnapshot st i ∧
  NodeStore.readSnapshot st i
  = RBTree.treeSnapshot <$> RBTree.getAllSteps (NodeStore.engine st) !! i.
Proof.
  intros Hreach Hi st'.
  pose proof (reachable_consistent st Hreach) as Hok.
  destruct (mutateAll_objects mus st Hok) as [Hext Hpre]. fold st' in Hext.
  destruct (lookup_lt_is_Some_2 _ i Hi) as [s Hs].
  unfold RBTree.getAllSteps in *. rewrite Hs. cbn [fmap option_fmap option_map].
  unfold NodeStore.readSnapshot.
  rewrite (consistent_read _ _ _ i s Hok Hext Hs).
  rewrite (consistent_read _ _ _ i s Hok (extends_refl _) Hs).
  split_and!; [|done..].
  pose proof Hok as [Hlen _].
  destruct (lookup_lt_is_Some_2 (NodeStore.snapshotRefs (NodeStore.objects st)) i)
    as [a Ha]; [lia|].
  destruct Hext as (Hp & _). rewrite Ha.
  by apply (prefix_lookup_Some _ _ _ _ Ha).
Qed.

Lemma snapshot_immutable_witness :
  let st := NodeStore.insert 20 (NodeStore.insert 10 NodeStore.empty) in
  let st' := NodeStore.mutateAll [Insert 30; Delete 10; Insert 5] st in
  NodeStore.reachable st ∧
  3 < length (RBTree.getAllSteps (NodeStore.engine st)) ∧
  NodeStore.readSnapshot st' 3
  = Some (mkRBNode 1 10 BLACK null null None) ∧
  RBTree.snapshot (RBTree.root (NodeStore.engine st')) None
  ≠ mkRBNode 1 10 BLACK null null None ∧
  NodeStore.readTree 4 (NodeStore.heap (NodeStore.objects st'))
                     (Some (NodeStore.Live 1))
  ≠ Some (mkRBNode 1 10 BLACK null null None).
Proof.
  intros st st'.
  assert (Hreach : NodeStore.reachable st).
  { do 2 apply NodeStore.reachable_insert. apply NodeStore.reachable_empty. }
  assert (Hlen : 3 < length (RBTree.getAllSteps (NodeStore.engine st))).
  { vm_compute. lia. }
  split_and!; [exact Hreach | exact Hlen | | |].
  - destruct (snapshot_immutable st [Insert 30; Delete 10; Insert 5] 3
                Hreach Hlen) as (_ & H1 & H2).
    unfold st'. rewrite H1, H2. by vm_compute.
  - by vm_compute.
  - by vm_compute.
Defined.

(** C4: inserting a key that the tree holds creates no node, leaves the
    tree as it is, and returns steps whose last one says that the key is
    already present. *)
Theorem insert_duplicate (st : RBTree.State) (k : Z) :
  reachable st →
  k ∈ RBTree.keys (RBTree.root st) →
  let r := RBTree.insert k st in
  RBTree.root r.2 = RBTree.root st ∧
  RBTree.nextNodeId r.2 = RBTree.nextNodeId st ∧
  ∃ s, last r.1 = Some s ∧
       RBTree.type s = RBTree.FOUND ∧
       RBTree.description s = "already present" ∧
       RBTree.treeSnapshot s = RBTree.snapshot (RBTree.root st) None.
Proof.
  intros Hinc Hin r. unfold r.
  apply reachable_increasing in Hinc.
  destruct (insertCore_present k _ (RBTree.nextNodeId st) Hinc Hin)
    as (evs & i & Hcore).
  destruct (insert_spec k st) as (new & Hspec). rewrite Hcore in Hspec.
  destruct Hspec as (Hret & _ & Hall & Hroot & Hid).
  split_and!; [done | done |].
  destruct (records_last new _ _ Hall (last_snoc _ _))
    as (s & Hlast & Ht & Hd & Hsnap & _).
  exists s. rewrite Hret. by split_and!.
Qed.

Lemma insert_duplicate_witness :
  let st := RBTree.insertAll [10; 20; 30]%Z RBTree.empty in
  reachable st ∧
  10%Z ∈ RBTree.keys (RBTree.root st) ∧
  RBTree.root (RBTree.insert 10 st).2 = RBTree.root st ∧
  RBTree.nextNodeId (RBTree.insert 10 st).2 = 4%Z.
Proof.
  intros st.
  assert (Hreach : reachable st).
  { unfold st, RBTree.insertAll. cbn [foldl].
    do 3 apply reachable_insert. apply reachable_empty. }
  assert (Hin : 10%Z ∈ RBTree.keys (RBTree.root st))
    by (vm_compute; left).
  destruct (insert_duplicate st 10 Hreach Hin) as (Hroot & Hid & _).
  by split_and!.
Defined.

(** *** Ordinary conditions *)






(** * Further properties *)

(** ** Texts and trees of a split table *)

(** The text of [parenthesizationFromS] is the text of the tree built from
    the same table. *)
Lemma parenthesizationFromS_build (fuel : nat) (s : list (list nat))
    (i j ctr : nat) :
  MatrixChain.parenthesizationFromS fuel s i j
  = (MatrixChain.treeText ∘ fst) <$> MatrixChain.build fuel s i j ctr.
Proof.
  revert i j ctr. induction fuel as [|fuel IH]; intros i j ctr; [done|].
  simpl. case_bool_decide; [done|].
  destruct (read2 s i j) as [k|]; [simpl|done].
  rewrite (IH i k (ctr + 1)).
  destruct (MatrixChain.build fuel s i k (ctr + 1)) as [[l c1]|]; [simpl|done].
  rewrite (IH (k + 1) j c1).
  by destruct (MatrixChain.build fuel s (k + 1) j c1) as [[r c2]|].
Qed.

(** X1: the text of [parenthesizationFromS] is the text of the tree that
    [buildParenthesisTree] builds from the same table, and the one fails
    exactly when the other does (MatrixChain.ts). *)
Theorem parenthesization_text_of_tree (fuel : nat) (s : list (list nat))
    (i j ctr : nat) :
  MatrixChain.parenthesizationFromS fuel s i j
  = (MatrixChain.treeText ∘ fst) <$> MatrixChain.build fuel s i j ctr.
Proof. apply parenthesizationFromS_build. Qed.

(** X2: the same for the module that numbers nodes with [_nodeCounter]. *)
Theorem parenthesization_text_of_tree_MS (fuel : nat) (s : list (list nat))
    (i j ctr : nat) :
  MatrixChainMS.parenthesizationFromS fuel s i j
  = (MatrixChainMS.treeText ∘ fst)
      <$> MatrixChainMS.buildParenthesisTree fuel s i j ctr.
Proof.
  revert i j ctr. induction fuel as [|fuel IH]; intros i j ctr; [done|].
  simpl. case_bool_decide; [done|].
  destruct (read2 s i j) as [k|]; [simpl|done].
  rewrite (IH i k ctr).
  destruct (MatrixChainMS.buildParenthesisTree fuel s i k ctr)
    as [[l c1]|]; [simpl|done].
  rewrite (IH (k + 1) j c1).
  by destruct (MatrixChainMS.buildParenthesisTree fuel s (k + 1) j c1)
    as [[r c2]|].
Qed.

Lemma read2_get2 N (s : list (list nat)) i j :
  dims N N s → i < N → j < N → read2 s i j = Some (get2 s i j).
Proof.
  intros [Hrows Hcols] Hi Hj. unfold read2, get2.
  destruct (lookup_lt_is_Some_2 s i) as [row Hrow]; [lia|].
  rewrite Hrow. simpl. rewrite (list_lookup_total_correct _ _ _ Hrow).
  apply list_lookup_lookup_total_lt. rewrite (Hcols _ _ Hrow). lia.
Qed.

(** Without an [Infinity] above the diagonal, the split table of
    [matrixChainOrder] cuts every interval inside. *)
Lemma tables_splitsInside (p : list num) :
  belowInfinity (length p - 1) (MatrixChain.tables p).1 →
  splitsInside (length p - 1) (MatrixChain.tables p).2.
Proof.
  intros Hfin i j Hi Hij Hj.
  destruct (tables_dims p) as [_ Hd].
  destruct (tables_belowInfinity p i j Hfin Hi Hij Hj) as [[Hk _] _].
  exists (get2 (MatrixChain.tables p).2 i j). split; [|done].
  apply (read2_get2 (length p)); [done | lia | lia].
Qed.

(** Whether a table holds an [Infinity] above the diagonal can be
    checked cell by cell. *)
Lemma belowInfinity_cells n m :
  belowInfinity n m ↔
  Forall (λ i, Forall (λ j, i < j → get2 m i j ≠ Inf) (seq 1 n)) (seq 1 n).
Proof.
  unfold belowInfinity. rewrite Forall_forall. split.
  - intros H i Hi%elem_of_seq. rewrite Forall_forall.
    intros j Hj%elem_of_seq Hij. apply H; lia.
  - intros H i j Hi Hij Hj.
    assert (Hin : i ∈ seq 1 n) by (apply elem_of_seq; lia).
    specialize (H i Hin). rewrite Forall_forall in H.
    apply H; [apply elem_of_seq; lia | done].
Qed.

Global Instance belowInfinity_dec n m : Decision (belowInfinity n m).
Proof.
  refine (cast_if (decide (Forall (λ i,
            Forall (λ j, i < j → get2 m i j ≠ Inf) (seq 1 n)) (seq 1 n))));
    by rewrite belowInfinity_cells.
Defined.

(** On a table that cuts inside, the tree for [i..j] is built within
    [j - i + 1] levels, has [2 (j - i) + 1] nodes, and its leaves are
    [A_i, ..., A_j] from left to right. *)
Lemma build_leaves n s fuel i j ctr :
  splitsInside n s → 1 ≤ i → i ≤ j → j ≤ n → j - i + 1 ≤ fuel →
  ∃ t c', MatrixChain.build fuel s i j ctr = Some (t, c') ∧
    MatrixChain.size t = 2 * (j - i) + 1 ∧
    MatrixChain.leafLabels t = (λ k, "A" +:+ pretty k) <$> seq i (j - i + 1).
Proof.
  intros Hs. revert i j ctr.
  induction fuel as [|fuel IH]; intros i j ctr Hi Hij Hj Hfuel; [lia|].
  cbn [MatrixChain.build]. case_bool_decide as Heq.
  - subst j. eexists _, _. split; [done|].
    replace (i - i + 1) with 1 by lia. replace (i - i) with 0 by lia. done.
  - destruct (Hs i j) as (k & -> & Hk); [lia..|]. simpl.
    destruct (IH i k (ctr + 1)) as (l & c1 & -> & Hsl & Hll); [lia..|].
    simpl.
    destruct (IH (k + 1) j c1) as (r & c2 & -> & Hsr & Hlr); [lia..|].
    simpl. eexists _, _. split; [done|].
    cbn [MatrixChain.size MatrixChain.leafLabels]. rewrite Hsl, Hsr, Hll, Hlr.
    split; [lia|].
    rewrite <- fmap_app. f_equal.
    replace (j - i + 1) with ((k - i + 1) + (j - (k + 1) + 1)) by lia.
    rewrite (seq_app (k - i + 1)).
    by replace (i + (k - i + 1)) with (k + 1) by lia.
Qed.

Lemma buildParenthesisTree_leaves n s fuel i j ctr :
  splitsInside n s → 1 ≤ i → i ≤ j → j ≤ n → j - i + 1 ≤ fuel →
  ∃ t c', MatrixChainMS.buildParenthesisTree fuel s i j ctr = Some (t, c') ∧
    MatrixChainMS.size t = 2 * (j - i) + 1 ∧
    MatrixChainMS.leafLabels t
    = (λ k, "A" +:+ pretty k) <$> seq i (j - i + 1).
Proof.
  intros Hs. revert i j ctr.
  induction fuel as [|fuel IH]; intros i j ctr Hi Hij Hj Hfuel; [lia|].
  cbn [MatrixChainMS.buildParenthesisTree]. case_bool_decide as Heq.
  - subst j. eexists _, _. split; [done|].
    replace (i - i + 1) with 1 by lia. replace (i - i) with 0 by lia. done.
  - destruct (Hs i j) as (k & -> & Hk); [lia..|]. simpl.
    destruct (IH i k ctr) as (l & c1 & -> & Hsl & Hll); [lia..|].
    simpl.
    destruct (IH (k + 1) j c1) as (r & c2 & -> & Hsr & Hlr); [lia..|].
    simpl. eexists _, _. split; [done|].
    cbn [MatrixChainMS.size MatrixChainMS.leafLabels].
    rewrite Hsl, Hsr, Hll, Hlr.
    split; [lia|].
    rewrite <- fmap_app. f_equal.
    replace (j - i + 1) with ((k - i + 1) + (j - (k + 1) + 1)) by lia.
    rewrite (seq_app (k - i + 1)).
    by replace (i + (k - i + 1)) with (k + 1) by lia.
Qed.

(** X3: when the cost table that [matrixChainOrder] returns holds no
    [Infinity] above the diagonal, [buildParenthesisTree(s, i, j)] of
    MatrixChain.ts returns, from the split table returned with it, a tree
    for every [1 <= i <= j <= n]: it has [2 (j - i) + 1] nodes and its
    leaves are [A_i, ..., A_j] from left to right. *)
Theorem tree_of_computed_table (p : list num) (i j : nat) :
  let r := MatrixChain.matrixChainOrder p in
  belowInfinity (length p - 1) (MatrixChain.m r) →
  1 ≤ i → i ≤ j → j ≤ length p - 1 →
  ∃ t c',
    MatrixChain.buildParenthesisTree (j - i + 1) (MatrixChain.s r) i j None
    = Some (t, c') ∧
    MatrixChain.size t = 2 * (j - i) + 1 ∧
    MatrixChain.leafLabels t = (λ k, "A" +:+ pretty k) <$> seq i (j - i + 1).
Proof.
  intros r Hfin Hi Hij Hj. unfold MatrixChain.buildParenthesisTree.
  by apply (build_leaves (length p - 1)); [apply tables_splitsInside|..].
Qed.

Lemma tree_of_computed_table_witness :
  let p := ofZ <$> [4; 10; 3; 12]%Z in
  belowInfinity 3 (MatrixChain.m (MatrixChain.matrixChainOrder p)) ∧
  ∃ t c',
    MatrixChain.buildParenthesisTree 3
      (MatrixChain.s (MatrixChain.matrixChainOrder p)) 1 3 None
    = Some (t, c') ∧
    MatrixChain.size t = 5 ∧
    MatrixChain.leafLabels t = ["A1"; "A2"; "A3"].
Proof.
  intros p.
  assert (H : belowInfinity 3 (MatrixChain.m (MatrixChain.matrixChainOrder p))).
  { refine (bool_decide_unpack _ _). by vm_compute. }
  split; [exact H|].
  apply (tree_of_computed_table p 1 3); [exact H | simpl; lia..].
Defined.

(** X4: the same for the module that numbers nodes with [_nodeCounter],
    from any value of the counter. *)
Theorem tree_of_computed_table_MS (p : list num) (i j ctr : nat) :
  let r := MatrixChainMS.matrixChainOrder p in
  belowInfinity (length p - 1) (MatrixChainMS.m r) →
  1 ≤ i → i ≤ j → j ≤ length p - 1 →
  ∃ t c',
    MatrixChainMS.buildParenthesisTree (j - i + 1) (MatrixChainMS.s r) i j ctr
    = Some (t, c') ∧
    MatrixChainMS.size t = 2 * (j - i) + 1 ∧
    MatrixChainMS.leafLabels t
    = (λ k, "A" +:+ pretty k) <$> seq i (j - i + 1).
Proof.
  intros r Hfin Hi Hij Hj.
  apply (buildParenthesisTree_leaves (length p - 1)); [|done..].
  pose proof (tables_splitsInside p) as Hs.
  rewrite <- (tables_MS p) in Hs. by apply Hs.
Qed.

Lemma tree_of_computed_table_MS_witness :
  let p := ofZ <$> [4; 10; 3; 12]%Z in
  belowInfinity 3 (MatrixChainMS.m (MatrixChainMS.matrixChainOrder p)) ∧
  ∃ t c',
    MatrixChainMS.buildParenthesisTree 3
      (MatrixChainMS.s (MatrixChainMS.matrixChainOrder p)) 1 3 7
    = Some (t, c') ∧
    MatrixChainMS.size t = 5 ∧
    MatrixChainMS.leafLabels t = ["A1"; "A2"; "A3"].
Proof.
  intros p.
  assert (H : belowInfinity 3
                (MatrixChainMS.m (MatrixChainMS.matrixChainOrder p))).
  { refine (bool_decide_unpack _ _). by vm_compute. }
  split; [exact H|].
  apply (tree_of_computed_table_MS p 1 3 7); [exact H | simpl; lia..].
Defined.

(** ** The cost of the tree that is built *)

Lemma contiguous_le T : contiguous T → firstOf T ≤ lastOf T.
Proof.
  induction T as [i|l IHl r IHr]; simpl; [done|].
  intros (Hl & Hr & Hlr). specialize (IHl Hl). specialize (IHr Hr). lia.
Qed.

(** X27: for any dimensions, when the cost table holds no [Infinity] above
    the diagonal, the tree that [buildParenthesisTree] builds from the
    split table is a parenthesization of [A_i ... A_j], and [m[i][j]] is
    its cost added up in doubles in the order of the tree; for [i = 1] and
    [j = n] that cost is [minCost]. *)
Theorem built_tree_cost (p : list num) (i j ctr : nat) :
  let r := MatrixChain.matrixChainOrder p in
  belowInfinity (length p - 1) (MatrixChain.m r) →
  1 ≤ i → i ≤ j → j ≤ length p - 1 →
  ∃ T, contiguous T ∧ firstOf T = i ∧ lastOf T = j ∧
    MatrixChain.build (j - i + 1) (MatrixChain.s r) i j ctr
    = Some (treeOf T ctr) ∧
    get2 (MatrixChain.m r) i j = parenCost p T ∧
    (i = 1 → j = length p - 1 → MatrixChain.minCost r = parenCost p T).
Proof.
  intros r Hfin Hi Hij Hj.
  change (MatrixChain.m r) with (MatrixChain.tables p).1 in *.
  change (MatrixChain.s r) with (MatrixChain.tables p).2.
  pose proof (tables_untouched p) as Hzero.
  pose proof (tables_splitsInside p Hfin) as Hs.
  assert (Hmain : ∀ fuel i j ctr,
    1 ≤ i → i ≤ j → j ≤ length p - 1 → j - i + 1 ≤ fuel →
    ∃ T, contiguous T ∧ firstOf T = i ∧ lastOf T = j ∧
      MatrixChain.build fuel (MatrixChain.tables p).2 i j ctr
      = Some (treeOf T ctr) ∧
      get2 (MatrixChain.tables p).1 i j = parenCost p T).
  { clear i j ctr Hi Hij Hj.
    induction fuel as [|fuel IH]; intros i j ctr Hi Hij Hj Hfuel; [lia|].
    cbn [MatrixChain.build]. case_bool_decide as Heq.
    - subst j. exists (PLeaf i). simpl. split_and!; try done.
      apply Hzero. lia.
    - destruct (tables_belowInfinity p i j Hfin) as [(Hk & Hm & _) _];
        [lia..|].
      set (k := get2 (MatrixChain.tables p).2 i j) in *.
      rewrite (read2_get2 (length p)); [|apply tables_dims | lia | lia].
      fold k. simpl.
      destruct (IH i k (ctr + 1)) as (Tl & Hcl & Hfl & Hll & -> & Hml);
        [lia..|].
      simpl. destruct (treeOf Tl (ctr + 1)) as [tl c1] eqn:Etl. simpl.
      destruct (IH (k + 1) j c1) as (Tr & Hcr & Hfr & Hlr & -> & Hmr);
        [lia..|].
      simpl. destruct (treeOf Tr c1) as [tr c2] eqn:Etr. simpl.
      exists (PSplit Tl Tr). simpl. rewrite Etl, Etr, Hfl, Hll, Hlr.
      split_and!; [done | done | lia | done | done | done |].
      rewrite Hm. unfold splitCost. by rewrite Hml, Hmr. }
  destruct (Hmain (j - i + 1) i j ctr) as (T & Hc & Hf & Hl & Hb & Hm);
    [lia..|].
  exists T. split_and!; try done.
  intros -> ->. simpl. fold (MatrixChain.tables p).
  rewrite bool_decide_eq_true_2 by lia. done.
Qed.

Lemma built_tree_cost_witness :
  let p := ofZ <$> [4; 10; 3; 12]%Z in
  let r := MatrixChain.matrixChainOrder p in
  belowInfinity 3 (MatrixChain.m r) ∧
  ∃ T, contiguous T ∧
    MatrixChain.build 3 (MatrixChain.s r) 1 3 0 = Some (treeOf T 0) ∧
    MatrixChain.minCost r = parenCost p T.
Proof.
  intros p r.
  assert (H : belowInfinity 3 (MatrixChain.m r)).
  { refine (bool_decide_unpack _ _). by vm_compute. }
  split; [exact H|].
  destruct (built_tree_cost p 1 3 0 H)
    as (T & Hc & _ & _ & Hb & _ & Hmin); [simpl; lia..|].
  exists T. split_and!; [done | done |]. by apply Hmin.
Defined.

(** ** Ties, untouched cells and signs *)

(** X7: [matrixChainOrder] returns two square tables of side [p.length],
    and outside the cells [1 <= i < j <= n] every entry of both is 0, as
    at the start. *)
Theorem tables_shape (p : list num) :
  let r := MatrixChain.matrixChainOrder p in
  dims (length p) (length p) (MatrixChain.m r) ∧
  dims (length p) (length p) (MatrixChain.s r) ∧
  untouched (length p - 1) (MatrixChain.m r) (MatrixChain.s r).
Proof.
  intros r. change (MatrixChain.m r) with (MatrixChain.tables p).1.
  change (MatrixChain.s r) with (MatrixChain.tables p).2.
  destruct (tables_dims p) as [Hm Hs]. split_and!; [done | done |].
  apply tables_untouched.
Qed.

(** X8: on a tie [matrixChainOrder] keeps the first split: the cost of
    every split [k] before [s[i][j]] is strictly more than [m[i][j]], or
    it is [NaN], which no comparison selects. *)
Theorem first_split_kept (p : list num) (i j : nat) :
  1 ≤ i → i < j → j ≤ length p - 1 →
  let r := MatrixChain.matrixChainOrder p in
  first_split p (MatrixChain.m r) (MatrixChain.s r) i j.
Proof.
  intros Hi Hij Hj r.
  change (MatrixChain.m r) with (MatrixChain.tables p).1.
  change (MatrixChain.s r) with (MatrixChain.tables p).2.
  destruct (tables_done p i j) as [(_ & _ & Hfirst)|(_ & _ & Hs)];
    [lia.. | done |].
  intros k Hik Hk. rewrite Hs in Hk. lia.
Qed.

Lemma first_split_kept_witness :
  let p := ofZ <$> [2; 2; 2; 2]%Z in
  let r := MatrixChain.matrixChainOrder p in
  get2 (MatrixChain.s r) 1 3 = 1 ∧
  splitCost p (MatrixChain.m r) 1 1 3 = splitCost p (MatrixChain.m r) 1 2 3 ∧
  first_split p (MatrixChain.m r) (MatrixChain.s r) 1 3.
Proof.
  intros p r. split_and!; [by vm_compute | by vm_compute |].
  apply (first_split_kept p 1 3); simpl; lia.
Defined.

(** X26: for dimensions that are neither negative nor [NaN], no entry
    [m[i][j]] of the cost table with [1 <= i <= j <= n] is negative or
    [NaN]: it is zero, a positive number, or [Infinity] where the costs
    overflow. *)
Theorem costs_nonnegative (p : list num) (i j : nat) :
  Forall nonneg p → 1 ≤ i → i ≤ j → j ≤ length p - 1 →
  nonneg (get2 (MatrixChain.m (MatrixChain.matrixChainOrder p)) i j).
Proof.
  intros Hp Hi Hij Hj.
  change (MatrixChain.m (MatrixChain.matrixChainOrder p))
    with (MatrixChain.tables p).1.
  remember (j - i) as d eqn:Hd. revert i j Hi Hij Hj Hd.
  induction d as [d IH] using lt_wf_ind. intros i j Hi Hij Hj Hd.
  destruct (decide (i = j)) as [->|Hne].
  - destruct (tables_untouched p j j) as [-> _]; [lia | done].
  - destruct (tables_done p i j) as [((Hk & Hm & _) & Hlt & _)|(_ & -> & _)];
      [lia.. | | done].
    set (k := get2 (MatrixChain.tables p).2 i j) in *.
    apply signed_nonneg; [|by apply num_ltb_number in Hlt as [? _]].
    rewrite Hm. unfold splitCost.
    apply num_add_signed; [apply num_add_signed|].
    + apply nonneg_signed. apply (IH (k - i)); lia.
    + apply nonneg_signed. apply (IH (j - (k + 1))); lia.
    + by repeat apply num_mul_signed; apply dim_signed.
Qed.

Lemma costs_nonnegative_witness :
  let p := ofZ <$> [4; 10; 3; 12]%Z in
  Forall nonneg p ∧
  nonneg (get2 (MatrixChain.m (MatrixChain.matrixChainOrder p)) 1 3).
Proof.
  intros p.
  assert (Hp : Forall nonneg p) by (by repeat constructor).
  split; [exact Hp|].
  apply (costs_nonnegative p 1 3 Hp); simpl; lia.
Defined.

(** ** Whole dimensions: the costs are exact *)

Section whole_dims.
Variable M : Z.
Variable pz : list Z.
Hypothesis Hw : wholeDims M pz.
Local Abbreviation p := (ofZ <$> pz).
Local Abbreviation n := (length pz - 1).
Local Abbreviation T := (MatrixChain.tables (ofZ <$> pz)).
Local Abbreviation ddd := (λ i k j : nat,
  ((pz !!! (i - 1)%nat) * (pz !!! k) * (pz !!! j))%Z).

Lemma whole_dim i :
  i < length pz → dim p i = ofZ (pz !!! i) ∧ (0 ≤ pz !!! i ≤ M)%Z.
Proof.
  intros Hi. destruct Hw as [Hall _].
  destruct (lookup_lt_is_Some_2 pz i Hi) as [d Hd].
  rewrite (list_lookup_total_correct _ _ _ Hd).
  split.
  - unfold dim. by rewrite list_lookup_fmap, Hd.
  - rewrite Forall_forall in Hall. apply Hall.
    by eapply list_elem_of_lookup_2.
Qed.

Lemma whole_cube (a b c : Z) :
  1 ≤ n → (0 ≤ a ≤ M → 0 ≤ b ≤ M → 0 ≤ c ≤ M →
  0 ≤ a * b ≤ M * M * M ∧ 0 ≤ a * b * c ≤ M * M * M ∧ M * M * M < 2 ^ 53 ∧
  a < 2 ^ 53 ∧ b < 2 ^ 53 ∧ c < 2 ^ 53)%Z.
Proof.
  intros Hn Ha Hb Hc. destruct Hw as [_ Hbound].
  assert (0 ≤ M)%Z by lia.
  assert (M * M * M < 2 ^ 53)%Z by nia.
  assert (0 ≤ a * b ≤ M * M)%Z by nia.
  assert (0 ≤ a * b * c ≤ M * M * M)%Z by nia.
  destruct (decide (M = 0%Z)) as [->|HM]; [lia|].
  assert (M ≤ M * M)%Z by nia. assert (M * M ≤ M * M * M)%Z by nia.
  lia.
Qed.

Lemma whole_bound i j :
  1 ≤ i → i ≤ j → j ≤ n →
  (0 ≤ M ∧ Z.of_nat (j - i) * (M * M * M) < 2 ^ 53)%Z.
Proof.
  intros Hi Hij Hj. destruct (whole_dim 0) as [_ H0]; [lia|].
  destruct Hw as [_ Hbound]. split; [lia|].
  assert (0 ≤ M * M * M)%Z by nia. nia.
Qed.

(** The product of three dimensions is computed exactly. *)
Lemma whole_product i k j :
  1 ≤ i → i ≤ k → k < j → j ≤ n →
  num_mul (num_mul (dim p (i - 1)) (dim p k)) (dim p j) = ofZ (ddd i k j) ∧
  (0 ≤ ddd i k j ≤ M * M * M)%Z.
Proof.
  intros Hi Hik Hkj Hj.
  destruct (whole_dim (i - 1)) as [-> Ha]; [lia|].
  destruct (whole_dim k) as [-> Hb]; [lia|].
  destruct (whole_dim j) as [-> Hc]; [lia|].
  destruct (whole_cube _ _ _ ltac:(lia) Ha Hb Hc) as (? & ? & ? & ? & ? & ?).
  rewrite !ofZ_mul by lia. split; [done | lia].
Qed.

(** Every entry of the cost table is a whole number, within the bound. *)
Lemma tables_whole i j :
  1 ≤ i → i ≤ j → j ≤ n →
  ∃ c, get2 T.1 i j = ofZ c ∧
       (0 ≤ c ≤ Z.of_nat (j - i) * (M * M * M))%Z.
Proof.
  intros Hi Hij Hj.
  remember (j - i) as d eqn:Hd. revert i j Hi Hij Hj Hd.
  induction d as [d IH] using lt_wf_ind. intros i j Hi Hij Hj Hd.
  destruct (decide (i = j)) as [->|Hne].
  - exists 0%Z. destruct (tables_untouched p j j) as [-> _]; [lia|].
    split; [done | nia].
  - assert (Hcost : ∀ k, i ≤ k < j → ∃ c,
      splitCost p T.1 i k j = ofZ c ∧
      (0 ≤ c ≤ Z.of_nat (j - i) * (M * M * M))%Z).
    { intros k Hk.
      destruct (IH (k - i) ltac:(lia) i k) as (c1 & E1 & H1); [lia..|].
      destruct (IH (j - (k + 1)) ltac:(lia) (k + 1) j) as (c2 & E2 & H2);
        [lia..|].
      destruct (whole_product i k j) as [E3 H3]; [lia..|].
      destruct Hw as [_ Hbound].
      assert (Z.of_nat (j - i) * (M * M * M)
              ≤ Z.of_nat (length pz - 1) * (M * M * M))%Z by nia.
      exists (c1 + c2 + ddd i k j)%Z.
      unfold splitCost. rewrite E1, E2, E3.
      rewrite !ofZ_add by nia. split; [done | nia]. }
    destruct (tables_done p i j)
      as [((Hs & Hm & _) & _ & _)|(Hnone & _ & _)];
      [lia | lia | rewrite length_fmap; lia | |].
    + destruct (Hcost (get2 T.2 i j)) as (c & Ec & Hc); [lia|].
      exists c. subst d. by rewrite Hm, Ec.
    + exfalso. destruct (Hcost i) as (c & Ec & Hc); [lia|].
      specialize (Hnone i ltac:(lia)). rewrite Ec in Hnone.
      destruct Hw as [_ Hbound].
      assert (Z.of_nat (j - i) * (M * M * M)
              ≤ Z.of_nat (length pz - 1) * (M * M * M))%Z by nia.
      by rewrite ofZ_below_Inf in Hnone by lia.
Qed.

Lemma whole_belowInfinity : belowInfinity n T.1.
Proof.
  intros i j Hi Hij Hj.
  destruct (tables_whole i j) as (c & -> & Hc); [lia..|].
  destruct Hw as [_ Hbound].
  assert (Z.of_nat (j - i) * (M * M * M)
          ≤ Z.of_nat (length pz - 1) * (M * M * M))%Z by nia.
  intros E. pose proof (ofZ_below_Inf c ltac:(lia)) as Hlt.
  rewrite E in Hlt. done.
Qed.

(** The cost of a split, in whole numbers. *)
Lemma whole_splitCost i k j c1 c2 :
  1 ≤ i → i ≤ k → k < j → j ≤ n →
  get2 T.1 i k = ofZ c1 → (0 ≤ c1 ≤ Z.of_nat (k - i) * (M * M * M))%Z →
  get2 T.1 (k + 1) j = ofZ c2 →
  (0 ≤ c2 ≤ Z.of_nat (j - (k + 1)) * (M * M * M))%Z →
  splitCost p T.1 i k j = ofZ (c1 + c2 + ddd i k j) ∧
  (0 ≤ c1 + c2 + ddd i k j ≤ Z.of_nat (j - i) * (M * M * M))%Z.
Proof.
  intros Hi Hik Hkj Hj E1 H1 E2 H2.
  destruct (whole_product i k j) as [E3 H3]; [lia..|].
  destruct Hw as [_ Hbound].
  assert (Z.of_nat (j - i) * (M * M * M)
          ≤ Z.of_nat (length pz - 1) * (M * M * M))%Z by nia.
  unfold splitCost. rewrite E1, E2, E3.
  rewrite !ofZ_add by nia. split; [done | nia].
Qed.

(** No parenthesization needs fewer multiplications than the entry. *)
Lemma whole_lower_bound (P : Paren) :
  contiguous P → 1 ≤ firstOf P → lastOf P ≤ n →
  ∃ c, get2 T.1 (firstOf P) (lastOf P) = ofZ c ∧
       (0 ≤ c ≤ Z.of_nat (lastOf P - firstOf P) * (M * M * M))%Z ∧
       (c ≤ parenCount pz P)%Z.
Proof.
  intros Hc Hlo Hhi. pose proof (contiguous_le P Hc) as Hle.
  induction P as [i|l IHl r IHr]; simpl in *.
  - destruct (tables_whole i i) as (c & E & H); [lia..|].
    exists c. split_and!; [done | lia | lia | lia].
  - destruct Hc as (Hl & Hr & Hlr).
    pose proof (contiguous_le l Hl). pose proof (contiguous_le r Hr).
    destruct (IHl Hl ltac:(lia) ltac:(lia) ltac:(lia)) as (c1 & E1 & H1 & L1).
    destruct (IHr Hr ltac:(lia) ltac:(lia) ltac:(lia)) as (c2 & E2 & H2 & L2).
    rewrite Hlr in E2, H2.
    destruct (whole_splitCost (firstOf l) (lastOf l) (lastOf r) c1 c2)
      as [Ek Hk]; [lia.. | done | done | done | done |].
    destruct (tables_whole (firstOf l) (lastOf r)) as (c & E & Hcb); [lia..|].
    exists c. split; [done|]. split; [lia|].
    destruct Hw as [_ Hbound].
    assert (Z.of_nat (lastOf r - firstOf l) * (M * M * M)
            ≤ Z.of_nat (length pz - 1) * (M * M * M))%Z by nia.
    destruct (tables_done p (firstOf l) (lastOf r))
      as [((_ & _ & Hmin) & _ & _)|(_ & Em & _)];
      [lia | lia | rewrite length_fmap; lia | |].
    + specialize (Hmin (lastOf l) ltac:(lia)).
      rewrite Ek, E, ofZ_ltb in Hmin by lia.
      apply bool_decide_eq_false in Hmin. lia.
    + exfalso. rewrite E in Em.
      pose proof (ofZ_below_Inf c ltac:(lia)) as Hlt.
      by rewrite Em in Hlt.
Qed.

(** The tree that is built has exactly the cost of the entry. *)
Lemma whole_built fuel i j ctr :
  1 ≤ i → i ≤ j → j ≤ n → j - i + 1 ≤ fuel →
  ∃ P, contiguous P ∧ firstOf P = i ∧ lastOf P = j ∧
    MatrixChain.build fuel T.2 i j ctr = Some (treeOf P ctr) ∧
    get2 T.1 i j = ofZ (parenCount pz P) ∧
    (0 ≤ parenCount pz P ≤ Z.of_nat (j - i) * (M * M * M))%Z.
Proof.
  revert i j ctr.
  induction fuel as [|fuel IH]; intros i j ctr Hi Hij Hj Hfuel; [lia|].
  cbn [MatrixChain.build]. case_bool_decide as Heq.
  - subst j. exists (PLeaf i). simpl. split_and!; try done; try lia.
    by destruct (tables_untouched p i i) as [-> _]; [lia|].
  - destruct (tables_belowInfinity p i j) as [(Hk & Hm & _) _];
      [rewrite length_fmap; apply whole_belowInfinity | lia | lia
      | rewrite length_fmap; lia |].
    set (k := get2 T.2 i j) in *.
    rewrite (read2_get2 (length p));
      [|apply tables_dims | rewrite length_fmap; lia..].
    fold k. simpl.
    destruct (IH i k (ctr + 1)) as (Pl & Hcl & Hfl & Hll & -> & Hml & Hbl);
      [lia..|].
    simpl. destruct (treeOf Pl (ctr + 1)) as [tl c1] eqn:Etl. simpl.
    destruct (IH (k + 1) j c1) as (Pr & Hcr & Hfr & Hlr & -> & Hmr & Hbr);
      [lia..|].
    simpl. destruct (treeOf Pr c1) as [tr c2] eqn:Etr. simpl.
    exists (PSplit Pl Pr). simpl. rewrite Etl, Etr, Hfl, Hll, Hlr.
    destruct (whole_splitCost i k j _ _ ltac:(lia) ltac:(lia) ltac:(lia)
                ltac:(lia) Hml Hbl Hmr Hbr) as [Ek Hbk].
    split_and!; [done | done | lia | done | done | done | | lia | lia].
    by rewrite Hm, Ek.
Qed.

End whole_dims.

(** X5: for whole dimensions from 0 to [M] with [n M^3 < 2^53], the entry
    [m[i][j]] of the cost table is a whole number, computed without
    rounding and below [2^53], and no full parenthesization of
    [A_i ... A_j] needs fewer scalar multiplications. *)
Theorem no_cheaper_parenthesization (M : Z) (pz : list Z) (P : Paren) :
  wholeDims M pz →
  contiguous P → 1 ≤ firstOf P → lastOf P ≤ length pz - 1 →
  ∃ c, get2 (MatrixChain.m (MatrixChain.matrixChainOrder (ofZ <$> pz)))
            (firstOf P) (lastOf P) = ofZ c ∧
       (0 ≤ c < 2 ^ 53)%Z ∧ (c ≤ parenCount pz P)%Z.
Proof.
  intros Hw Hc Hlo Hhi.
  destruct (whole_lower_bound M pz Hw P Hc Hlo Hhi) as (c & E & Hb & Hle).
  exists c. split_and!; [done | lia | | done].
  pose proof (contiguous_le P Hc).
  destruct (whole_bound M pz Hw (firstOf P) (lastOf P)); [lia..|]. lia.
Qed.

Lemma no_cheaper_parenthesization_witness :
  let pz := [4; 10; 3; 12]%Z in
  let P := PSplit (PLeaf 1) (PSplit (PLeaf 2) (PLeaf 3)) in
  wholeDims 12 pz ∧ contiguous P ∧ parenCount pz P = 840%Z ∧
  ∃ c, get2 (MatrixChain.m (MatrixChain.matrixChainOrder (ofZ <$> pz))) 1 3
       = ofZ c ∧ (0 ≤ c < 2 ^ 53)%Z ∧ (c ≤ 840)%Z.
Proof.
  intros pz P.
  assert (Hw : wholeDims 12 pz).
  { split; [repeat constructor; lia | by vm_compute]. }
  split_and!; [exact Hw | by simpl | done |].
  apply (no_cheaper_parenthesization 12 pz P Hw); simpl; (done || lia).
Defined.

(** X6: for whole dimensions from 0 to [M] with [n M^3 < 2^53], the tree
    that [buildParenthesisTree] builds from the split table is a
    parenthesization of [A_i ... A_j] whose number of scalar
    multiplications is exactly [m[i][j]], and no parenthesization of
    [A_i ... A_j] needs fewer; for [i = 1] and [j = n] that number is
    [minCost]. *)
Theorem built_tree_is_optimal (M : Z) (pz : list Z) (i j ctr : nat) :
  wholeDims M pz → 1 ≤ i → i ≤ j → j ≤ length pz - 1 →
  let r := MatrixChain.matrixChainOrder (ofZ <$> pz) in
  ∃ P, contiguous P ∧ firstOf P = i ∧ lastOf P = j ∧
    MatrixChain.build (j - i + 1) (MatrixChain.s r) i j ctr
    = Some (treeOf P ctr) ∧
    get2 (MatrixChain.m r) i j = ofZ (parenCount pz P) ∧
    (∀ P', contiguous P' → firstOf P' = i → lastOf P' = j →
           (parenCount pz P ≤ parenCount pz P')%Z) ∧
    (i = 1 → j = length pz - 1 →
     MatrixChain.minCost r = ofZ (parenCount pz P)).
Proof.
  intros Hw Hi Hij Hj r.
  change (MatrixChain.m r) with (MatrixChain.tables (ofZ <$> pz)).1.
  change (MatrixChain.s r) with (MatrixChain.tables (ofZ <$> pz)).2.
  destruct (whole_built M pz Hw (j - i + 1) i j ctr)
    as (P & Hc & Hf & Hl & Hb & Hm & Hbound); [lia..|].
  destruct (whole_bound M pz Hw i j) as [HM Hlt]; [lia..|].
  exists P. split_and!; [done..| |].
  - intros P' Hc' Hf' Hl'.
    destruct (whole_lower_bound M pz Hw P' Hc') as (c & E & Hcb & Hle);
      [lia..|].
    rewrite Hf', Hl', Hm in E.
    apply ofZ_inj in E; [lia | lia |].
    rewrite Hf', Hl' in Hcb. lia.
  - intros -> ->. simpl. rewrite length_fmap.
    rewrite bool_decide_eq_true_2 by lia. done.
Qed.

Lemma built_tree_is_optimal_witness :
  let pz := [4; 10; 3; 12]%Z in
  let r := MatrixChain.matrixChainOrder (ofZ <$> pz) in
  wholeDims 12 pz ∧
  ∃ P, contiguous P ∧
    MatrixChain.build 3 (MatrixChain.s r) 1 3 0 = Some (treeOf P 0) ∧
    MatrixChain.minCost r = ofZ (parenCount pz P) ∧
    (parenCount pz P ≤ 840)%Z.
Proof.
  intros pz r.
  assert (Hw : wholeDims 12 pz).
  { split; [repeat constructor; lia | by vm_compute]. }
  split; [exact Hw|].
  destruct (built_tree_is_optimal 12 pz 1 3 0 Hw)
    as (P & Hc & _ & _ & Hb & _ & Hopt & Hmin); [simpl; lia..|].
  exists P. split_and!; [done | done | by apply Hmin |].
  apply (Hopt (PSplit (PLeaf 1) (PSplit (PLeaf 2) (PLeaf 3))));
    [cbn; repeat split | reflexivity | reflexivity].
Defined.

(** X28: for whole dimensions from 0 to [M] with [n M^3 < 2^53], every
    entry [m[i][j]] with [1 <= i <= j <= n] is the double of a whole number
    below [2^53]; so the cost table holds no [Infinity] above the
    diagonal. *)
Theorem whole_dims_costs (M : Z) (pz : list Z) :
  wholeDims M pz →
  let r := MatrixChain.matrixChainOrder (ofZ <$> pz) in
  belowInfinity (length pz - 1) (MatrixChain.m r) ∧
  ∀ i j, 1 ≤ i → i ≤ j → j ≤ length pz - 1 →
    ∃ c, get2 (MatrixChain.m r) i j = ofZ c ∧ (0 ≤ c < 2 ^ 53)%Z.
Proof.
  intros Hw r. split; [by apply (whole_belowInfinity M)|].
  intros i j Hi Hij Hj.
  destruct (tables_whole M pz Hw i j) as (c & E & Hc); [lia..|].
  destruct (whole_bound M pz Hw i j) as [HM Hlt]; [lia..|].
  exists c. split; [done | lia].
Qed.

Lemma whole_dims_costs_witness :
  let pz := [4; 10; 3; 12; 20; 7]%Z in
  wholeDims 20 pz ∧
  belowInfinity 5
    (MatrixChain.m (MatrixChain.matrixChainOrder (ofZ <$> pz))) ∧
  MatrixChain.minCost (MatrixChain.matrixChainOrder (ofZ <$> pz)) = ofZ 1344.
Proof.
  intros pz.
  assert (Hw : wholeDims 20 pz).
  { split; [repeat constructor; lia | by vm_compute]. }
  split; [exact Hw|].
  destruct (whole_dims_costs 20 pz Hw) as [Hfin _].
  split; [exact Hfin | by vm_compute].
Defined.

(** ** Layout: nodes *)

(** A run of consecutive numbers, cut at its [n]-th element. *)
Lemma fmap_seq_mid {A} (f : nat → A) (a n m : nat) :
  f <$> seq a (S (n + m))
  = (f <$> seq a n) ++ f (a + n) :: (f <$> seq (S (a + n)) m).
Proof.
  change (f <$> seq a (S (n + m)) = (f <$> seq a n) ++ (f <$> seq (a + n) (S m))).
  by rewrite <- fmap_app, <- seq_app, Nat.add_succ_r.
Qed.

(** The in-order [traverse] numbers the nodes it visits from
    [inOrderIndex + 1] on and appends them in the order of the visit. *)
Lemma traverse_nodes hs vs node level st :
  let st' := LayoutPlain.traverse hs vs node level st in
  LayoutPlain.inOrderIndex st'
  = LayoutPlain.inOrderIndex st + LayoutPlain.countNodes node ∧
  (λ n, (LayoutPlain.id n, LayoutPlain.value n, LayoutPlain.color n))
    <$> LayoutPlain.st_nodes st'
  = ((λ n, (LayoutPlain.id n, LayoutPlain.value n, LayoutPlain.color n))
       <$> LayoutPlain.st_nodes st)
    ++ (plainFields <$> LayoutPlain.inorder node) ∧
  LayoutPlain.x <$> LayoutPlain.st_nodes st'
  = (LayoutPlain.x <$> LayoutPlain.st_nodes st)
    ++ ((λ k, inject_Z (Z.of_nat k) * hs)%Q
          <$> seq (LayoutPlain.inOrderIndex st + 1)
                  (LayoutPlain.countNodes node)).
Proof.
  revert level st.
  induction node as [|nid v c l IHl r IHr]; intros level st; simpl.
  - by rewrite Nat.add_0_r, !app_nil_r.
  - destruct (IHl (level + 1) st) as (Hi & Hf & Hx).
    match goal with
    | |- context [LayoutPlain.traverse hs vs r (level + 1) ?s] =>
        destruct (IHr (level + 1) s) as (Hi' & Hf' & Hx')
    end.
    simpl in Hi', Hf', Hx'. rewrite Hi', Hf', Hx', Hi.
    rewrite !fmap_app, Hf, Hx.
    split_and!; [lia | by rewrite <- !app_assoc |].
    rewrite <- !app_assoc. f_equal.
    cbn [fmap list_fmap app LayoutPlain.x].
    replace (LayoutPlain.inOrderIndex st + LayoutPlain.countNodes l + 1 + 1)
      with (S (LayoutPlain.inOrderIndex st + 1 + LayoutPlain.countNodes l))
      by lia.
    replace (LayoutPlain.inOrderIndex st + LayoutPlain.countNodes l + 1)
      with (LayoutPlain.inOrderIndex st + 1 + LayoutPlain.countNodes l) by lia.
    symmetry.
    exact (fmap_seq_mid (λ k, inject_Z (Z.of_nat k) * hs)%Q _ _ _).
Qed.

(** X9: the in-order [computeTreeLayout] returns one layout node per
    snapshot node, in in-order, with its id, value and color; the k-th one
    (from 1) is placed at [x = k * (width / (totalNodes + 1))]. *)
Theorem computeTreeLayout_inorder (root : LayoutPlain.TreeNode)
    (width height : Q) :
  let L := LayoutPlain.computeTreeLayout root width height in
  (λ n, (LayoutPlain.id n, LayoutPlain.value n, LayoutPlain.color n))
    <$> LayoutPlain.nodes L
  = plainFields <$> LayoutPlain.inorder root ∧
  LayoutPlain.x <$> LayoutPlain.nodes L
  = (λ k, inject_Z (Z.of_nat k)
          * (width / inject_Z (Z.of_nat (LayoutPlain.countNodes root + 1))))%Q
      <$> seq 1 (LayoutPlain.countNodes root).
Proof.
  destruct root as [|nid v c l r]; [done|].
  intros L. unfold L, LayoutPlain.computeTreeLayout.
  cbn [LayoutPlain.nodes].
  match goal with
  | |- context [LayoutPlain.traverse ?hs ?vs ?t 0 ?s] =>
      destruct (traverse_nodes hs vs t 0 s) as (_ & Hf & Hx)
  end.
  by rewrite Hf, Hx.
Qed.

(** A positive multiple of an equal share of [w], short of the whole. *)
Lemma Q_scale_inside (k m : nat) (w : Q) :
  0 < k → k < m → (0 < w)%Q →
  (0 < inject_Z (Z.of_nat k) * (w / inject_Z (Z.of_nat m)) ∧
   inject_Z (Z.of_nat k) * (w / inject_Z (Z.of_nat m)) < w)%Q.
Proof.
  intros Hk Hm Hw.
  assert (Ha : (0 < inject_Z (Z.of_nat k))%Q)
    by (change 0%Q with (inject_Z 0); rewrite <- Zlt_Qlt; lia).
  assert (Hab : (inject_Z (Z.of_nat k) < inject_Z (Z.of_nat m))%Q)
    by (rewrite <- Zlt_Qlt; lia).
  set (a := inject_Z (Z.of_nat k)) in *. set (b := inject_Z (Z.of_nat m)) in *.
  assert (Hb : (0 < b)%Q) by lra.
  split.
  - apply Qmult_lt_0_compat; [done|]. by apply Qlt_shift_div_l; lra.
  - assert (Heq : (a * (w / b) == (a * w) / b)%Q) by (unfold Qdiv; ring).
    rewrite Heq. apply Qlt_shift_div_r; [done|]. nra.
Qed.

(** Where the in-order [traverse] puts the nodes it pushes. *)
Lemma traverse_placed hs vs node level st n :
  n ∈ LayoutPlain.st_nodes (LayoutPlain.traverse hs vs node level st) →
  n ∈ LayoutPlain.st_nodes st ∨
  ∃ k d, LayoutPlain.inOrderIndex st < k
         ∧ k ≤ LayoutPlain.inOrderIndex st + LayoutPlain.countNodes node
         ∧ level < d ∧ d ≤ level + LayoutPlain.getDepth node
         ∧ LayoutPlain.x n = (inject_Z (Z.of_nat k) * hs)%Q
         ∧ LayoutPlain.y n = (inject_Z (Z.of_nat d) * vs)%Q.
Proof.
  revert level st.
  induction node as [|nid v c l IHl r IHr]; intros level st; simpl.
  - by left.
  - intros Hn. apply IHr in Hn. simpl in Hn.
    pose proof (traverse_nodes hs vs l (level + 1) st) as (Hi & _).
    simpl in Hi. rewrite Hi in Hn.
    destruct Hn as [Hn | (k & d & ? & ? & ? & ? & ? & ?)].
    + apply elem_of_app in Hn as [Hn | Hn].
      * apply IHl in Hn as [Hn | (k & d & ? & ? & ? & ? & ? & ?)]; [by left|].
        right. exists k, d. split_and!; [lia..|done|done].
      * apply list_elem_of_singleton in Hn as ->. right.
        exists (LayoutPlain.inOrderIndex st + LayoutPlain.countNodes l + 1),
               (level + 1).
        simpl. split_and!; [lia..|done|done].
    + right. exists k, d. split_and!; [lia..|done|done].
Qed.

(** X10: in exact arithmetic the in-order [computeTreeLayout] places every
    node strictly inside a canvas of positive width and height. *)
Theorem computeTreeLayout_inside (root : LayoutPlain.TreeNode)
    (width height : Q) :
  (0 < width)%Q → (0 < height)%Q →
  Forall (λ n, (0 < LayoutPlain.x n)%Q ∧ (LayoutPlain.x n < width)%Q ∧
               (0 < LayoutPlain.y n)%Q ∧ (LayoutPlain.y n < height)%Q)
         (LayoutPlain.nodes (LayoutPlain.computeTreeLayout root width height)).
Proof.
  intros Hw Hh. apply Forall_forall. intros n.
  destruct root as [|nid v c l r]; [by intros ?%elem_of_nil|].
  unfold LayoutPlain.computeTreeLayout. cbn [LayoutPlain.nodes].
  intros [Hn | (k & d & ? & ? & ? & ? & -> & ->)]%traverse_placed.
  { by apply elem_of_nil in Hn. }
  cbn [LayoutPlain.inOrderIndex] in *.
  destruct (Q_scale_inside k
    (LayoutPlain.countNodes (LayoutPlain.mkTreeNode nid v c l r) + 1) width)
    as [? ?]; [lia | lia | done |].
  destruct (Q_scale_inside d
    (LayoutPlain.getDepth (LayoutPlain.mkTreeNode nid v c l r) + 1) height)
    as [? ?]; [lia | lia | done |].
  done.
Qed.

Lemma computeTreeLayout_inside_witness :
  let root :=
    LayoutPlain.mkTreeNode 2 20 BLACK
      (LayoutPlain.mkTreeNode 1 10 RED LayoutPlain.null LayoutPlain.null)
      LayoutPlain.null in
  (0 < 1000)%Q ∧ (0 < 500)%Q ∧
  length (LayoutPlain.nodes (LayoutPlain.computeTreeLayout root 1000 500)) = 2 ∧
  Forall (λ n, (0 < LayoutPlain.x n)%Q ∧ (LayoutPlain.x n < 1000)%Q ∧
               (0 < LayoutPlain.y n)%Q ∧ (LayoutPlain.y n < 500)%Q)
         (LayoutPlain.nodes (LayoutPlain.computeTreeLayout root 1000 500)).
Proof.
  intros root. split_and!; [by vm_compute | by vm_compute | by vm_compute |].
  apply (computeTreeLayout_inside root 1000 500); by vm_compute.
Defined.

(** The id of the root is among the ids of the tree. *)
Lemma inorder_root_id nid v c l r :
  nid ∈ idOf <$> LayoutPlain.inorder (LayoutPlain.mkTreeNode nid v c l r).
Proof.
  cbn [LayoutPlain.inorder]. rewrite fmap_app, fmap_cons.
  apply elem_of_app. right. left.
Qed.

Lemma childEdge_ids nid child e :
  e ∈ LayoutPlain.childEdge nid child →
  LayoutPlain.from e = nid ∧
  LayoutPlain.to e ∈ idOf <$> LayoutPlain.inorder child.
Proof.
  destruct child as [|cid cv cc cl cr]; simpl.
  - by intros ?%elem_of_nil.
  - intros ->%list_elem_of_singleton. split; [done|].
    apply (inorder_root_id cid cv cc cl cr).
Qed.

(** Both ends of a parent-to-child pair are ids of the tree. *)
Lemma inorder_edges_ids t e :
  e ∈ LayoutPlain.inorder t ≫= LayoutPlain.childPairs →
  LayoutPlain.from e ∈ idOf <$> LayoutPlain.inorder t ∧
  LayoutPlain.to e ∈ idOf <$> LayoutPlain.inorder t.
Proof.
  induction t as [|nid v c l IHl r IHr].
  - by intros ?%elem_of_nil.
  - cbn [LayoutPlain.inorder]. rewrite bind_app, bind_cons, fmap_app, fmap_cons.
    cbn [LayoutPlain.childPairs].
    rewrite !elem_of_app.
    intros [He | [[He | He] | He]].
    + apply IHl in He as [? ?]. auto.
    + apply childEdge_ids in He as [-> ?]. rewrite !elem_of_cons. auto.
    + apply childEdge_ids in He as [-> ?]. rewrite !elem_of_cons. auto.
    + apply IHr in He as [? ?]. rewrite !elem_of_cons. auto.
Qed.

Lemma inorder_edges_length t :
  length (LayoutPlain.inorder t ≫= LayoutPlain.childPairs)
  = LayoutPlain.countNodes t - 1.
Proof.
  assert (H : ∀ t, length (LayoutPlain.inorder t ≫= LayoutPlain.childPairs)
                   + length (LayoutPlain.childEdge 0 t)
                   = LayoutPlain.countNodes t).
  { clear t. induction t as [|nid v c l IHl r IHr]; [done|].
    cbn [LayoutPlain.inorder LayoutPlain.countNodes].
    rewrite bind_app, bind_cons. cbn [LayoutPlain.childPairs].
    rewrite !length_app.
    assert (Hc : ∀ a u, length (LayoutPlain.childEdge a u)
                        = length (LayoutPlain.childEdge 0 u))
      by (by intros a []).
    rewrite (Hc nid l), (Hc nid r). simpl. lia. }
  specialize (H t). destruct t; simpl in *; lia.
Qed.

Lemma inorder_length t :
  length (LayoutPlain.inorder t) = LayoutPlain.countNodes t.
Proof.
  induction t as [|nid v c l IHl r IHr]; [done|].
  cbn [LayoutPlain.inorder LayoutPlain.countNodes].
  rewrite length_app. simpl. lia.
Qed.

(** X11: every edge of the in-order [computeTreeLayout] joins the ids of
    two nodes of the layout, and there is one edge fewer than nodes. *)
Theorem computeTreeLayout_joins_nodes (root : LayoutPlain.TreeNode)
    (width height : Q) :
  let L := LayoutPlain.computeTreeLayout root width height in
  Forall (λ e, LayoutPlain.from e ∈ LayoutPlain.id <$> LayoutPlain.nodes L ∧
               LayoutPlain.to e ∈ LayoutPlain.id <$> LayoutPlain.nodes L)
         (LayoutPlain.edges L) ∧
  length (LayoutPlain.edges L) = length (LayoutPlain.nodes L) - 1.
Proof.
  intros L.
  assert (He : LayoutPlain.edges L
               = LayoutPlain.inorder root ≫= LayoutPlain.childPairs).
  { destruct root as [|nid v c l r]; [done|].
    unfold L, LayoutPlain.computeTreeLayout. cbn [LayoutPlain.edges].
    by rewrite traverse_edges. }
  assert (Hn : LayoutPlain.id <$> LayoutPlain.nodes L
               = idOf <$> LayoutPlain.inorder root).
  { destruct root as [|nid v c l r]; [done|].
    unfold L, LayoutPlain.computeTreeLayout. cbn [LayoutPlain.nodes].
    match goal with
    | |- context [LayoutPlain.traverse ?hs ?vs ?t 0 ?s] =>
        destruct (traverse_nodes hs vs t 0 s) as (_ & Hf & _)
    end.
    cbn [LayoutPlain.st_nodes fmap list_fmap app] in Hf.
    apply (f_equal (fmap (λ p : Z * Z * Color, p.1.1))) in Hf.
    rewrite <- !list_fmap_compose in Hf. exact Hf. }
  split.
  - apply Forall_forall. intros e. rewrite He, Hn. apply inorder_edges_ids.
  - rewrite He, inorder_edges_length.
    rewrite <- (length_fmap LayoutPlain.id), Hn, length_fmap, inorder_length.
    done.
Qed.

(** ** Layout with NIL leaves *)

(** The nodes pushed below a parent: two per real node and one more, the
    NIL leaves being one more than the real nodes. *)
Lemma traverse_count n d lb rb p isL :
  length (LayoutNil.traverse n d lb rb (Some p) isL)
  = 2 * length (LayoutNil.preorder n) + 1 ∧
  length (filter isNil (LayoutNil.traverse n d lb rb (Some p) isL))
  = length (LayoutNil.preorder n) + 1.
Proof.
  revert d lb rb p isL.
  induction n as [|nid v c l IHl r IHr ppid]; intros d lb rb p isL; [done|].
  cbn [LayoutNil.traverse LayoutNil.preorder].
  rewrite filter_cons_False by done.
  rewrite filter_app. cbn [length]. rewrite !length_app.
  edestruct IHl as [-> ->]. edestruct IHr as [-> ->]. lia.
Qed.

(** X12: for a snapshot of [n] nodes the [computeTreeLayout] that draws the
    NIL leaves returns [2 n + 1] layout nodes, [n + 1] of them NIL leaves. *)
Theorem computeTreeLayout_leaves (root : RBNode) (width height : Q) :
  root ≠ null →
  let L := LayoutNil.computeTreeLayout root width height in
  length (LayoutNil.nodes L) = 2 * length (LayoutNil.preorder root) + 1 ∧
  length (filter isNil (LayoutNil.nodes L))
  = length (LayoutNil.preorder root) + 1.
Proof.
  destruct root as [|nid v c l r ppid]; [done|]. intros _ L.
  unfold L, LayoutNil.computeTreeLayout.
  cbn [LayoutNil.nodes LayoutNil.traverse LayoutNil.preorder].
  rewrite filter_cons_False by done.
  rewrite filter_app. cbn [length]. rewrite !length_app.
  edestruct (traverse_count l) as [-> ->].
  edestruct (traverse_count r) as [-> ->]. lia.
Qed.

Lemma computeTreeLayout_leaves_witness :
  let root := mkRBNode 2 20 BLACK (mkRBNode 1 10 RED null null (Some 2%Z))
                       null None in
  root ≠ null ∧
  length (LayoutNil.nodes (LayoutNil.computeTreeLayout root 1000 500)) = 5 ∧
  length (filter isNil
            (LayoutNil.nodes (LayoutNil.computeTreeLayout root 1000 500))) = 3.
Proof.
  intros root. split; [done|].
  apply (computeTreeLayout_leaves root 1000 500). done.
Defined.

(** The split point lies between the two bounds. *)
Lemma splitX_inside (lc rc : nat) (lb rb : Q) :
  (lb <= rb)%Q →
  let tc := lc + rc in
  let ratio := if bool_decide (0 < tc)
               then (inject_Z (Z.of_nat lc) / inject_Z (Z.of_nat tc))%Q
               else (1 # 2)%Q in
  (lb <= lb + (rb - lb) * ratio)%Q ∧ (lb + (rb - lb) * ratio <= rb)%Q.
Proof.
  intros Hb tc ratio.
  assert (Hr : (0 <= ratio)%Q ∧ (ratio <= 1)%Q).
  { unfold ratio. case_bool_decide as Htc; [|lra].
    assert (Ht : (0 < inject_Z (Z.of_nat tc))%Q)
      by (change 0%Q with (inject_Z 0); rewrite <- Zlt_Qlt; lia).
    assert (Hl : (0 <= inject_Z (Z.of_nat lc))%Q)
      by (change 0%Q with (inject_Z 0); rewrite <- Zle_Qle; lia).
    assert (Hlt : (inject_Z (Z.of_nat lc) <= inject_Z (Z.of_nat tc))%Q)
      by (rewrite <- Zle_Qle; lia).
    split.
    - apply Qle_shift_div_l; [done|]. lra.
    - apply Qle_shift_div_r; [done|]. lra. }
  destruct Hr. split; nra.
Qed.

Lemma midX_inside (lb rb : Q) :
  (lb <= rb)%Q → (lb <= (lb + rb) / 2)%Q ∧ ((lb + rb) / 2 <= rb)%Q.
Proof.
  intros Hb. unfold Qdiv. change (/ 2)%Q with (1 # 2)%Q. split; lra.
Qed.

(** Every node pushed by [traverse] is inside its horizontal slice. *)
Lemma traverse_inside n d lb rb pid isL a :
  (lb <= rb)%Q →
  a ∈ LayoutNil.traverse n d lb rb pid isL →
  (lb <= LayoutNil.x a)%Q ∧ (LayoutNil.x a <= rb)%Q ∧
  ∃ k, d ≤ k ∧ k ≤ d + levels n ∧
       LayoutNil.y a = inject_Z (50 + Z.of_nat k * 60).
Proof.
  revert d lb rb pid isL.
  induction n as [|nid v c l IHl r IHr ppid]; intros d lb rb pid isL Hb.
  - cbn [LayoutNil.traverse]. destruct pid as [p|]; [|by intros ?%elem_of_nil].
    intros ->%list_elem_of_singleton. cbn [LayoutNil.x LayoutNil.y].
    destruct (midX_inside lb rb Hb). split_and!; [done | done |]. exists d. split_and!; [lia | lia | done].
  - cbn [LayoutNil.traverse levels].
    destruct (splitX_inside (LayoutNil.countNodes l) (LayoutNil.countNodes r)
                lb rb Hb) as [H1 H2].
    cbn zeta in H1, H2.
    rewrite elem_of_cons, elem_of_app. intros [-> | [Ha | Ha]].
    + cbn [LayoutNil.x LayoutNil.y].
      destruct (midX_inside lb rb Hb). split_and!; [done | done |]. exists d. split_and!; [lia | lia | done].
    + apply IHl in Ha as (? & ? & k & ? & ? & ?); [|done].
      split_and!; [lra | lra |]. exists k. split_and!; [lia | lia | done].
    + apply IHr in Ha as (? & ? & k & ? & ? & ?); [|done].
      split_and!; [lra | lra |]. exists k. split_and!; [lia | lia | done].
Qed.

(** X13: in exact arithmetic, on a canvas at least 80 wide, every node of
    the layout with NIL leaves has its [x] between the two margins of 40,
    and its [y] is [50 + 60 k] for a level [k] of the tree. *)
Theorem computeTreeLayout_within_margins (root : RBNode) (width height : Q) :
  (80 <= width)%Q →
  Forall (λ n, (40 <= LayoutNil.x n)%Q ∧ (LayoutNil.x n <= width - 40)%Q ∧
               ∃ k, k ≤ levels root ∧
                    LayoutNil.y n = inject_Z (50 + Z.of_nat k * 60))
         (LayoutNil.nodes (LayoutNil.computeTreeLayout root width height)).
Proof.
  intros Hw. apply Forall_forall. intros n.
  destruct root as [|nid v c l r ppid]; [by intros ?%elem_of_nil|].
  unfold LayoutNil.computeTreeLayout. cbn [LayoutNil.nodes].
  intros (? & ? & k & ? & ? & ?)%traverse_inside.
  - split_and!; [done | done |]. exists k. split; [lia | done].
  - unfold LayoutNil.margin. lra.
Qed.

Lemma computeTreeLayout_within_margins_witness :
  let root := mkRBNode 2 20 BLACK (mkRBNode 1 10 RED null null (Some 2%Z))
                       null None in
  (80 <= 1000)%Q ∧
  length (LayoutNil.nodes (LayoutNil.computeTreeLayout root 1000 500)) = 5 ∧
  Forall (λ n, (40 <= LayoutNil.x n)%Q ∧ (LayoutNil.x n <= 1000 - 40)%Q ∧
               ∃ k, k ≤ levels root ∧
                    LayoutNil.y n = inject_Z (50 + Z.of_nat k * 60))
         (LayoutNil.nodes (LayoutNil.computeTreeLayout root 1000 500)).
Proof.
  intros root. split_and!; [by vm_compute | by vm_compute |].
  apply (computeTreeLayout_within_margins root 1000 500). by vm_compute.
Defined.

(** The keys of the map are the ids of the pushed nodes. *)
Lemma nodeMap_in (nodes : list LayoutNil.LayoutNode) (k : Z) :
  is_Some (LayoutNil.nodeMap nodes !! k) → k ∈ LayoutNil.id <$> nodes.
Proof.
  unfold LayoutNil.nodeMap.
  assert (H : ∀ (m : gmap Z LayoutNil.LayoutNode),
    is_Some (foldl (λ m n, <[LayoutNil.id n := n]> m) m nodes !! k) →
    k ∈ LayoutNil.id <$> nodes ∨ is_Some (m !! k)).
  { induction nodes as [|a nodes IH]; intros m Hm; simpl in *; [by right|].
    apply IH in Hm as [Hm | Hm]; [left; by right|].
    apply lookup_insert_is_Some in Hm as [-> | [_ Hm]]; [left; left | by right]. }
  intros [Hk | Hk]%H; [done|].
  rewrite lookup_empty in Hk. by destruct Hk.
Qed.

(** The child ids that a pushed node holds are ids of pushed nodes. *)
Lemma traverse_child_ids n d lb rb pid isL a c :
  a ∈ LayoutNil.traverse n d lb rb pid isL →
  LayoutNil.leftId a = Some c ∨ LayoutNil.rightId a = Some c →
  c ∈ LayoutNil.id <$> LayoutNil.traverse n d lb rb pid isL.
Proof.
  revert d lb rb pid isL.
  induction n as [|nid v cl l IHl r IHr ppid]; intros d lb rb pid isL.
  - simpl. destruct pid as [p|]; [|by intros ?%elem_of_nil].
    intros ->%list_elem_of_singleton. by intros [? | ?].
  - cbn [LayoutNil.traverse]. rewrite fmap_cons, fmap_app.
    rewrite !elem_of_cons, !elem_of_app.
    intros [-> | [Ha | Ha]] Hc.
    + cbn [LayoutNil.leftId LayoutNil.rightId] in Hc. right.
      destruct Hc as [Hc | Hc].
      * left. destruct l as [|lid lv lc ll lr lp]; [done|].
        injection Hc as <-. cbn [LayoutNil.traverse]. rewrite fmap_cons. left.
      * right. destruct r as [|rid rv rc rl rr rp]; [done|].
        injection Hc as <-. cbn [LayoutNil.traverse]. rewrite fmap_cons. left.
    + right. left. by eapply IHl.
    + right. right. by eapply IHr.
Qed.

Lemma truthy_Some i c : LayoutNil.truthy i = Some c → i = Some c.
Proof.
  destruct i as [z|]; [|done]. simpl. by case_bool_decide.
Qed.

Lemma sideEdge_joins nm a childId isL e :
  e ∈ LayoutNil.sideEdge nm a childId isL →
  LayoutNil.from e = LayoutNil.id a ∧
  (childId = Some (LayoutNil.to e) ∨ is_Some (nm !! LayoutNil.to e)).
Proof.
  unfold LayoutNil.sideEdge.
  destruct (LayoutNil.truthy childId) as [c|] eqn:Ht.
  - intros ->%list_elem_of_singleton. split; [done|]. left.
    by apply truthy_Some.
  - case_bool_decide as Hm; [|by intros ?%elem_of_nil].
    intros ->%list_elem_of_singleton. split; [done|]. by right.
Qed.

(** X14: every edge of the layout with NIL leaves joins the ids of two
    nodes of the layout, whatever the ids of the snapshot; when these are
    positive there is one edge fewer than nodes. *)
Theorem computeTreeLayout_joins_drawn (root : RBNode) (width height : Q) :
  let L := LayoutNil.computeTreeLayout root width height in
  Forall (λ e, LayoutNil.from e ∈ LayoutNil.id <$> LayoutNil.nodes L ∧
               LayoutNil.to e ∈ LayoutNil.id <$> LayoutNil.nodes L)
         (LayoutNil.edges L) ∧
  (LayoutNil.positiveIds root →
   length (LayoutNil.edges L) = length (LayoutNil.nodes L) - 1).
Proof.
  intros L. destruct root as [|nid v c l r ppid]; [by split|].
  unfold L, LayoutNil.computeTreeLayout.
  cbn [LayoutNil.nodes LayoutNil.edges].
  set (nodes := LayoutNil.traverse _ _ _ _ _ _).
  split.
  - apply Forall_forall. intros e (a & He & Ha)%list_elem_of_bind.
    unfold LayoutNil.nodeEdges in He.
    case_bool_decide; [|by apply elem_of_nil in He].
    assert (Hside : ∀ childId isL,
      (childId = LayoutNil.leftId a ∨ childId = LayoutNil.rightId a) →
      e ∈ LayoutNil.sideEdge (LayoutNil.nodeMap nodes) a childId isL →
      LayoutNil.from e ∈ LayoutNil.id <$> nodes ∧
      LayoutNil.to e ∈ LayoutNil.id <$> nodes).
    { intros childId isL Hchild [-> Hto]%sideEdge_joins. split.
      - by apply list_elem_of_fmap_2.
      - destruct Hto as [-> | Hto]; [|by apply nodeMap_in].
        apply (traverse_child_ids _ _ _ _ _ _ a); [done|].
        destruct Hchild as [<- | <-]; auto. }
    apply elem_of_app in He as [He | He];
      [apply (Hside (LayoutNil.leftId a) true)
      |apply (Hside (LayoutNil.rightId a) false)]; auto.
  - intros Hpos. unfold nodes at 1 2.
    rewrite (traverse_nodeEdges _ _ _ _ _ _ _ Hpos); first last.
    { intros x Hx. by apply nodeMap_has. }
    { done. }
    unfold nodes. cbn [LayoutNil.traverse LayoutNil.preorder].
    rewrite bind_cons, bind_app. cbn [length LayoutNil.drawnEdges].
    rewrite !length_app.
    edestruct (traverse_count l) as [-> _].
    edestruct (traverse_count r) as [-> _].
    assert (Hlen : ∀ t, length (LayoutNil.preorder t ≫= LayoutNil.drawnEdges)
                        = 2 * length (LayoutNil.preorder t)).
    { induction t as [|? ? ? tl IHtl tr IHtr ?]; [done|].
      cbn [LayoutNil.preorder]. rewrite bind_cons, bind_app.
      cbn [length LayoutNil.drawnEdges]. rewrite !length_app, IHtl, IHtr.
      simpl. lia. }
    rewrite !Hlen. simpl. lia.
Qed.

Lemma computeTreeLayout_joins_drawn_witness :
  let root := mkRBNode 2 20 BLACK (mkRBNode 1 10 RED null null (Some 2%Z))
                       null None in
  let L := LayoutNil.computeTreeLayout root 1000 500 in
  LayoutNil.positiveIds root ∧
  length (LayoutNil.nodes L) = 5 ∧ length (LayoutNil.edges L) = 4.
Proof.
  intros root L. split_and!; [by vm_compute | by vm_compute |].
  destruct (computeTreeLayout_joins_drawn root 1000 500) as [_ H].
  unfold L. rewrite H; by vm_compute.
Defined.








(** ** Layout of the parenthesization tree *)

Section matrix_chain_visualizer.
Import MatrixChainVisualizer.

(** Induction on a tree through its optional children. *)
Lemma TreeNode_induction (P : MatrixChain.TreeNode → Prop) :
  (∀ i lbl l r, from_option P True l → from_option P True r →
                P (MatrixChain.mkTreeNode i lbl l r)) →
  ∀ t, P t.
Proof.
  intros H. fix IH 1. intros [i lbl [a|] [b|]]; apply H; simpl;
    try exact I; apply IH.
Qed.

Lemma inorderAt_length t d : length (inorderAt t d) = MatrixChain.size t.
Proof.
  revert d. induction t as [i lbl l r IHl IHr] using TreeNode_induction.
  intros d. cbn [inorderAt MatrixChain.size]. rewrite length_app. cbn [length].
  destruct l as [a|], r as [b|]; simpl in *; rewrite ?IHl, ?IHr; lia.
Qed.

(** What [assign] adds: the nodes of the subtree in in-order, in the
    columns from [cursor] on, and the edges of the subtree, a node's after
    those of its subtrees. *)
Lemma assignNode_nodes fx fy t depth st :
  cursor (assignNode fx fy t depth st) = cursor st + MatrixChain.size t ∧
  st_nodes (assignNode fx fy t depth st) = st_nodes st
    ++ imap (λ k, placeAt fx fy (cursor st + k)) (inorderAt t depth) ∧
  st_edges (assignNode fx fy t depth st)
  = st_edges st ++ (postorder t ≫= links).
Proof.
  revert depth st. induction t as [i lbl l r IHl IHr] using TreeNode_induction.
  intros depth st.
  assert (Hl : ∀ d s, let s' := match l with
                                 | Some a => assignNode fx fy a d s
                                 | None => s end in
    cursor s' = cursor s + from_option MatrixChain.size 0 l ∧
    st_nodes s' = st_nodes s
      ++ imap (λ k, placeAt fx fy (cursor s + k))
           (match l with Some a => inorderAt a d | None => [] end) ∧
    st_edges s' = st_edges s
      ++ (match l with Some a => postorder a | None => [] end ≫= links)).
  { intros d s. destruct l as [a|]; cbn [from_option] in *; [apply IHl|].
    by rewrite Nat.add_0_r, !app_nil_r. }
  assert (Hr : ∀ d s, let s' := match r with
                                 | Some a => assignNode fx fy a d s
                                 | None => s end in
    cursor s' = cursor s + from_option MatrixChain.size 0 r ∧
    st_nodes s' = st_nodes s
      ++ imap (λ k, placeAt fx fy (cursor s + k))
           (match r with Some a => inorderAt a d | None => [] end) ∧
    st_edges s' = st_edges s
      ++ (match r with Some a => postorder a | None => [] end ≫= links)).
  { intros d s. destruct r as [b|]; cbn [from_option] in *; [apply IHr|].
    by rewrite Nat.add_0_r, !app_nil_r. }
  clear IHl IHr.
  cbn [assignNode inorderAt postorder MatrixChain.size].
  cbn [cursor st_nodes st_edges].
  destruct (Hl (depth + 1) st) as (Hc1 & Hn1 & He1). cbn zeta in Hc1, Hn1, He1.
  match goal with
  | |- context [match r with Some b => assignNode fx fy b (depth + 1) ?s
                | None => _ end] =>
      destruct (Hr (depth + 1) s) as (Hc3 & Hn3 & He3)
  end.
  cbn zeta in Hc3, Hn3, He3. cbn [cursor st_nodes st_edges] in Hc3, Hn3, He3.
  rewrite Hc3, Hn3, He3, Hc1, Hn1, He1.
  assert (Hlen : length (match l with Some a => inorderAt a (depth + 1) | None => [] end)
                 = from_option MatrixChain.size 0 l).
  { destruct l; [apply inorderAt_length | done]. }
  split_and!.
  - destruct l, r; simpl; lia.
  - rewrite imap_app, imap_cons, <- !app_assoc. f_equal. f_equal.
    rewrite Hlen. cbn [app]. f_equal.
    + unfold placeAt. cbn [fst snd MatrixChain.id MatrixChain.label].
      by rewrite Nat.add_0_r.
    + apply imap_ext. intros k ud _. unfold compose. f_equal. lia.
  - rewrite !bind_app, <- !app_assoc. do 2 f_equal.
    cbn [mbind list_bind links app]. by rewrite app_nil_r.
Qed.

Lemma tightLo_push b zs z :
  tightLo b zs →
  tightLo (if bound_ltb (Finite z) b then Finite z else b) (zs ++ [z]).
Proof.
  destruct zs as [|a zs]; simpl.
  - intros ->. simpl. exists z. split_and!; [done | left | by repeat constructor].
  - intros (m & -> & Hm & Hall). simpl. case_bool_decide as Hlt.
    + exists z. split_and!; [done | set_solver |].
      apply Forall_cons. split.
      * apply Forall_cons in Hall as [? _]. lia.
      * apply Forall_app. split; [|by repeat constructor].
        apply Forall_cons in Hall as [_ Hall].
        eapply Forall_impl; [exact Hall|]. simpl. lia.
    + exists m. split_and!; [done | set_solver |].
      rewrite app_comm_cons. apply Forall_app. split; [done|].
      repeat constructor. lia.
Qed.

Lemma tightHi_push b zs z :
  tightHi b zs →
  tightHi (if bound_ltb b (Finite z) then Finite z else b) (zs ++ [z]).
Proof.
  destruct zs as [|a zs]; simpl.
  - intros ->. simpl. exists z. split_and!; [done | left | by repeat constructor].
  - intros (m & -> & Hm & Hall). simpl. case_bool_decide as Hlt.
    + exists z. split_and!; [done | set_solver |].
      apply Forall_cons. split.
      * apply Forall_cons in Hall as [? _]. lia.
      * apply Forall_app. split; [|by repeat constructor].
        apply Forall_cons in Hall as [_ Hall].
        eapply Forall_impl; [exact Hall|]. simpl. lia.
    + exists m. split_and!; [done | set_solver |].
      rewrite app_comm_cons. apply Forall_app. split; [done|].
      repeat constructor. lia.
Qed.

(** [assign] keeps the four bounds tight. *)
Lemma assignNode_boxed fx fy t depth st :
  boxed st → boxed (assignNode fx fy t depth st).
Proof.
  revert depth st. induction t as [i lbl l r IHl IHr] using TreeNode_induction.
  intros depth st Hst.
  assert (Hl : ∀ d s, boxed s →
    boxed match l with Some a => assignNode fx fy a d s | None => s end).
  { intros d s. destruct l; [apply IHl | done]. }
  assert (Hr : ∀ d s, boxed s →
    boxed match r with Some a => assignNode fx fy a d s | None => s end).
  { intros d s. destruct r; [apply IHr | done]. }
  clear IHl IHr. cbn [assignNode].
  specialize (Hl (depth + 1) st Hst).
  set (st1 := match l with Some a => _ | None => _ end) in *. clearbody st1.
  match goal with
  | |- context [match r with Some b => assignNode fx fy b (depth + 1) ?s
                | None => _ end] =>
      specialize (Hr (depth + 1) s); set (st2 := s) in *
  end.
  assert (H2 : boxed st2).
  { destruct Hl as (? & ? & ? & ?). unfold boxed, st2.
    cbn [st_nodes st_minX st_maxX st_minY st_maxY]. rewrite !fmap_app.
    cbn [fmap list_fmap x y].
    split_and!; auto using tightLo_push, tightHi_push. }
  specialize (Hr H2). clearbody st2.
  set (st3 := match r with Some a => _ | None => _ end) in *. clearbody st3.
  exact Hr.
Qed.

Lemma layoutTree_lists fx fy fr root :
  let st := assign fx fy root 0
              (mkAssignState [] [] Infinity NegInfinity Infinity NegInfinity 0) in
  nodes (layoutTree fx fy fr root) = st_nodes st ∧
  edges (layoutTree fx fy fr root) = st_edges st.
Proof. intros st. unfold layoutTree. fold st. by case_bool_decide. Qed.

Lemma layoutTree_placed (floorX floorY floorR : Z) (t : MatrixChain.TreeNode) :
  nodes (layoutTree floorX floorY floorR (Some t))
  = imap (placeAt floorX floorY) (inorderAt t 0).
Proof.
  destruct (layoutTree_lists floorX floorY floorR (Some t)) as [-> _].
  cbn [assign].
  destruct (assignNode_nodes floorX floorY t 0
    (mkAssignState [] [] Infinity NegInfinity Infinity NegInfinity 0))
    as (_ & -> & _).
  done.
Qed.


(** X15: [layoutTree] returns the nodes of the tree in in-order, with
    their id and label; the [k]-th one (from 0) is in column [k], at
    [x = k * spacingX + xOffset], and a node of depth [d] is at
    [y = d * spacingY + yOffset]. *)
Theorem layoutTree_nodes (floorX floorY floorR : Z) (t : MatrixChain.TreeNode) :
  nodes (layoutTree floorX floorY floorR (Some t))
  = imap (placeAt floorX floorY) (inorderAt t 0).
Proof. apply layoutTree_placed. Qed.

Lemma layoutTree_tight (floorX floorY floorR : Z) (t : MatrixChain.TreeNode) :
  let L := layoutTree floorX floorY floorR (Some t) in
  ∃ x0 x1 y0 y1 : Z,
    minX L = Finite x0 ∧ maxX L = Finite x1 ∧
    minY L = Finite y0 ∧ maxY L = Finite y1 ∧
    Forall (λ n, (x0 ≤ x n ≤ x1)%Z ∧ (y0 ≤ y n ≤ y1)%Z) (nodes L) ∧
    x0 ∈ x <$> nodes L ∧ x1 ∈ x <$> nodes L ∧
    y0 ∈ y <$> nodes L ∧ y1 ∈ y <$> nodes L.
Proof.
  intros L.
  pose proof (layoutTree_placed floorX floorY floorR t) as Hn. fold L in Hn.
  assert (Hbox : boxed (assignNode floorX floorY t 0
    (mkAssignState [] [] Infinity NegInfinity Infinity NegInfinity 0))).
  { by apply assignNode_boxed. }
  unfold L, layoutTree in *. cbn [assign] in *.
  set (st := assignNode _ _ _ _ _) in *. clearbody st.
  destruct Hbox as (Hx0 & Hx1 & Hy0 & Hy1).
  assert (Hne : st_nodes st ≠ []).
  { intros Hnil. revert Hn. case_bool_decide; cbn [nodes]; rewrite Hnil;
      intros Hn; symmetry in Hn; apply (f_equal length) in Hn;
      rewrite length_imap, inorderAt_length in Hn; destruct t; simpl in Hn; lia. }
  unfold tightLo, tightHi in *.
  destruct (st_nodes st) as [|n0 ns] eqn:Hns; [done|].
  rewrite fmap_cons in *.
  destruct Hx0 as (x0 & Ex0 & ? & Fx0), Hx1 as (x1 & Ex1 & ? & Fx1),
           Hy0 as (y0 & Ey0 & ? & Fy0), Hy1 as (y1 & Ey1 & ? & Fy1).
  rewrite bool_decide_eq_false_2 by (by rewrite Ex0).
  cbn [nodes minX maxX minY maxY].
  exists x0, x1, y0, y1. split_and!; try done.
  rewrite <- !fmap_cons in *.
  rewrite Forall_fmap in Fx0, Fx1, Fy0, Fy1.
  rewrite Forall_forall in Fx0, Fx1, Fy0, Fy1. apply Forall_forall.
  intros n Hin. specialize (Fx0 n Hin). specialize (Fx1 n Hin).
  specialize (Fy0 n Hin). specialize (Fy1 n Hin). simpl in *. lia.
Qed.

(** X16: for a tree, the [minX], [maxX], [minY] and [maxY] that
    [layoutTree] returns are the smallest box around the node positions:
    every node is inside and each bound is the coordinate of some node.  For
    no tree it returns no node, no edge and the box from 0 to one spacing. *)
Theorem layoutTree_bounding_box (floorX floorY floorR : Z) :
  (∀ t : MatrixChain.TreeNode,
     let L := layoutTree floorX floorY floorR (Some t) in
     ∃ x0 x1 y0 y1 : Z,
       minX L = Finite x0 ∧ maxX L = Finite x1 ∧
       minY L = Finite y0 ∧ maxY L = Finite y1 ∧
       Forall (λ n, (x0 ≤ x n ≤ x1)%Z ∧ (y0 ≤ y n ≤ y1)%Z) (nodes L) ∧
       x0 ∈ x <$> nodes L ∧ x1 ∈ x <$> nodes L ∧
       y0 ∈ y <$> nodes L ∧ y1 ∈ y <$> nodes L) ∧
  layoutTree floorX floorY floorR None
  = mkLayoutResult [] [] (12 `max` floorR)%Z
      (Finite 0) (Finite (spacingX floorX))
      (Finite 0) (Finite (spacingY floorY)).
Proof. split; [apply layoutTree_tight | done]. Qed.

(** The depths of the nodes of a tree: from the depth of the root to
    [depthBelow] more, both reached. *)
Lemma inorderAt_depths t d :
  Forall (λ ud, d ≤ ud.2 ∧ ud.2 ≤ d + depthBelow t) (inorderAt t d) ∧
  (t, d) ∈ inorderAt t d ∧
  ∃ u, (u, d + depthBelow t) ∈ inorderAt t d.
Proof.
  revert d. induction t as [i lbl l r IHl IHr] using TreeNode_induction.
  intros d. cbn [inorderAt depthBelow].
  split_and!.
  - apply Forall_app. split; [|apply Forall_cons; split].
    + destruct l as [a|]; [|done]. destruct (IHl (d + 1)) as (Hall & _).
      eapply Forall_impl; [exact Hall|]. simpl. lia.
    + simpl. lia.
    + destruct r as [b|]; [|done]. destruct (IHr (d + 1)) as (Hall & _).
      eapply Forall_impl; [exact Hall|]. simpl. lia.
  - apply elem_of_app. right. left.
  - destruct l as [a|], r as [b|]; cbn [from_option] in *.
    + destruct (IHl (d + 1)) as (_ & _ & ua & Ha).
      destruct (IHr (d + 1)) as (_ & _ & ub & Hb).
      destruct (decide (depthBelow b ≤ depthBelow a)).
      * exists ua. replace (d + _) with (d + 1 + depthBelow a) by lia.
        set_solver.
      * exists ub. replace (d + _) with (d + 1 + depthBelow b) by lia.
        set_solver.
    + destruct (IHl (d + 1)) as (_ & _ & ua & Ha).
      exists ua. replace (d + _) with (d + 1 + depthBelow a) by lia.
      set_solver.
    + destruct (IHr (d + 1)) as (_ & _ & ub & Hb).
      exists ub. replace (d + _) with (d + 1 + depthBelow b) by lia.
      set_solver.
    + exists (MatrixChain.mkTreeNode i lbl None None).
      replace (d + _) with d by lia. set_solver.
Qed.

Lemma spacingX_pos fx : (80 ≤ spacingX fx)%Z.
Proof. unfold spacingX. lia. Qed.
Lemma spacingY_pos fy : (70 ≤ spacingY fy)%Z.
Proof. unfold spacingY. lia. Qed.

(** X17: the box that [layoutTree] returns for a tree of [size] nodes and
    [depthBelow] levels below the root goes from [xOffset] to
    [(size - 1) * spacingX + xOffset] and from [yOffset] to
    [depthBelow * spacingY + yOffset]. *)
Theorem layoutTree_extent (floorX floorY floorR : Z) (t : MatrixChain.TreeNode) :
  let L := layoutTree floorX floorY floorR (Some t) in
  minX L = Finite (xOffset floorX) ∧
  maxX L = Finite (Z.of_nat (MatrixChain.size t - 1) * spacingX floorX
                   + xOffset floorX) ∧
  minY L = Finite (yOffset floorY) ∧
  maxY L = Finite (Z.of_nat (depthBelow t) * spacingY floorY + yOffset floorY).
Proof.
  intros L.
  destruct (layoutTree_tight floorX floorY floorR t)
    as (x0 & x1 & y0 & y1 & Ex0 & Ex1 & Ey0 & Ey1 & Hall & Hx0 & Hx1 & Hy0 & Hy1).
  fold L in Ex0, Ex1, Ey0, Ey1, Hall, Hx0, Hx1, Hy0, Hy1.
  rewrite Ex0, Ex1, Ey0, Ey1.
  pose proof (layoutTree_placed floorX floorY floorR t) as Hn. fold L in Hn.
  rewrite Hn in Hall, Hx0, Hx1, Hy0, Hy1. clear Hn.
  pose proof (spacingX_pos floorX) as Hsx.
  pose proof (spacingY_pos floorY) as Hsy.
  pose proof (inorderAt_length t 0) as Hlen.
  destruct (inorderAt_depths t 0) as (Hd & Hroot & (u & Hu)).
  rewrite Forall_forall in Hd. rewrite Forall_forall in Hall.
  assert (Hat : ∀ n, n ∈ imap (placeAt floorX floorY) (inorderAt t 0) →
    ∃ k ud, inorderAt t 0 !! k = Some ud ∧ n = placeAt floorX floorY k ud).
  { intros n (k & Hk)%list_elem_of_lookup_1.
    rewrite list_lookup_imap in Hk.
    destruct (inorderAt t 0 !! k) as [ud|] eqn:Hud; [|done].
    exists k, ud. split; [done|]. by injection Hk. }
  assert (Hin : ∀ k ud, inorderAt t 0 !! k = Some ud →
    placeAt floorX floorY k ud ∈ imap (placeAt floorX floorY) (inorderAt t 0)).
  { intros k ud Hk. apply (list_elem_of_lookup_2 _ k).
    by rewrite list_lookup_imap, Hk. }
  assert (Hsize : 0 < MatrixChain.size t) by (destruct t; simpl; lia).
  destruct (lookup_lt_is_Some_2 (inorderAt t 0) 0) as [ud0 H0]; [lia|].
  destruct (lookup_lt_is_Some_2 (inorderAt t 0) (MatrixChain.size t - 1))
    as [ud1 H1]; [lia|].
  apply list_elem_of_lookup_1 in Hroot as (kr & Hkr).
  apply list_elem_of_lookup_1 in Hu as (ku & Hku).
  pose proof (Hall _ (Hin _ _ H0)) as [B0 _].
  pose proof (Hall _ (Hin _ _ H1)) as [B1 _].
  pose proof (Hall _ (Hin _ _ Hkr)) as [_ Br].
  pose proof (Hall _ (Hin _ _ Hku)) as [_ Bu].
  cbn [placeAt x y fst snd] in B0, B1, Br, Bu.
  apply list_elem_of_fmap in Hx0 as (n0 & -> & (k0 & u0 & Hk0 & ->)%Hat).
  apply list_elem_of_fmap in Hx1 as (n1 & -> & (k1 & u1 & Hk1 & ->)%Hat).
  apply list_elem_of_fmap in Hy0 as (m0 & -> & (j0 & v0 & Hj0 & ->)%Hat).
  apply list_elem_of_fmap in Hy1 as (m1 & -> & (j1 & v1 & Hj1 & ->)%Hat).
  cbn [placeAt x y fst snd] in *.
  pose proof (lookup_lt_Some _ _ _ Hk1) as Hk1lt.
  pose proof (Hd _ (list_elem_of_lookup_2 _ _ _ Hj0)) as Hv0.
  pose proof (Hd _ (list_elem_of_lookup_2 _ _ _ Hj1)) as Hv1.
  simpl in Hv0, Hv1.
  split_and!; f_equal; nia.
Qed.

Lemma imap_placeAt_ids fx fy (f : nat → nat) (l : list (MatrixChain.TreeNode * nat)) :
  id <$> imap (λ k, placeAt fx fy (f k)) l = (MatrixChain.id ∘ fst) <$> l.
Proof.
  revert f. induction l as [|a l IH]; intros f; [done|].
  rewrite imap_cons, !fmap_cons. f_equal. apply (IH (f ∘ S)).
Qed.

Lemma inorderAt_root_id t d :
  MatrixChain.id t ∈ (MatrixChain.id ∘ fst) <$> inorderAt t d.
Proof.
  destruct (inorderAt_depths t d) as (_ & Hroot & _).
  by apply (list_elem_of_fmap_2 (MatrixChain.id ∘ fst)) in Hroot.
Qed.

Lemma childLink_ids i child e :
  e ∈ childLink i child →
  from e = i ∧ ∃ c, child = Some c ∧ to e = MatrixChain.id c.
Proof.
  destruct child as [c|]; simpl; [|by intros ?%elem_of_nil].
  intros ->%list_elem_of_singleton. eauto.
Qed.

Lemma links_ids t d e :
  e ∈ postorder t ≫= links →
  from e ∈ (MatrixChain.id ∘ fst) <$> inorderAt t d ∧
  to e ∈ (MatrixChain.id ∘ fst) <$> inorderAt t d.
Proof.
  revert d. induction t as [i lbl l r IHl IHr] using TreeNode_induction.
  intros d. cbn [postorder inorderAt].
  rewrite !bind_app, fmap_app, fmap_cons. cbn [mbind list_bind links].
  rewrite app_nil_r, !elem_of_app, !elem_of_cons.
  intros [He | [He | [He | He]]].
  - destruct l as [a|]; [|by apply elem_of_nil in He].
    destruct (IHl (d + 1) He). auto.
  - destruct r as [b|]; [|by apply elem_of_nil in He].
    destruct (IHr (d + 1) He). auto.
  - apply childLink_ids in He as (-> & c & -> & ->). split; [by right; left|].
    left. apply inorderAt_root_id.
  - apply childLink_ids in He as (-> & c & -> & ->). split; [by right; left|].
    right. right. apply inorderAt_root_id.
Qed.

Lemma links_length t : length (postorder t ≫= links) + 1 = MatrixChain.size t.
Proof.
  induction t as [i lbl l r IHl IHr] using TreeNode_induction.
  cbn [postorder MatrixChain.size].
  rewrite !bind_app, !length_app. cbn [mbind list_bind links].
  rewrite app_nil_r, length_app.
  destruct l as [a|], r as [b|]; simpl in *; lia.
Qed.

(** X18: [layoutTree] returns the edges from every node to its children,
    a node's edges after those of its two subtrees; every edge joins the
    ids of two placed nodes and there is one edge fewer than nodes. *)
Theorem layoutTree_edges (floorX floorY floorR : Z) (t : MatrixChain.TreeNode) :
  let L := layoutTree floorX floorY floorR (Some t) in
  edges L = postorder t ≫= links ∧
  Forall (λ e, from e ∈ id <$> nodes L ∧ to e ∈ id <$> nodes L) (edges L) ∧
  length (edges L) = length (nodes L) - 1.
Proof.
  intros L.
  assert (He : edges L = postorder t ≫= links).
  { unfold L.
    destruct (layoutTree_lists floorX floorY floorR (Some t)) as [_ ->].
    cbn [assign].
    destruct (assignNode_nodes floorX floorY t 0
      (mkAssignState [] [] Infinity NegInfinity Infinity NegInfinity 0))
      as (_ & _ & ->).
    done. }
  assert (Hn : nodes L = imap (placeAt floorX floorY) (inorderAt t 0))
    by apply layoutTree_placed.
  split_and!; [done | |].
  - rewrite He, Hn. apply Forall_forall. intros e Hin.
    rewrite (imap_placeAt_ids floorX floorY (λ k, k)).
    by apply links_ids.
  - rewrite He, Hn, length_imap, inorderAt_length.
    pose proof (links_length t). lia.
Qed.

(** In the in-order of the tree built for [A_i ... A_j] the leaf [A_k] is
    at index [2 (k - i)]. *)
Lemma build_inorder n s fuel i j ctr :
  splitsInside n s → 1 ≤ i → i ≤ j → j ≤ n → j - i + 1 ≤ fuel →
  ∃ t c', MatrixChain.build fuel s i j ctr = Some (t, c') ∧
    ∀ d, length (inorderAt t d) = 2 * (j - i) + 1 ∧
         ∀ k, i ≤ k → k ≤ j →
           ∃ u d', inorderAt t d !! (2 * (k - i)) = Some (u, d') ∧
                   MatrixChain.label u = "A" +:+ pretty k.
Proof.
  intros Hs. revert i j ctr.
  induction fuel as [|fuel IH]; intros i j ctr Hi Hij Hj Hfuel; [lia|].
  cbn [MatrixChain.build]. case_bool_decide as Heq.
  - subst j. eexists _, _. split; [done|]. intros d.
    replace (i - i) with 0 by lia. split; [done|].
    intros k ? ?. assert (k = i) as -> by lia.
    replace (i - i) with 0 by lia. eexists _, _. split; done.
  - destruct (Hs i j) as (k0 & -> & Hk); [lia..|]. simpl.
    destruct (IH i k0 (ctr + 1)) as (l & c1 & -> & Hl); [lia..|].
    simpl.
    destruct (IH (k0 + 1) j c1) as (r & c2 & -> & Hr); [lia..|].
    simpl. eexists _, _. split; [done|]. intros d.
    cbn [inorderAt].
    destruct (Hl (d + 1)) as [Hll Hlk]. destruct (Hr (d + 1)) as [Hrl Hrk].
    split.
    + rewrite length_app. cbn [length]. rewrite Hll, Hrl. lia.
    + intros k ? ?. destruct (decide (k ≤ k0)).
      * destruct (Hlk k) as (u & d' & Hu & Hlab); [lia..|].
        exists u, d'. split; [|done].
        rewrite lookup_app_l; [done|]. rewrite Hll. lia.
      * destruct (Hrk k) as (u & d' & Hu & Hlab); [lia..|].
        exists u, d'. split; [|done].
        rewrite lookup_app_r by (rewrite Hll; lia). rewrite Hll.
        match goal with
        | |- _ !! ?x = _ => replace x with (S (2 * (k - (k0 + 1)))) by lia
        end.
        exact Hu.
Qed.

(** X19: when the cost table that [matrixChainOrder] returns for
    [n >= 1] matrices holds no [Infinity] above the diagonal, the layout of
    the tree built from the split table has [2 n - 1] nodes, and the leaf
    [A_k] is in column [2 (k - 1)]: the matrices are drawn from left to
    right in chain order, in every other column. *)
Theorem chain_layout (p : list num) (floorX floorY floorR : Z) :
  let n := length p - 1 in
  let r := MatrixChain.matrixChainOrder p in
  belowInfinity n (MatrixChain.m r) →
  1 ≤ n →
  ∃ t c',
    MatrixChain.buildParenthesisTree n (MatrixChain.s r) 1 n None
    = Some (t, c') ∧
    let L := layoutTree floorX floorY floorR (Some t) in
    length (nodes L) = 2 * n - 1 ∧
    ∀ k, 1 ≤ k → k ≤ n →
      ∃ a, nodes L !! (2 * (k - 1)) = Some a ∧
           label a = "A" +:+ pretty k ∧
           x a = (Z.of_nat (2 * (k - 1)) * spacingX floorX + xOffset floorX)%Z.
Proof.
  intros n r Hfin Hn. unfold MatrixChain.buildParenthesisTree.
  destruct (build_inorder n (MatrixChain.tables p).2 n 1 n 0)
    as (t & c' & Hb & Ht); [by apply tables_splitsInside | lia..|].
  exists t, c'. split; [exact Hb|]. cbn zeta.
  rewrite layoutTree_placed.
  destruct (Ht 0) as [Hlen Hk]. split.
  - rewrite length_imap, Hlen. lia.
  - intros k ? ?. destruct (Hk k) as (u & d' & Hu & Hlab); [lia..|].
    eexists. rewrite list_lookup_imap, Hu. split; [done|]. split; done.
Qed.

Lemma chain_layout_witness :
  let p := ofZ <$> [4; 10; 3; 12]%Z in
  belowInfinity 3 (MatrixChain.m (MatrixChain.matrixChainOrder p)) ∧
  ∃ t c',
    MatrixChain.buildParenthesisTree 3
      (MatrixChain.s (MatrixChain.matrixChainOrder p)) 1 3 None
    = Some (t, c') ∧
    length (nodes (layoutTree 115 100 30 (Some t))) = 5 ∧
    ∃ a, nodes (layoutTree 115 100 30 (Some t)) !! 2 = Some a ∧
         label a = "A2" ∧ x a = 287%Z.
Proof.
  intros p.
  assert (H : belowInfinity 3 (MatrixChain.m (MatrixChain.matrixChainOrder p))).
  { refine (bool_decide_unpack _ _). by vm_compute. }
  split; [exact H|].
  destruct (chain_layout p 115 100 30 H) as (t & c' & Hb & Hlen & Hk);
    [simpl; lia|].
  exists t, c'. split; [exact Hb|]. split; [exact Hlen|].
  destruct (Hk 2) as (a & Ha & Hlab & Hx); [lia | simpl; lia|].
  exists a. split_and!; [exact Ha | exact Hlab | exact Hx].
Defined.

(** ** Steps of the matrix-chain explanation *)

Lemma set2_set2 {A} (t : list (list A)) i j a b :
  set2 (set2 t i j a) i j b = set2 t i j b.
Proof.
  unfold set2. destruct (t !! i) as [row|] eqn:Hrow; [|by rewrite Hrow].
  rewrite list_lookup_insert_eq by (by eapply lookup_lt_Some).
  by rewrite !list_insert_insert_eq.
Qed.

Lemma level1_spec N n :
  n < N →
  foldl level1 (filled N N zero, []) (seq 1 n)
  = (filled N N zero, diagLine <$> seq 1 n).
Proof.
  intros Hn.
  pose proof (foldl_seq_inv (λ k st, st = (filled N N zero,
                                           diagLine <$> seq 1 (k - 1)))
                level1 (filled N N zero, []) 1 n) as H.
  cbn beta in H. replace (1 + n - 1) with n in H by lia. apply H.
  - done.
  - intros k y Hk ->. unfold level1. cbn [fst snd]. f_equal.
    + pose proof (set2_same N N (filled N N zero) k k (dims_filled _ _ _))
        as E.
      by rewrite get2_filled in E by lia.
    + replace (S k - 1) with (S (k - 1)) by lia.
      rewrite seq_S, fmap_app. cbn [fmap list_fmap].
      by replace (1 + (k - 1)) with k by lia.
Qed.

Lemma expectedSvg_early fuel n sloc k :
  k < n → expectedSvg fuel n sloc k = None.
Proof. intros Hk. unfold expectedSvg. rewrite bool_decide_eq_false_2; [done | lia]. Qed.

Section steps.
Variable show : num → string.
Variable pv : list num.
Local Abbreviation N := (length pv).
Local Abbreviation slocOk := (slocOk (length pv)).

(** The [k] loop of the explanation leaves in [bestK] a split of the
    chain. *)
Lemma tryK_bestK m i j cnt best lines :
  let st := foldl (tryK show pv m i j) (best, i, lines) (seq i cnt) in
  i ≤ st.1.2 ∧ (st.1.2 < i + cnt ∨ st.1.2 = i).
Proof.
  apply (foldl_seq_inv (λ k st, i ≤ st.1.2 ∧ (st.1.2 < k ∨ st.1.2 = i))).
  - simpl. lia.
  - intros k [[b bk] l] Hk [H1 H2]. unfold tryK.
    destruct (num_ltb _ _); simpl in *; lia.
Qed.

(** One cell: [sloc[i][j]] becomes a split of the chain, whatever the
    costs are. *)
Lemma fillCell_sloc L c mloc sloc lines :
  dims N N sloc → 2 ≤ L → 1 ≤ c → c + L - 1 < N →
  let st := fillCell show pv L (mloc, sloc, lines) c in
  dims N N st.1.2 ∧
  (∀ a b, (a, b) ≠ (c, c + L - 1) → get2 st.1.2 a b = get2 sloc a b) ∧
  c ≤ get2 st.1.2 c (c + L - 1) < c + L - 1.
Proof.
  intros Hds HL Hc HjN. unfold fillCell. set (j := c + L - 1).
  case_bool_decide as HL2; cbn [fst snd].
  - split; [by apply dims_set2 | split].
    + intros a b Hab. by rewrite get2_set2_ne.
    + rewrite (get2_set2_eq N N) by (done || lia). lia.
  - pose proof (tryK_bestK mloc c j (j - c) Inf (lines ++ [tryLine c j]))
      as Hk. cbn zeta in Hk.
    destruct (foldl (tryK show pv mloc c j) _ _) as [[best bestK] lines'].
    cbn [fst snd] in *.
    split; [by apply dims_set2 | split].
    + intros a b Hab. by rewrite get2_set2_ne.
    + rewrite (get2_set2_eq N N) by (done || lia). lia.
Qed.

Lemma fillCells_sloc L mloc sloc lines :
  2 ≤ L → L < N → slocOk L 1 sloc →
  slocOk (S L) 1
    (foldl (fillCell show pv L) (mloc, sloc, lines) (seq 1 (N - 1 - L + 1))).1.2.
Proof.
  intros HL HLN Hok.
  assert (Hend : slocOk L (1 + (N - 1 - L + 1))
    (foldl (fillCell show pv L) (mloc, sloc, lines)
           (seq 1 (N - 1 - L + 1))).1.2).
  { apply (foldl_seq_inv (λ c st, slocOk L c st.1.2)); [done|].
    intros c [[m' s'] l'] Hc [Hds Hin]. cbn [fst snd] in *.
    destruct (fillCell_sloc L c m' s' l') as (Hds' & Hframe & Hnew);
      [done | lia..|].
    split; [done|]. intros i j Hi Hij Hj Hcell.
    destruct (decide ((i, j) = (c, c + L - 1))) as [[= -> ->]|Hne]; [done|].
    rewrite Hframe by congruence. apply Hin; [done..|].
    destruct Hcell as [?|[Hlen Hlt]]; [by left|]. right. split; [done|].
    assert (i ≠ c); [|lia]. intros ->. apply Hne. f_equal. lia. }
  destruct Hend as [Hds Hin]. split; [done|].
  intros i j Hi Hij Hj Hcell. apply Hin; [done..|].
  unfold filled_cell in *. lia.
Qed.

Lemma pushStep_ok fuel n K sloc steps desc :
  1 ≤ K → stepsInv fuel n K sloc steps →
  stepsInv fuel n (S K) sloc (pushStep steps desc (expectedSvg fuel n sloc K)).
Proof.
  intros HK (Hsid & Hlist & Hall). unfold pushStep. split_and!; cbn [fst snd].
  - lia.
  - rewrite fmap_app, Hlist. replace (S K - 1) with (S (K - 1)) by lia.
    rewrite seq_S, fmap_app. cbn [fmap list_fmap step_id svg].
    rewrite Hsid. by replace (1 + (K - 1)) with K by lia.
  - apply Forall_app. split; [done|]. by repeat constructor.
Qed.

(** Before the last chain length no step holds a preview, so the steps
    pushed so far are right for every split table. *)
Lemma stepsInv_early fuel n K sloc sloc' steps :
  K ≤ n → stepsInv fuel n K sloc steps → stepsInv fuel n K sloc' steps.
Proof.
  intros HK (Hsid & Hlist & Hall). split_and!; [done | | done].
  rewrite Hlist. apply list_fmap_ext. intros i k Hk%lookup_seq.
  by rewrite !expectedSvg_early by lia.
Qed.

(** After the two loops: a split table that cuts every interval inside,
    and one step per chain length. *)
Lemma localTables_struct fuel :
  1 ≤ N - 1 →
  let st := localTables show fuel pv in
  slocOk N 1 st.1.2 ∧ stepsInv fuel (N - 1) N st.1.2 st.2.
Proof.
  intros HN. unfold localTables.
  rewrite (level1_spec N (N - 1)) by lia.
  set (steps0 := pushStep ([], 1) _ None).
  pose (P := λ (K : nat)
      (y : list (list num) * list (list nat) * (list Step * nat)),
    slocOk K 1 y.1.2 ∧ stepsInv fuel (N - 1) K y.1.2 y.2).
  assert (HP : P (2 + (N - 1 - 1))
    (foldl (level show fuel pv (N - 1))
           (filled N N zero, filled N N 0, steps0) (seq 2 (N - 1 - 1)))).
  { apply (foldl_seq_inv P).
    - split; cbn [fst snd].
      + split; [apply dims_filled|].
        intros i j Hi Hij _ Hcell. unfold filled_cell in Hcell. lia.
      + unfold steps0, pushStep, stepsInv. cbn [fst snd].
        split_and!; [done | | by repeat constructor].
        cbn. unfold expectedSvg. by rewrite bool_decide_eq_false_2 by lia.
    - intros L [[m s] steps] HL (Hok & Hsteps). cbn [fst snd] in *.
      unfold level.
      pose proof (fillCells_sloc L m s [headLine L] ltac:(lia) ltac:(lia) Hok)
        as Hok'.
      destruct (foldl (fillCell show pv L) _ _) as [[m' s'] lines'].
      cbn [fst snd] in *. split; [done|].
      replace (if bool_decide (L = N - 1) then previewOf fuel s' (N - 1)
               else None) with (expectedSvg fuel (N - 1) s' L).
      2:{ unfold expectedSvg.
          case_bool_decide; case_bool_decide; try done; lia. }
      apply pushStep_ok; [lia|].
      apply (stepsInv_early _ _ _ s); [lia | done]. }
  replace (2 + (N - 1 - 1)) with N in HP by lia. exact HP.
Qed.

Lemma slocOk_splitsInside sloc : slocOk N 1 sloc → splitsInside (N - 1) sloc.
Proof.
  intros [Hds Hin] i j Hi Hij Hj. exists (get2 sloc i j). split.
  - apply (read2_get2 N); [done | lia..].
  - apply Hin; [lia..|]. left. lia.
Qed.

(** *** The tables of the explanation and those of matrixChainOrder *)

Lemma step_k_frame i j ms k a b :
  (a, b) ≠ (i, j) →
  get2 (MatrixChain.step_k pv i j ms k).1 a b = get2 ms.1 a b ∧
  get2 (MatrixChain.step_k pv i j ms k).2 a b = get2 ms.2 a b.
Proof.
  intros Hab. unfold MatrixChain.step_k.
  destruct (num_ltb _ _); [|done]. cbn [fst snd].
  by rewrite !get2_set2_ne by congruence.
Qed.

(** Filling a cell changes no other cell. *)
Lemma step_i_frame L ms c a b :
  (a, b) ≠ (c, c + L - 1) →
  get2 (MatrixChain.step_i pv L ms c).1 a b = get2 ms.1 a b ∧
  get2 (MatrixChain.step_i pv L ms c).2 a b = get2 ms.2 a b.
Proof.
  intros Hab. unfold MatrixChain.step_i.
  set (j := c + L - 1) in *.
  pose proof (foldl_seq_inv
    (λ _ y, get2 y.1 a b = get2 ms.1 a b ∧ get2 y.2 a b = get2 ms.2 a b)
    (MatrixChain.step_k pv c j) (set2 ms.1 c j Inf, ms.2) c (j - c)) as H.
  apply H.
  - cbn [fst snd]. by rewrite get2_set2_ne by congruence.
  - intros k y _ [E1 E2].
    destruct (step_k_frame c j y k a b) as [-> ->]; [congruence | done].
Qed.

(** The rest of an [i] loop changes no cell of another length, and none
    before [c]. *)
Lemma step_i_loop_frame L ms c cnt a b :
  ¬ (b = a + L - 1 ∧ c ≤ a) →
  get2 (foldl (MatrixChain.step_i pv L) ms (seq c cnt)).1 a b = get2 ms.1 a b ∧
  get2 (foldl (MatrixChain.step_i pv L) ms (seq c cnt)).2 a b = get2 ms.2 a b.
Proof.
  intros Hab.
  pose proof (foldl_seq_inv
    (λ _ y, get2 y.1 a b = get2 ms.1 a b ∧ get2 y.2 a b = get2 ms.2 a b)
    (MatrixChain.step_i pv L) ms c cnt) as H.
  apply H; [done|].
  intros k y Hk [E1 E2].
  destruct (step_i_frame L y k a b) as [-> ->]; [|done].
  intros [= -> ->]. apply Hab. lia.
Qed.

(** The rest of the [l] loop changes no cell of a shorter chain. *)
Lemma step_l_loop_frame n ms L cnt a b :
  1 ≤ L → b + 1 < a + L →
  get2 (foldl (MatrixChain.step_l pv n) ms (seq L cnt)).1 a b = get2 ms.1 a b ∧
  get2 (foldl (MatrixChain.step_l pv n) ms (seq L cnt)).2 a b = get2 ms.2 a b.
Proof.
  intros HL Hab.
  pose proof (foldl_seq_inv
    (λ _ y, get2 y.1 a b = get2 ms.1 a b ∧ get2 y.2 a b = get2 ms.2 a b)
    (MatrixChain.step_l pv n) ms L cnt) as H.
  apply H; [done|].
  intros K y HK [E1 E2]. unfold MatrixChain.step_l.
  destruct (step_i_loop_frame K y 1 (n - K + 1) a b) as [-> ->]; [lia | done].
Qed.

Lemma stateAt_succ L c :
  1 ≤ c → stateAt pv L (S c) = MatrixChain.step_i pv L (stateAt pv L c) c.
Proof.
  intros Hc. unfold stateAt. replace (S c - 1) with (S (c - 1)) by lia.
  rewrite seq_S, foldl_app. cbn [foldl].
  by replace (1 + (c - 1)) with c by lia.
Qed.

Lemma stateAt_level L :
  2 ≤ L → stateAt pv (S L) 1 = stateAt pv L (N - 1 - L + 1 + 1).
Proof.
  intros HL. unfold stateAt. replace (S L - 2) with (S (L - 2)) by lia.
  rewrite seq_S, foldl_app. cbn [foldl].
  replace (2 + (L - 2)) with L by lia.
  replace (1 - 1) with 0 by lia.
  replace (N - 1 - L + 1 + 1 - 1) with (N - 1 - L + 1) by lia.
  done.
Qed.

Lemma stateAt_tables : stateAt pv N 1 = MatrixChain.tables pv.
Proof.
  unfold stateAt, MatrixChain.tables. cbn [seq foldl].
  replace (1 - 1) with 0 by lia. cbn [seq foldl].
  by replace (N - 2) with (N - 1 - 1) by lia.
Qed.

Lemma stateAt_Inv L c :
  2 ≤ L → L ≤ N → 1 ≤ c → c + L ≤ N + 1 → Inv pv L c (stateAt pv L c).
Proof.
  intros HL HLN Hc HcN.
  assert (H1 : Inv pv L 1 (stateAt pv L 1)).
  { unfold stateAt. replace (1 - 1) with 0 by lia. cbn [seq foldl].
    replace L with (2 + (L - 2)) at 1 by lia.
    apply (foldl_seq_inv (λ K, Inv pv K 1)); [apply Inv_init|].
    intros K y HK Hy. apply step_l_Inv; [lia | lia | done]. }
  unfold stateAt. replace c with (1 + (c - 1)) at 1 by lia.
  apply (foldl_seq_inv (Inv pv L)).
  - unfold stateAt in H1. by replace (1 - 1) with 0 in H1 by lia.
  - intros k y Hk Hy. apply step_i_Inv; [lia | lia | lia | done].
Qed.

(** A cell filled when the loops are at [(L, c)] holds its final
    entries. *)
Lemma stateAt_final L c a b :
  2 ≤ L → L < N → 1 ≤ c → c + L ≤ N + 1 →
  b + 1 < a + L ∨ (b = a + L - 1 ∧ a < c) →
  get2 (MatrixChain.tables pv).1 a b = get2 (stateAt pv L c).1 a b ∧
  get2 (MatrixChain.tables pv).2 a b = get2 (stateAt pv L c).2 a b.
Proof.
  intros HL HLN Hc HcN Hab.
  assert (E1 : MatrixChain.tables pv
               = foldl (MatrixChain.step_l pv (N - 1)) (stateAt pv (S L) 1)
                       (seq (S L) (N - S L))).
  { rewrite <- stateAt_tables. unfold stateAt.
    replace (1 - 1) with 0 by lia. cbn [seq foldl].
    rewrite <- foldl_app. f_equal.
    replace (N - 2) with ((S L - 2) + (N - S L)) by lia.
    rewrite seq_app. do 2 f_equal. lia. }
  assert (E2 : stateAt pv (S L) 1
               = foldl (MatrixChain.step_i pv L) (stateAt pv L c)
                       (seq c (N - L + 1 - c))).
  { rewrite stateAt_level by lia. unfold stateAt.
    rewrite <- foldl_app. f_equal.
    replace (N - 1 - L + 1 + 1 - 1) with ((c - 1) + (N - L + 1 - c)) by lia.
    rewrite seq_app. do 2 f_equal. lia. }
  rewrite E1.
  destruct (step_l_loop_frame (N - 1) (stateAt pv (S L) 1) (S L) (N - S L) a b)
    as [-> ->]; [lia | lia |].
  rewrite E2. apply step_i_loop_frame. lia.
Qed.

(** The lines of the [k] loop. *)
Lemma tryK_lines m i j cnt a best bestK lines :
  (foldl (tryK show pv m i j) (best, bestK, lines) (seq a cnt)).2
  = lines ++ ((λ k, kLine show pv m i j k (q pv m i k j)) <$> seq a cnt).
Proof.
  revert a best bestK lines.
  induction cnt as [|cnt IH]; intros a best bestK lines; simpl.
  - by rewrite app_nil_r.
  - destruct (num_ltb _ best); rewrite IH; by rewrite <- app_assoc.
Qed.

(** The [k] loop of the explanation beside the one of [matrixChainOrder]:
    the same best cost, and the same split once a cost was below
    [Infinity]. *)
Lemma tryK_sim m s i j cnt a best bestK lines s' :
  dims N N m → i < j → j < N → i ≤ a → a + cnt ≤ j →
  (s' = s ∧ best = Inf) ∨ (s' = set2 s i j bestK ∧ num_ltb best Inf = true) →
  ∃ best' bestK' lines' s'',
    foldl (tryK show pv m i j) (best, bestK, lines) (seq a cnt)
    = (best', bestK', lines') ∧
    foldl (MatrixChain.step_k pv i j) (set2 m i j best, s') (seq a cnt)
    = (set2 m i j best', s'') ∧
    ((s'' = s ∧ best' = Inf) ∨
     (s'' = set2 s i j bestK' ∧ num_ltb best' Inf = true)).
Proof.
  intros Hdm Hij Hj. revert a best bestK lines s'.
  induction cnt as [|cnt IH]; intros a best bestK lines s' Ha Hcnt HR; simpl.
  - by eexists _, _, _, _.
  - assert (Hc : MatrixChain.cost pv (set2 m i j best) i a j = q pv m i a j).
    { apply splitCost_agree; apply get2_set2_ne; intros [=]; lia. }
    unfold MatrixChain.step_k at 2. cbn [fst snd].
    rewrite Hc, (get2_set2_eq N N) by (done || lia).
    destruct (num_ltb (q pv m i a j) best) eqn:Hlt.
    + rewrite set2_set2. apply IH; [lia | lia |]. right. split.
      * destruct HR as [[-> _]|[-> _]]; [done | by rewrite set2_set2].
      * destruct HR as [[_ ->]|[_ HI]]; [done | by eapply num_ltb_trans].
    + apply IH; [lia | lia | done].
Qed.

(** One cell of the explanation: the tables of [matrixChainOrder] after the
    cell (when the cell gets a cost below [Infinity] there), and the lines
    read off these tables. *)
Lemma fillCell_spec L c m s lines :
  Forall nonneg pv → Inv pv L c (m, s) → 2 ≤ L → 1 ≤ c → c + L - 1 < N →
  let ms' := MatrixChain.step_i pv L (m, s) c in
  get2 ms'.1 c (c + L - 1) ≠ Inf →
  fillCell show pv L (m, s, lines) c
  = (ms', lines ++ cellLines show pv ms'.1 ms'.2 L c).
Proof.
  intros Hpv (Hdm & Hds & Hzero & _) HL Hc HjN ms' Hfin.
  cbn [fst snd] in *.
  unfold fillCell, cellLines. set (j := c + L - 1) in *.
  assert (Hstart : ms' = foldl (MatrixChain.step_k pv c j)
                           (set2 m c j Inf, s) (seq c (j - c))) by done.
  case_bool_decide as HL2.
  - (* chain length 2: the product itself *)
    set (w := num_mul (num_mul (dim pv (c - 1)) (dim pv c)) (dim pv j)).
    assert (Hw : MatrixChain.cost pv (set2 m c j Inf) c c j = w).
    { unfold MatrixChain.cost. rewrite !get2_set2_ne by (intros [=]; lia).
      destruct (Hzero c c) as [-> _]; [lia|].
      destruct (Hzero (c + 1) j) as [-> _]; [lia|].
      change (num_add zero zero) with zero.
      apply num_add_zero_l. unfold w.
      by repeat apply num_mul_signed; apply dim_signed. }
    replace (j - c) with 1 in Hstart by lia. cbn [seq foldl] in Hstart.
    unfold MatrixChain.step_k in Hstart. cbn [fst snd] in Hstart.
    rewrite Hw, (get2_set2_eq N N) in Hstart by (done || lia).
    destruct (num_ltb w Inf) eqn:Hlt.
    + rewrite set2_set2 in Hstart. rewrite Hstart. cbn [fst snd].
      by rewrite (get2_set2_eq N N) by (done || lia).
    + exfalso. apply Hfin. rewrite Hstart. cbn [fst snd].
      apply (get2_set2_eq N N); (done || lia).
  - (* longer chains: the [k] loop *)
    pose proof (tryK_lines m c j (j - c) c Inf c (lines ++ [tryLine c j]))
      as Hl.
    destruct (tryK_sim m s c j (j - c) c Inf c (lines ++ [tryLine c j]) s)
      as (best & bestK & lines' & s'' & Htry & Hstep & HR);
      [done | lia | lia | lia | lia | by left |].
    rewrite Htry in Hl |- *. cbn [snd] in Hl. subst lines'.
    rewrite Hstep in Hstart.
    assert (Hbest : get2 ms'.1 c j = best).
    { rewrite Hstart. cbn [fst]. apply (get2_set2_eq N N); (done || lia). }
    destruct HR as [[_ ->]|[-> _]]; [by rewrite Hbest in Hfin|].
    rewrite <- Hstart.
    assert (HbestK : get2 ms'.2 c j = bestK).
    { rewrite Hstart. cbn [snd]. apply (get2_set2_eq N N); (done || lia). }
    rewrite Hbest, HbestK. f_equal.
    rewrite <- !app_assoc. cbn [app]. do 3 f_equal.
    apply list_fmap_ext. intros idx k Hk%lookup_seq.
    assert (E1 : get2 ms'.1 c k = get2 m c k).
    { rewrite Hstart. cbn [fst]. apply get2_set2_ne. intros [=]; lia. }
    assert (E2 : get2 ms'.1 (k + 1) j = get2 m (k + 1) j).
    { rewrite Hstart. cbn [fst]. apply get2_set2_ne. intros [=]; lia. }
    unfold kLine, q, splitCost. by rewrite E1, E2.
Qed.

(** The lines of a cell read the cell and the cells of its two parts. *)
Lemma cellLines_agree m s m' s' L c :
  2 ≤ L →
  (∀ a b, b + 1 < a + L ∨ (b = a + L - 1 ∧ a < S c) →
     get2 m' a b = get2 m a b ∧ get2 s' a b = get2 s a b) →
  cellLines show pv m' s' L c = cellLines show pv m s L c.
Proof.
  intros HL Hag. unfold cellLines. set (j := c + L - 1).
  destruct (Hag c j) as [Em Es]; [lia|]. rewrite Em, Es.
  case_bool_decide; [done|]. do 2 f_equal.
  apply list_fmap_ext. intros idx k Hk%lookup_seq.
  destruct (Hag c k) as [E1 _]; [lia|].
  destruct (Hag (k + 1) j) as [E2 _]; [lia|].
  unfold kLine, splitCost. by rewrite E1, E2.
Qed.

Section explain.
Hypothesis Hpv : Forall nonneg pv.
Hypothesis Hfin : belowInfinity (N - 1) (MatrixChain.tables pv).1.
Local Abbreviation T := (MatrixChain.tables pv).

(** One chain length. *)
Lemma fillCells_spec L :
  2 ≤ L → L < N →
  foldl (fillCell show pv L) (stateAt pv L 1, [headLine L])
        (seq 1 (N - 1 - L + 1))
  = (stateAt pv (S L) 1, levelLines show pv T.1 T.2 L).
Proof.
  intros HL HLN. unfold levelLines.
  pose (P := λ (c : nat)
      (y : list (list num) * list (list nat) * list string),
    y = (stateAt pv L c,
         headLine L :: (seq 1 (c - 1) ≫= cellLines show pv T.1 T.2 L))).
  pose proof (foldl_seq_inv P (fillCell show pv L)
                (stateAt pv L 1, [headLine L]) 1 (N - 1 - L + 1)) as H.
  unfold P in H. rewrite H.
  - rewrite stateAt_level by lia.
    replace (1 + (N - 1 - L + 1)) with (N - 1 - L + 1 + 1) by lia.
    by replace (N - 1 - L + 1 + 1 - 1) with (N - 1 - L + 1) by lia.
  - done.
  - intros c y Hc ->.
    pose proof (stateAt_Inv L c ltac:(lia) ltac:(lia) ltac:(lia) ltac:(lia))
      as HI.
    destruct (stateAt pv L c) as [m s] eqn:Est.
    assert (Hnext : MatrixChain.step_i pv L (m, s) c = stateAt pv L (S c)).
    { by rewrite stateAt_succ, Est by lia. }
    rewrite (fillCell_spec L c m s); [|done | done | lia..|].
    2:{ rewrite Hnext.
        destruct (stateAt_final L (S c) c (c + L - 1)) as [<- _]; [lia..|].
        apply Hfin; lia. }
    rewrite Hnext. f_equal.
    replace (S c - 1) with (S (c - 1)) by lia.
    rewrite seq_S, bind_app. cbn [mbind list_bind].
    rewrite app_nil_r. replace (1 + (c - 1)) with c by lia.
    rewrite app_comm_cons. f_equal.
    symmetry. apply cellLines_agree; [lia|].
    intros a b Hab. apply stateAt_final; lia.
Qed.

(** All chain lengths. *)
Lemma levels_explained fuel (first : Step) :
  2 ≤ N →
  foldl (level show fuel pv (N - 1))
        (filled N N zero, filled N N 0, ([first], 2)) (seq 2 (N - 1 - 1))
  = (T, (first :: (levelStep show fuel pv (MatrixChain.matrixChainOrder pv)
                     <$> seq 2 (N - 1 - 1)), N)).
Proof.
  intros HN.
  pose (P := λ (K : nat)
      (y : list (list num) * list (list nat) * (list Step * nat)),
    y = (stateAt pv K 1,
         (first :: (levelStep show fuel pv (MatrixChain.matrixChainOrder pv)
                      <$> seq 2 (K - 2)), K))).
  pose proof (foldl_seq_inv P (level show fuel pv (N - 1))
                (filled N N zero, filled N N 0, ([first], 2)) 2
                (N - 1 - 1)) as H.
  unfold P in H. rewrite H.
  - replace (2 + (N - 1 - 1)) with N by lia.
    replace (N - 2) with (N - 1 - 1) by lia. by rewrite stateAt_tables.
  - done.
  - intros L y HL ->. unfold level.
    destruct (stateAt pv L 1) as [m s] eqn:Est.
    pose proof (fillCells_spec L ltac:(lia) ltac:(lia)) as Hcells.
    rewrite Est in Hcells. rewrite Hcells.
    destruct (stateAt pv (S L) 1) as [m' s'] eqn:Est'.
    unfold pushStep. cbn [fst snd].
    f_equal. f_equal; [|lia].
    replace (S L - 2) with (S (L - 2)) by lia.
    rewrite seq_S, fmap_app. cbn [fmap list_fmap].
    replace (2 + (L - 2)) with L by lia.
    rewrite app_comm_cons. f_equal. f_equal.
    unfold levelStep. cbn [MatrixChain.m MatrixChain.s MatrixChain.matrixChainOrder].
    f_equal. case_bool_decide as HLn; [|done].
    f_equal. rewrite <- stateAt_tables.
    replace N with (S L) by lia. by rewrite Est'.
Qed.

(** The tables that the explanation fills are those of
    [matrixChainOrder]. *)
Lemma localTables_tables fuel : 2 ≤ N → (localTables show fuel pv).1 = T.
Proof.
  intros HN. unfold localTables.
  rewrite (level1_spec N (N - 1)) by lia.
  unfold pushStep at 1. cbn [fst snd app].
  by rewrite levels_explained.
Qed.

End explain.
End steps.

(** X20: for [n >= 1] matrices [computeStepsForDims] returns [n + 1] steps
    numbered from 1, all of type INFO and without a snapshot, whatever the
    dimensions are; the last one reads "Optimal parenthesization: "
    followed by the text that [parenthesizationFromS] gives on the split
    table [sloc] that the function fills; it and the step of chain length
    [n] (when [n >= 2]) hold the drawing of the tree built from [sloc], and
    no other step holds one.  For dimensions that are neither negative nor
    [NaN], and when the cost table of [matrixChainOrder] holds no
    [Infinity] above the diagonal, [sloc] is the split table that
    [matrixChainOrder] returns. *)
Theorem computeStepsForDims_steps (show : num → string) (pv : list num)
    (fuel : nat) :
  let n := length pv - 1 in
  let sloc := (localTables show fuel pv).1.2 in
  let r := MatrixChain.matrixChainOrder pv in
  1 ≤ n → n ≤ fuel →
  ∃ t c',
    MatrixChain.buildParenthesisTree fuel sloc 1 n None = Some (t, c') ∧
    let steps := computeStepsForDims show fuel pv in
    (λ st, (step_id st, svg st)) <$> steps
    = (λ k, (k, if bool_decide ((k = n ∧ 2 ≤ n) ∨ k = n + 1)
                then Some (buildPreviewSvg (Some t)) else None))
        <$> seq 1 (n + 1) ∧
    description <$> last steps
    = Some ("Optimal parenthesization: " +:+ MatrixChain.treeText t) ∧
    MatrixChain.parenthesizationFromS fuel sloc 1 n
    = Some (MatrixChain.treeText t) ∧
    Forall (λ st, step_type st = "INFO" ∧ treeSnapshot st = null ∧
                  highlightedNodeIds st = []) steps ∧
    (Forall nonneg pv → belowInfinity n (MatrixChain.m r) →
     sloc = MatrixChain.s r).
Proof.
  intros n sloc r Hn Hfuel.
  destruct (localTables_struct show pv fuel Hn) as [Hok Hsteps].
  fold sloc in Hok, Hsteps. fold n in Hsteps.
  destruct (build_leaves n sloc fuel 1 n 0)
    as (t & c' & Hb & _); [by apply slocOk_splitsInside | lia..|].
  exists t, c'. unfold MatrixChain.buildParenthesisTree. cbn [default].
  split; [exact Hb|].
  assert (Hparen : MatrixChain.parenthesizationFromS fuel sloc 1 n
                   = Some (MatrixChain.treeText t)).
  { by rewrite (parenthesizationFromS_build fuel _ 1 n 0), Hb. }
  assert (Hprev : previewOf fuel sloc n = Some (buildPreviewSvg (Some t))).
  { unfold previewOf, MatrixChain.buildParenthesisTree. cbn [default].
    by rewrite Hb. }
  assert (Htie : Forall nonneg pv → belowInfinity n (MatrixChain.m r) →
                 sloc = MatrixChain.s r).
  { intros Hpv Hfin.
    pose proof (localTables_tables show pv Hpv Hfin fuel ltac:(lia)) as E.
    change (MatrixChain.s r) with (MatrixChain.tables pv).2.
    by rewrite <- E. }
  cbn zeta. unfold computeStepsForDims. fold n.
  unfold sloc in *. clear sloc.
  destruct (localTables show fuel pv) as [[m s] steps].
  cbn [fst snd] in *.
  rewrite Hparen, Hprev. cbn [mbind option_bind default from_option].
  destruct Hsteps as (Hsid & Hlist & Hall).
  unfold pushStep, Datatypes.id. cbn [fst snd].
  split_and!.
  - rewrite fmap_app, Hlist. replace (n + 1) with (S (length pv - 1)) by lia.
    rewrite seq_S, fmap_app. cbn [fmap list_fmap step_id svg]. f_equal.
    + apply list_fmap_ext. intros i k Hk%lookup_seq. f_equal.
      unfold expectedSvg. fold n. rewrite Hprev.
      destruct Hk as [-> _].
      case_bool_decide; case_bool_decide; try done; lia.
    + rewrite Hsid. do 2 f_equal; [lia|].
      rewrite bool_decide_eq_true_2; [done | lia].
  - by rewrite last_snoc.
  - done.
  - apply Forall_app. split; [done|]. by repeat constructor.
  - done.
Qed.

Lemma computeStepsForDims_steps_witness :
  let pv := ofZ <$> [4; 10; 3; 12]%Z in
  let steps := computeStepsForDims (λ _, "#") 3 pv in
  step_id <$> steps = [1; 2; 3; 4] ∧
  description <$> last steps
  = Some "Optimal parenthesization: ((A1 Ã— A2) Ã— A3)".
Proof.
  intros pv steps.
  destruct (computeStepsForDims_steps (λ _, "#") pv 3)
    as (t & c' & Hb & Hlist & Hlast & _ & _ & _); [simpl; lia | simpl; lia |].
  vm_compute in Hb. injection Hb as <- <-.
  split; [|exact Hlast].
  apply (f_equal (fmap fst)) in Hlist.
  rewrite <- !list_fmap_compose in Hlist. exact Hlist.
Defined.

(** X21: for fewer than one matrix ([pv] of length 0 or 1)
    [computeStepsForDims] returns the single step "Level 1:" with no line
    after the line break, and no parenthesization step. *)
Theorem computeStepsForDims_no_matrix (show : num → string) (pv : list num)
    (fuel : nat) :
  length pv ≤ 1 →
  computeStepsForDims show fuel pv
  = [mkStep 1 "INFO" ("Level 1:" +:+ nl) null [] None].
Proof.
  intros Hlen. destruct pv as [|a [|b pv]]; [| |simpl in Hlen; lia].
  - unfold computeStepsForDims. simpl. by destruct fuel.
  - unfold computeStepsForDims. simpl. by destruct fuel.
Qed.

Lemma computeStepsForDims_no_matrix_witness :
  length [ofZ 5] ≤ 1 ∧
  description <$> computeStepsForDims (λ _, "#") 4 [ofZ 5] = ["Level 1:" +:+ nl].
Proof.
  split; [simpl; lia|].
  rewrite (computeStepsForDims_no_matrix (λ _, "#") [ofZ 5] 4);
    [done | simpl; lia].
Defined.

(** ** The lines of the drawing *)

(** With distinct ids [find] returns the node that holds the id. *)
Lemma findNode_NoDup (l : list PlacedNode) k a :
  NoDup (id <$> l) → l !! k = Some a → findNode l (id a) = Some a.
Proof.
  unfold findNode. revert k. induction l as [|b l IH]; intros k Hnd Hk; [done|].
  rewrite fmap_cons in Hnd. apply NoDup_cons in Hnd as [Hb Hnd].
  simpl. destruct k as [|k]; simpl in Hk.
  - injection Hk as ->. by rewrite bool_decide_eq_true_2.
  - rewrite bool_decide_eq_false_2; [by eapply IH|].
    intros Heq. apply Hb. rewrite Heq.
    apply list_elem_of_fmap_2. by eapply list_elem_of_lookup_2.
Qed.

(** The ids of a tree in in-order are those of [ids], in another order. *)
Lemma inorderAt_ids t d :
  (MatrixChain.id ∘ fst) <$> inorderAt t d ≡ₚ MatrixChain.ids t.
Proof.
  revert d. induction t as [i lbl l r IHl IHr] using TreeNode_induction.
  intros d. cbn [inorderAt MatrixChain.ids]. rewrite fmap_app, fmap_cons.
  cbn [compose fst MatrixChain.id].
  rewrite <- Permutation_middle. constructor. apply Permutation_app.
  - destruct l as [a|]; [apply IHl | done].
  - destruct r as [b|]; [apply IHr | done].
Qed.

(** Each edge goes from a node of the tree to a node one level below. *)
Lemma links_levels t d e :
  e ∈ postorder t ≫= links →
  ∃ u c du, (u, du) ∈ inorderAt t d ∧ (c, du + 1) ∈ inorderAt t d ∧
            from e = MatrixChain.id u ∧ to e = MatrixChain.id c.
Proof.
  revert d. induction t as [i lbl l r IHl IHr] using TreeNode_induction.
  intros d. cbn [postorder inorderAt].
  rewrite !bind_app. cbn [mbind list_bind links].
  rewrite app_nil_r, !elem_of_app.
  intros [He | [He | [He | He]]].
  - destruct l as [a|]; [|by apply elem_of_nil in He].
    destruct (IHl (d + 1) He) as (u & c & du & ? & ? & ? & ?).
    exists u, c, du. set_solver.
  - destruct r as [b|]; [|by apply elem_of_nil in He].
    destruct (IHr (d + 1) He) as (u & c & du & ? & ? & ? & ?).
    exists u, c, du. set_solver.
  - apply childLink_ids in He as (Hf & c & -> & Ht).
    exists (MatrixChain.mkTreeNode i lbl (Some c) r), c, d.
    destruct (inorderAt_depths c (d + 1)) as (_ & Hc & _). set_solver.
  - apply childLink_ids in He as (Hf & c & -> & Ht).
    exists (MatrixChain.mkTreeNode i lbl l (Some c)), c, d.
    destruct (inorderAt_depths c (d + 1)) as (_ & Hc & _). set_solver.
Qed.

(** X22: when the ids of the tree are distinct, the two lookups
    [nodes.find(n => n.id === e.from)] and [nodes.find(n => n.id === e.to)]
    made for an edge of [layoutTree] both succeed, return the nodes with
    these ids, and the second node is exactly one level ([spacingY]) below
    the first: every line is drawn from a node down to one of its
    children. *)
Theorem drawn_lines (floorX floorY floorR : Z) (t : MatrixChain.TreeNode) :
  NoDup (MatrixChain.ids t) →
  let L := layoutTree floorX floorY floorR (Some t) in
  Forall (λ e, ∃ a b,
            findNode (nodes L) (from e) = Some a ∧
            findNode (nodes L) (to e) = Some b ∧
            id a = from e ∧ id b = to e ∧
            y b = (y a + spacingY floorY)%Z)
         (edges L).
Proof.
  intros Hnd L.
  assert (Hn : nodes L = imap (placeAt floorX floorY) (inorderAt t 0))
    by apply layoutTree_placed.
  assert (He : edges L = postorder t ≫= links).
  { unfold L.
    destruct (layoutTree_lists floorX floorY floorR (Some t)) as [_ ->].
    cbn [assign].
    destruct (assignNode_nodes floorX floorY t 0
      (mkAssignState [] [] Infinity NegInfinity Infinity NegInfinity 0))
      as (_ & _ & ->).
    done. }
  assert (Hids : NoDup (id <$> nodes L)).
  { rewrite Hn, (imap_placeAt_ids floorX floorY (λ k, k)).
    by rewrite inorderAt_ids. }
  rewrite He. apply Forall_forall. intros e Hin.
  destruct (links_levels t 0 e Hin) as (u & c & du & Hu & Hc & Hf & Ht).
  apply list_elem_of_lookup_1 in Hu as (ku & Hku).
  apply list_elem_of_lookup_1 in Hc as (kc & Hkc).
  assert (Ha : nodes L !! ku = Some (placeAt floorX floorY ku (u, du)))
    by (by rewrite Hn, list_lookup_imap, Hku).
  assert (Hb : nodes L !! kc = Some (placeAt floorX floorY kc (c, du + 1)))
    by (by rewrite Hn, list_lookup_imap, Hkc).
  exists (placeAt floorX floorY ku (u, du)),
         (placeAt floorX floorY kc (c, du + 1)).
  rewrite Hf, Ht.
  split_and!.
  - by apply (findNode_NoDup _ ku _ Hids) in Ha.
  - by apply (findNode_NoDup _ kc _ Hids) in Hb.
  - done.
  - done.
  - cbn [placeAt y fst snd]. lia.
Qed.

Lemma drawn_lines_witness :
  let leaf i l := MatrixChain.mkTreeNode i l None None in
  let t := MatrixChain.mkTreeNode 0 "(1,3)"
             (Some (MatrixChain.mkTreeNode 1 "(1,2)"
                      (Some (leaf 2 "A1")) (Some (leaf 3 "A2"))))
             (Some (leaf 4 "A3")) in
  NoDup (MatrixChain.ids t) ∧
  length (edges (layoutTree 115 100 30 (Some t))) = 4 ∧
  Forall (λ e, ∃ a b,
            findNode (nodes (layoutTree 115 100 30 (Some t))) (from e) = Some a ∧
            findNode (nodes (layoutTree 115 100 30 (Some t))) (to e) = Some b ∧
            id a = from e ∧ id b = to e ∧
            y b = (y a + spacingY 100)%Z)
         (edges (layoutTree 115 100 30 (Some t))).
Proof.
  intros leaf t.
  assert (Hnd : NoDup (MatrixChain.ids t)).
  { refine (bool_decide_unpack _ _). by vm_compute. }
  split_and!; [exact Hnd | by vm_compute |].
  apply (drawn_lines 115 100 30 t Hnd).
Defined.

(** ** The explanation and the result of matrixChainOrder *)

(** X23: for dimensions that are neither negative nor [NaN], and when the
    cost table of [matrixChainOrder(pv)] holds no [Infinity] above the
    diagonal, [computeStepsForDims(pv)] returns exactly the explanation
    written from the result of [matrixChainOrder(pv)]: the numbers that its
    lines show for [m[i][k]], [m[k+1][j]], the costs, the best cost and the
    split are the entries of the returned tables, whether or not the tree
    can be built within [fuel] levels, and whatever text [show] gives for a
    number. *)
Theorem computeStepsForDims_explains (show : num → string) (fuel : nat)
    (pv : list num) :
  let r := MatrixChain.matrixChainOrder pv in
  Forall nonneg pv → belowInfinity (length pv - 1) (MatrixChain.m r) →
  computeStepsForDims show fuel pv = explain show fuel pv r.
Proof.
  intros r Hpv Hfin.
  destruct (decide (2 ≤ length pv)) as [HN|HN].
  - unfold computeStepsForDims, localTables, explain, r.
    cbn [MatrixChain.m MatrixChain.s MatrixChain.matrixChainOrder].
    rewrite (level1_spec (length pv) (length pv - 1)) by lia.
    unfold pushStep at 1. cbn [fst snd app].
    rewrite (levels_explained show pv Hpv Hfin) by done.
    destruct (MatrixChain.tables pv) as [m s] eqn:ET. cbn [snd].
    replace (MatrixChain.matrixChainOrder pv)
      with (MatrixChain.Build_MatrixChainResult m s
              (MatrixChain.minCost (MatrixChain.matrixChainOrder pv))).
    2:{ unfold MatrixChain.matrixChainOrder. by rewrite ET. }
    destruct (MatrixChain.parenthesizationFromS fuel s 1 (length pv - 1))
      as [paren|]; [|by rewrite app_nil_r].
    cbn [mbind option_bind].
    destruct (previewOf fuel s (length pv - 1)) as [svg|];
      [|by rewrite app_nil_r].
    cbn [mbind option_bind default from_option]. unfold pushStep, Datatypes.id.
    cbn [fst snd]. by replace (length pv - 1 + 1) with (length pv) by lia.
  - destruct pv as [|a [|b pv]]; [| |simpl in HN; lia].
    + unfold computeStepsForDims, explain. simpl. by destruct fuel.
    + unfold computeStepsForDims, explain. simpl. by destruct fuel.
Qed.

Lemma computeStepsForDims_explains_witness :
  let pv := ofZ <$> [4; 10; 3; 12]%Z in
  let r := MatrixChain.matrixChainOrder pv in
  Forall nonneg pv ∧ belowInfinity 3 (MatrixChain.m r) ∧
  computeStepsForDims (λ _, "#") 3 pv = explain (λ _, "#") 3 pv r.
Proof.
  intros pv r.
  assert (Hpv : Forall nonneg pv) by (by repeat constructor).
  assert (H : belowInfinity 3 (MatrixChain.m r)).
  { refine (bool_decide_unpack _ _). by vm_compute. }
  split_and!; [exact Hpv | exact H |].
  exact (computeStepsForDims_explains (λ _, "#") 3 pv Hpv H).
Defined.

(** ** The view box of the preview *)

(** X24: the view box that [buildPreviewSvg] computes for a tree is made of
    four integers, and it contains the circle of radius 23 of every node
    with 8 more on each side: no node of the preview is cut. *)
Theorem preview_contains_nodes (t : MatrixChain.TreeNode) :
  let layout := layoutTree 89 78 23 (Some t) in
  ∃ vx vy vw vh : Z,
    previewBox layout = (JNum vx, JNum vy, JNum vw, JNum vh) ∧
    Forall (λ n, (vx + 8 ≤ x n - 23)%Z ∧ (x n + 23 ≤ vx + vw - 8)%Z ∧
                 (vy + 8 ≤ y n - 23)%Z ∧ (y n + 23 ≤ vy + vh - 8)%Z)
           (nodes layout).
Proof.
  intros layout.
  destruct (layoutTree_tight 89 78 23 t)
    as (x0 & x1 & y0 & y1 & Ex0 & Ex1 & Ey0 & Ey1 & Hall & Hx0 & _).
  fold layout in Ex0, Ex1, Ey0, Ey1, Hall, Hx0.
  assert (Hr : nodeRadius layout = 23%Z).
  { unfold layout, layoutTree. by case_bool_decide. }
  apply list_elem_of_fmap in Hx0 as (n0 & _ & Hn0).
  rewrite Forall_forall in Hall. pose proof (Hall n0 Hn0) as Hb0.
  unfold previewBox. rewrite Ex0, Ex1, Ey0, Ey1, Hr. cbn [of_bound js_sub js_add].
  assert (Hor : ∀ w d, (0 < w)%Z → js_or (JNum w) d = JNum w).
  { intros w d Hw. destruct w; [lia | done | lia]. }
  rewrite !Hor by lia.
  eexists _, _, _, _. split; [done|].
  apply Forall_forall. intros n Hn. specialize (Hall n Hn). lia.
Qed.

End matrix_chain_visualizer.
